(** * Query dispatch server: claim, submission and enqueue endpoints

    A shallow embedding of [src/api/server.js] together with the schema of
    [src/database/init.sql].  The development has four layers:

    - [JS]: the JavaScript values a parsed JSON body can hold, with the
      operators the handlers apply to them (truthiness, [Array.isArray],
      property reads, [for ... of], [String.prototype.trim]);
    - the relational store: the tables of [init.sql] and the effect of each
      SQL statement text that occurs in [server.js];
    - the connection pool: [pool.query] sends one statement to one pooled
      session; every session carries its own transaction state;
    - the handlers and the routes, written in a small state-and-exception
      monad so that they read like the source. *)

From stdpp Require Import base numbers option list strings gmap.

Set Warnings "-register-all".
Open Scope Z_scope.

(** ** JavaScript values *)

Module JS.

(** A JavaScript string is a sequence of UTF-16 code units. *)
Definition jsstring := list N.

(** The values [express.json()] can produce, plus [undefined]. Numbers are
    the integers; fractional numbers do not occur in the properties below. *)
Inductive value :=
| VUndef
| VNull
| VBool (b : bool)
| VNum (n : Z)
| VStr (s : jsstring)
| VArr (elems : list value)
| VObj (fields : list (string * value)).

(** An ASCII literal as a JavaScript string. *)
Definition lit (s : string) : jsstring :=
  Ascii.N_of_ascii <$> String.list_ascii_of_string s.

(** [ToBoolean]. *)
Definition truthy (v : value) : bool :=
  match v with
  | VUndef | VNull => false
  | VBool b => b
  | VNum n => negb (n =? 0)
  | VStr s => match s with [] => false | _ => true end
  | VArr _ | VObj _ => true
  end.

(** [v.length === 0] for an array [v]. *)
Definition length_is_0 (v : value) : bool :=
  match v with VArr [] => true | _ => false end.

(** [Array.isArray]. *)
Definition isArray (v : value) : bool :=
  match v with VArr _ => true | _ => false end.

Fixpoint assoc (k : string) (fs : list (string * value)) : value :=
  match fs with
  | [] => VUndef
  | (k', v) :: fs' => if String.eqb k k' then v else assoc k fs'
  end.

(** The property read [o.k] for the property names the handlers use
    ([query_id], [pages], [results], [type], ...): none of them is defined
    on the prototypes of strings, numbers, booleans or arrays, so the read
    gives [undefined] there. Reading a property of [undefined] or [null]
    throws a [TypeError], which is [None] here. *)
Definition prop (o : value) (k : string) : option value :=
  match o with
  | VUndef | VNull => None
  | VObj fs => Some (assoc k fs)
  | _ => Some VUndef
  end.

(** Destructuring [const { k } = req.body] of the parsed body object. *)
Definition field (body : list (string * value)) (k : string) : value :=
  assoc k body.

Definition high_surrogate (c : N) : bool := ((55296 <=? c) && (c <=? 56319))%N.
Definition low_surrogate (c : N) : bool := ((56320 <=? c) && (c <=? 57343))%N.

(** The string iterator yields code points: a surrogate pair is one item. *)
Fixpoint code_points (s : jsstring) : list jsstring :=
  match s with
  | [] => []
  | c :: rest =>
      match rest with
      | c' :: rest' =>
          if high_surrogate c && low_surrogate c'
          then [c; c'] :: code_points rest'
          else [c] :: code_points rest
      | [] => [[c]]
      end
  end.

(** The items [for (const x of v)] visits; [None] when [v] is not iterable
    (a [TypeError]). *)
Definition iterate (v : value) : option (list value) :=
  match v with
  | VArr l => Some l
  | VStr s => Some (VStr <$> code_points s)
  | _ => None
  end.

(** ECMAScript [WhiteSpace] and [LineTerminator] code points; all of them
    lie in the basic plane, so a test on code units is exact. *)
Definition is_space (c : N) : bool :=
  ((c =? 9) || (c =? 10) || (c =? 11) || (c =? 12) || (c =? 13) || (c =? 32)
   || (c =? 160) || (c =? 5760) || ((8192 <=? c) && (c <=? 8202))
   || (c =? 8232) || (c =? 8233) || (c =? 8239) || (c =? 8287)
   || (c =? 12288) || (c =? 65279))%N.

Fixpoint trim_start (s : jsstring) : jsstring :=
  match s with
  | c :: s' => if is_space c then trim_start s' else s
  | [] => []
  end.

(** [String.prototype.trim]. *)
Definition trim (s : jsstring) : jsstring :=
  rev (trim_start (rev (trim_start s))).

End JS.

(** ** The relational store ([src/database/init.sql]) *)

Definition uuid := N.
Definition text := JS.jsstring.
Definition timestamp := Z.

(** The three literals the server writes to [queries.status]: the column
    default ['pending'] and the two literals of [server.js]. *)
Inductive status := pending | processing | completed.

Global Instance status_eq_dec : EqDecision status.
Proof. solve_decision. Defined.

(** A column of the schema that may hold NULL is an [option]. *)
Record project := {
  p_id : uuid;
  p_name : text;
  p_description : option text;
  p_created_at : timestamp;
  p_is_active : bool
}.

Record query := {
  q_id : uuid;
  q_project_id : option uuid;
  q_search_term : text;
  q_status : status;
  q_priority : option Z;
  q_created_at : timestamp;
  q_processed_at : option timestamp
}.

Global Instance query_eq_dec : EqDecision query.
Proof. solve_decision. Defined.

(** Child rows hold the columns their [INSERT] names; the serial key and
    the creation stamp the engine adds are read by no handler below. *)
Record result := {
  r_query_id : option uuid;
  r_page_number : option Z;
  r_position : option Z;
  r_title : option text;
  r_url : option text;
  r_domain : option text;
  r_description : option text;
  r_result_type : option text
}.

Record suggestion := {
  s_query_id : option uuid;
  s_suggestion : option text
}.

Record related_search := {
  rs_query_id : option uuid;
  rs_search_term : option text
}.

Record db := {
  projects : list project;
  queries : list query;
  results : list result;
  suggestions : list suggestion;
  related_searches : list related_search
}.

(** [PRIMARY KEY] of [queries]. *)
Definition primary_key (d : db) : Prop := NoDup (q_id <$> queries d).

Definition is_pending (q : query) : bool := bool_decide (q_status q = pending).

(** *** [ORDER BY priority DESC, created_at LIMIT 1]

    PostgreSQL sorts NULL as larger than every value, so with [DESC] a NULL
    priority comes first. [created_at] is never NULL: every row is written
    with the column default. *)
Definition priority_above (a b : option Z) : bool :=
  match a, b with
  | None, Some _ => true
  | Some x, Some y => y <? x
  | _, None => false
  end.

Definition priority_same (a b : option Z) : bool :=
  match a, b with
  | None, None => true
  | Some x, Some y => x =? y
  | _, _ => false
  end.

(** [a] is placed strictly before [b] by the [ORDER BY] clause. *)
Definition sorts_before (a b : query) : bool :=
  priority_above (q_priority a) (q_priority b)
  || (priority_same (q_priority a) (q_priority b)
      && (q_created_at a <? q_created_at b)).

(** Rows that tie on both keys come out in an order the engine chooses;
    here the earlier row of the table wins. *)
Fixpoint first_row (best : query) (rows : list query) : query :=
  match rows with
  | [] => best
  | r :: rows' => first_row (if sorts_before r best then r else best) rows'
  end.

Definition order_by_limit_1 (rows : list query) : option query :=
  match rows with
  | [] => None
  | r :: rows' => Some (first_row r rows')
  end.

(** [SELECT id FROM queries WHERE status = 'pending'
     ORDER BY priority DESC, created_at LIMIT 1]. *)
Definition select_next (d : db) : option query :=
  order_by_limit_1 (List.filter is_pending (queries d)).

(** *** Row changes *)

Inductive write :=
| W_claim (id : uuid) (now : timestamp)
| W_status (id : uuid) (st : status)
| W_query (r : query)
| W_result (r : result)
| W_suggestion (r : suggestion)
| W_related (r : related_search).

Definition with_queries (d : db) (qs : list query) : db :=
  {| projects := projects d; queries := qs; results := results d;
     suggestions := suggestions d; related_searches := related_searches d |}.

Definition claim_row (id : uuid) (now : timestamp) (q : query) : query :=
  if bool_decide (q_id q = id) then
    {| q_id := q_id q; q_project_id := q_project_id q;
       q_search_term := q_search_term q; q_status := processing;
       q_priority := q_priority q; q_created_at := q_created_at q;
       q_processed_at := Some now |}
  else q.

Definition set_status (id : uuid) (st : status) (q : query) : query :=
  if bool_decide (q_id q = id) then
    {| q_id := q_id q; q_project_id := q_project_id q;
       q_search_term := q_search_term q; q_status := st;
       q_priority := q_priority q; q_created_at := q_created_at q;
       q_processed_at := q_processed_at q |}
  else q.

Definition apply_write (d : db) (w : write) : db :=
  match w with
  | W_claim id now => with_queries d (claim_row id now <$> queries d)
  | W_status id st => with_queries d (set_status id st <$> queries d)
  | W_query r => with_queries d (queries d ++ [r])
  | W_result r =>
      {| projects := projects d; queries := queries d;
         results := results d ++ [r]; suggestions := suggestions d;
         related_searches := related_searches d |}
  | W_suggestion r =>
      {| projects := projects d; queries := queries d;
         results := results d; suggestions := suggestions d ++ [r];
         related_searches := related_searches d |}
  | W_related r =>
      {| projects := projects d; queries := queries d;
         results := results d; suggestions := suggestions d;
         related_searches := related_searches d ++ [r] |}
  end.

Definition apply_writes (d : db) (ws : list write) : db :=
  foldl apply_write d ws.

(** The [queries] rows a write locks until its transaction ends. Inserting a
    child row only takes a key-share lock on its parent, which no statement
    of the server conflicts with. *)
Definition locks (w : write) : list uuid :=
  match w with
  | W_claim id _ | W_status id _ => [id]
  | W_query r => [q_id r]
  | _ => []
  end.

(** *** Statements

    One constructor for each SQL text of [server.js], with the JavaScript
    values bound to its parameters. *)
Inductive statement :=
| BEGIN
| COMMIT
| ROLLBACK
| UPDATE_next
| INSERT_result (query_id page_number position title url domain
                 description result_type : JS.value)
| INSERT_suggestion (query_id suggestion : JS.value)
| INSERT_related (query_id search_term : JS.value)
| UPDATE_status (st : status) (query_id : JS.value)
| INSERT_query (project_id search_term priority : JS.value).

Inductive db_error :=
| invalid_input
| not_null_violation
| foreign_key_violation
| unique_violation
| in_failed_transaction.

Inductive reply :=
| Rows (ws : list write) (rows : list (uuid * text))
| Error (e : db_error).

(** How the engine reads a bound parameter that is not NULL into a column
    of the given type, after the client library has serialised it; [None]
    when the value is rejected (invalid syntax, out of range, too long).
    Nothing below depends on which values an input function accepts. *)
Record engine := {
  uuid_in : JS.value → option uuid;
  int4_in : JS.value → option Z;
  text_in : JS.value → option text;
  varchar_in : N → JS.value → option text
}.

(** The client library binds [undefined] and [null] as NULL. *)
Definition sql_null (v : JS.value) : bool :=
  match v with JS.VUndef | JS.VNull => true | _ => false end.

Definition column {A} (input : JS.value → option A) (v : JS.value)
  : option (option A) :=
  if sql_null v then Some None else Some <$> input v.

(** [REFERENCES queries(id)] and [REFERENCES projects(id)]; a NULL reference
    is not checked. *)
Definition references_query (d : db) (id : option uuid) : bool :=
  match id with
  | None => true
  | Some u => bool_decide (u ∈ q_id <$> queries d)
  end.

Definition references_project (d : db) (id : option uuid) : bool :=
  match id with
  | None => true
  | Some u => bool_decide (u ∈ p_id <$> projects d)
  end.

(** [RETURNING id, search_term] of the rows [WHERE id = ...] matched. *)
Definition returning (id : uuid) (qs : list query) : list (uuid * text) :=
  (λ q, (q_id q, q_search_term q))
    <$> List.filter (λ q, bool_decide (q_id q = id)) qs.

Section Engine.
Variable E : engine.

Definition result_row (query_id page_number position title url domain
                       description result_type : JS.value) : option result :=
  qid ← column (uuid_in E) query_id;
  pn ← column (int4_in E) page_number;
  pos ← column (int4_in E) position;
  ti ← column (text_in E) title;
  u ← column (text_in E) url;
  dom ← column (varchar_in E 255) domain;
  de ← column (text_in E) description;
  ty ← column (varchar_in E 50) result_type;
  Some {| r_query_id := qid; r_page_number := pn; r_position := pos;
          r_title := ti; r_url := u; r_domain := dom; r_description := de;
          r_result_type := ty |}.

(** The effect of one data statement on the rows a session sees. [now] is
    [CURRENT_TIMESTAMP] and [fresh] the value of [gen_random_uuid()]. *)
Definition exec (now : timestamp) (fresh : uuid) (d : db) (s : statement)
  : reply :=
  match s with
  | BEGIN | COMMIT | ROLLBACK => Rows [] []
  | UPDATE_next =>
      match select_next d with
      | None => Rows [] []
      | Some q => Rows [W_claim (q_id q) now] (returning (q_id q) (queries d))
      end
  | INSERT_result query_id page_number position title url domain
                  description result_type =>
      match result_row query_id page_number position title url domain
                       description result_type with
      | None => Error invalid_input
      | Some r =>
          if references_query d (r_query_id r) then Rows [W_result r] []
          else Error foreign_key_violation
      end
  | INSERT_suggestion query_id suggestion =>
      match column (uuid_in E) query_id, column (text_in E) suggestion with
      | Some qid, Some sg =>
          if references_query d qid
          then Rows [W_suggestion {| s_query_id := qid; s_suggestion := sg |}] []
          else Error foreign_key_violation
      | _, _ => Error invalid_input
      end
  | INSERT_related query_id search_term =>
      match column (uuid_in E) query_id, column (text_in E) search_term with
      | Some qid, Some st =>
          if references_query d qid
          then Rows [W_related {| rs_query_id := qid; rs_search_term := st |}] []
          else Error foreign_key_violation
      | _, _ => Error invalid_input
      end
  | UPDATE_status st query_id =>
      match column (uuid_in E) query_id with
      | None => Error invalid_input
      | Some None => Rows [] []
      | Some (Some id) =>
          if bool_decide (id ∈ q_id <$> queries d)
          then Rows [W_status id st] []
          else Rows [] []
      end
  | INSERT_query project_id search_term priority =>
      match column (uuid_in E) project_id, column (text_in E) search_term,
            column (int4_in E) priority with
      | Some pid, Some term, Some prio =>
          match term with
          | None => Error not_null_violation
          | Some t =>
              if negb (references_project d pid)
              then Error foreign_key_violation
              else if bool_decide (fresh ∈ q_id <$> queries d)
              then Error unique_violation
              else Rows [W_query {| q_id := fresh; q_project_id := pid;
                                    q_search_term := t; q_status := pending;
                                    q_priority := prio; q_created_at := now;
                                    q_processed_at := None |}] []
          end
      | _, _, _ => Error invalid_input
      end
  end.

End Engine.

(** ** The connection pool

    [pool] is a [pg] connection pool. [pool.query(text, params)] takes an
    idle client, runs the one statement on it and gives the client back, so
    two calls need not reach the same session (the library documents that a
    transaction must not be driven through [pool.query]). Which client
    serves a call depends on the other requests in flight, for instance the
    read-only admin listings; here that choice, the clock and the random
    uuid of an insert are read from a schedule. *)

(** A session is in autocommit mode, inside a transaction block, or inside
    a block that a failed statement has aborted. An aborted block keeps its
    row locks until it is ended. The pool closes a connection whose
    statement failed, so its sessions are never left in the third state. *)
Inductive session :=
| Idle
| InTx (start : timestamp) (log : list write)
| Aborted (log : list write).

Record choice := {
  on_session : nat;
  clock : timestamp;
  random_uuid : uuid
}.

Record world := {
  committed : db;
  sessions : gmap nat session;
  trace : list (nat * statement)
}.

Definition session_of (w : world) (c : nat) : session :=
  default Idle (sessions w !! c).

Definition set_session (c : nat) (s : session) (m : gmap nat session)
  : gmap nat session :=
  match s with
  | Idle => delete c m
  | _ => <[c := s]> m
  end.

Definition session_locks (s : session) : list uuid :=
  match s with
  | Idle => []
  | InTx _ log | Aborted log => log ≫= locks
  end.

(** Some other session holds a lock on one of the rows in [ids]. *)
Definition locked_elsewhere (m : gmap nat session) (c : nat) (ids : list uuid)
  : bool :=
  existsb
    (λ '(c', s), negb (c' =? c)%nat
                 && existsb (λ id, bool_decide (id ∈ session_locks s)) ids)
    (map_to_list m).

(** No session has a transaction block open. *)
Definition quiescent (w : world) : Prop := sessions w = ∅.

Inductive exn :=
| TypeError
| DbError (e : db_error).

(** A handler step ends with a value, with a thrown exception, or waits on
    a row lock that another session holds. *)
Inductive outcome (A : Type) :=
| Done (a : A)
| Thrown (e : exn)
| Waiting.
Arguments Done {A} a.
Arguments Thrown {A} e.
Arguments Waiting {A}.

Definition M (A : Type) : Type := world → outcome A * world.

Definition ret {A} (a : A) : M A := λ w, (Done a, w).

Definition throw {A} (e : exn) : M A := λ w, (Thrown e, w).

Definition bind {A B} (m : M A) (k : A → M B) : M B :=
  λ w, match m w with
       | (Done a, w') => k a w'
       | (Thrown e, w') => (Thrown e, w')
       | (Waiting, w') => (Waiting, w')
       end.

(** [try { body } catch (error) { handler }]. *)
Definition try_catch {A} (body : M A) (handler : exn → M A) : M A :=
  λ w, match body w with
       | (Thrown e, w') => handler e w'
       | r => r
       end.

Declare Scope js_scope.
Delimit Scope js_scope with js.
Notation "x <- m ;; k" := (bind m (λ x, k))
  (at level 100, m at next level, right associativity) : js_scope.
Notation "m ;; k" := (bind m (λ _, k))
  (at level 100, right associativity) : js_scope.

Fixpoint for_each {A} (body : A → M unit) (l : list A) : M unit :=
  match l with
  | [] => ret ()
  | x :: l' => bind (body x) (λ _, for_each body l')
  end.

(** [for (const x of v) { body }]. *)
Definition for_of (v : JS.value) (body : JS.value → M unit) : M unit :=
  match JS.iterate v with
  | None => throw TypeError
  | Some l => for_each body l
  end.

(** The property read [o.k]. *)
Definition get (o : JS.value) (k : string) : M JS.value :=
  match JS.prop o k with
  | None => throw TypeError
  | Some v => ret v
  end.

Definition with_session (w : world) (c : nat) (s : session) : world :=
  {| committed := committed w; sessions := set_session c s (sessions w);
     trace := trace w |}.

Definition with_committed (w : world) (d : db) : world :=
  {| committed := d; sessions := sessions w; trace := trace w |}.

Definition issued (w : world) (c : nat) (s : statement) : world :=
  {| committed := committed w; sessions := sessions w;
     trace := trace w ++ [(c, s)] |}.

Section Pool.
Variable E : engine.
Variable sched : nat → choice.

(** A data statement on session [c]. In autocommit mode its writes commit
    at once; inside a block they join the log. When the statement fails,
    [pool.query] gives the client back with the error and the pool closes
    it: the block of that connection ends with it, nothing of it is
    committed, and the next call that the schedule sends to [c] finds a
    new connection there. In an aborted block every statement is refused;
    no call of [pool.query] leaves a session in that state. *)
Definition run_statement (ch : choice) (s : statement)
  : M (list (uuid * text)) :=
  λ w,
    let c := on_session ch in
    match session_of w c with
    | Idle =>
        match exec E (clock ch) (random_uuid ch) (committed w) s with
        | Error e => (Thrown (DbError e), w)
        | Rows ws rows =>
            if locked_elsewhere (sessions w) c (ws ≫= locks)
            then (Waiting, w)
            else (Done rows, with_committed w (apply_writes (committed w) ws))
        end
    | InTx start log =>
        match exec E start (random_uuid ch)
                   (apply_writes (committed w) log) s with
        | Error e => (Thrown (DbError e), with_session w c Idle)
        | Rows ws rows =>
            if locked_elsewhere (sessions w) c (ws ≫= locks)
            then (Waiting, w)
            else (Done rows, with_session w c (InTx start (log ++ ws)))
        end
    | Aborted _ => (Thrown (DbError in_failed_transaction), w)
    end.

(** [await pool.query(text, params)]: the schedule names the session, and
    the statement is recorded in the trace. *)
Definition pool_query (s : statement) : M (list (uuid * text)) :=
  λ w,
    let ch := sched (length (trace w)) in
    let c := on_session ch in
    let w := issued w c s in
    match s with
    | BEGIN =>
        match session_of w c with
        | Idle => (Done [], with_session w c (InTx (clock ch) []))
        | InTx _ _ => (Done [], w)
        | Aborted _ => (Thrown (DbError in_failed_transaction), w)
        end
    | COMMIT =>
        match session_of w c with
        | InTx _ log =>
            (Done [],
             with_session (with_committed w (apply_writes (committed w) log))
                          c Idle)
        | _ => (Done [], with_session w c Idle)
        end
    | ROLLBACK => (Done [], with_session w c Idle)
    | _ => run_statement ch s w
    end.

End Pool.

(** ** The handlers ([src/api/server.js]) *)

Inductive response :=
| Json_next (query_id : uuid) (search_term : text) (max_pages : Z)
| Json_null
| Json_success
| Json_inserted (inserted : nat)
| Status400 (error : string)
| Status401 (error : string)
| Status500 (error : string) (details : exn).

(** [res.status(500).json({ error: message, details: error.message })]. *)
Definition handleError (error : exn) (message : string) : M response :=
  ret (Status500 message error).

(** The method call [query.trim()] on a truthy value: only a string has the
    method; on any other value the call throws a [TypeError]. *)
Definition call_trim (v : JS.value) : M JS.value :=
  match v with
  | JS.VStr s => ret (JS.VStr (JS.trim s))
  | _ => throw TypeError
  end.

Section Server.
Variable E : engine.
Variable sched : nat → choice.
(** [process.env.API_KEY]; [None] when the variable is not set. *)
Variable API_KEY : option JS.jsstring.

Local Open Scope js_scope.
Local Abbreviation await_query := (pool_query E sched).

(** [validateApiKey]: the header is a string or absent. *)
Definition validateApiKey (x_api_key : option JS.jsstring) (next : M response)
  : M response :=
  match x_api_key with
  | None => ret (Status401 "Invalid API key")
  | Some apiKey =>
      if negb (JS.truthy (JS.VStr apiKey))
         || negb (bool_decide (Some apiKey = API_KEY))
      then ret (Status401 "Invalid API key")
      else next
  end.

(** [GET /api/v1/queries/next]. *)
Definition get_next : M response :=
  try_catch
    (rows <- await_query UPDATE_next ;;
     match rows with
     | (id, search_term) :: _ => ret (Json_next id search_term 5)
     | [] => ret Json_null
     end)
    (λ error, handleError error "Failed to get next query").

Definition insert_results (query_id pages : JS.value) : M unit :=
  for_of pages (λ page,
    page_results <- get page "results" ;;
    if JS.truthy page_results && JS.isArray page_results then
      for_of page_results (λ result,
        page_number <- get page "page_number" ;;
        position <- get result "position" ;;
        title <- get result "title" ;;
        url <- get result "url" ;;
        domain <- get result "domain" ;;
        description <- get result "description" ;;
        type <- get result "type" ;;
        await_query (INSERT_result query_id page_number position title url domain
                 description
                 (if JS.truthy type then type
                  else JS.VStr (JS.lit "organic"))) ;;
        ret ())
    else ret ()).

Definition insert_suggestions (query_id suggestions : JS.value) : M unit :=
  if JS.truthy suggestions && JS.isArray suggestions then
    for_of suggestions (λ suggestion,
      await_query (INSERT_suggestion query_id suggestion) ;; ret ())
  else ret ().

Definition insert_related (query_id related_searches : JS.value) : M unit :=
  if JS.truthy related_searches && JS.isArray related_searches then
    for_of related_searches (λ related,
      await_query (INSERT_related query_id related) ;; ret ())
  else ret ().

(** [POST /api/v1/results]. *)
Definition post_results (body : list (string * JS.value)) : M response :=
  let query_id := JS.field body "query_id" in
  let pages := JS.field body "pages" in
  let suggestions := JS.field body "suggestions" in
  let related_searches := JS.field body "related_searches" in
  if negb (JS.truthy query_id) || negb (JS.truthy pages) then
    ret (Status400 "Missing required fields: query_id, pages")
  else
    try_catch
      (await_query BEGIN ;;
       insert_results query_id pages ;;
       insert_suggestions query_id suggestions ;;
       insert_related query_id related_searches ;;
       await_query (UPDATE_status completed query_id) ;;
       await_query COMMIT ;;
       ret Json_success)
      (λ error,
         await_query ROLLBACK ;;
         handleError error "Failed to save results").

(** The loop of the enqueue handler, with its counter [inserted]. *)
Fixpoint insert_queries (project_id priority : JS.value)
    (queries : list JS.value) (inserted : nat) : M nat :=
  match queries with
  | [] => ret inserted
  | q :: queries' =>
      if JS.truthy q then
        trimmed <- call_trim q ;;
        if JS.truthy trimmed then
          await_query (INSERT_query project_id trimmed priority) ;;
          insert_queries project_id priority queries' (S inserted)
        else insert_queries project_id priority queries' inserted
      else insert_queries project_id priority queries' inserted
  end.

(** [POST /api/v1/admin/projects/:project_id/queries]. The route parameter
    [project_id] is a string; [priority = 0] is the destructuring default,
    which applies to [undefined] only. *)
Definition post_queries (project_id : JS.jsstring)
    (body : list (string * JS.value)) : M response :=
  let queries := JS.field body "queries" in
  let priority :=
    match JS.field body "priority" with
    | JS.VUndef => JS.VNum 0
    | v => v
    end in
  if negb (JS.truthy queries) || negb (JS.isArray queries)
     || JS.length_is_0 queries then
    ret (Status400 "Queries array is required")
  else
    try_catch
      (inserted <-
         match JS.iterate queries with
         | None => throw TypeError
         | Some l => insert_queries (JS.VStr project_id) priority l 0
         end ;;
       ret (Json_inserted inserted))
      (λ error, handleError error "Failed to add queries").

(** The statements of the submission between [BEGIN] and [COMMIT]. *)
Definition submission_block (body : list (string * JS.value))
  : M (list (uuid * text)) :=
  let query_id := JS.field body "query_id" in
  insert_results query_id (JS.field body "pages") ;;
  insert_suggestions query_id (JS.field body "suggestions") ;;
  insert_related query_id (JS.field body "related_searches") ;;
  await_query (UPDATE_status completed query_id).

(** The routes of the two worker endpoints, behind [validateApiKey]. *)
Definition route_next (x_api_key : option JS.jsstring) : M response :=
  validateApiKey x_api_key get_next.

Definition route_results (x_api_key : option JS.jsstring)
    (body : list (string * JS.value)) : M response :=
  validateApiKey x_api_key (post_results body).

End Server.

(** ** A reference engine

    The input functions of PostgreSQL 15 on the scalar values of a body,
    as the driver sends them, for the worked examples: uuid text with or
    without hyphens and braces, 32-bit integers written as numbers or as
    decimal text, text without the NUL character, and [VARCHAR(n)] with
    its length limit (trailing spaces beyond the limit are cut). The
    driver also sends an array as an array literal and an object as its
    JSON text; this engine covers scalars only and refuses both. The
    properties are proved for every engine and do not depend on it. *)
Module Reference.

Definition hex_digit (c : N) : option N :=
  if ((48 <=? c) && (c <=? 57))%N then Some (c - 48)%N
  else if ((97 <=? c) && (c <=? 102))%N then Some (c - 87)%N
  else if ((65 <=? c) && (c <=? 70))%N then Some (c - 55)%N
  else None.

Definition hyphen : N := 45.

(** [uuid_in]: sixteen bytes of two hexadecimal digits; a hyphen may
    follow every second byte but the last; braces may enclose the whole. *)
Fixpoint uuid_bytes (bytes : nat) (i : nat) (acc : N) (s : JS.jsstring)
  : option (N * JS.jsstring) :=
  match bytes with
  | O => Some (acc, s)
  | S bytes' =>
      match s with
      | a :: b :: s' =>
          da ← hex_digit a;
          db ← hex_digit b;
          let s'' :=
            match s' with
            | c :: t =>
                if (c =? hyphen)%N && Nat.odd i && (i <? 15)%nat then t
                else s'
            | [] => s'
            end in
          uuid_bytes bytes' (S i) (256 * acc + 16 * da + db)%N s''
      | _ => None
      end
  end.

Definition parse_uuid (s : JS.jsstring) : option uuid :=
  match s with
  | 123%N :: s' =>
      match uuid_bytes 16 0 0 s' with
      | Some (u, [125%N]) => Some u
      | _ => None
      end
  | _ =>
      match uuid_bytes 16 0 0 s with
      | Some (u, []) => Some u
      | _ => None
      end
  end.

Definition dec_digit (c : N) : option Z :=
  if ((48 <=? c) && (c <=? 57))%N then Some (Z.of_N c - 48) else None.

Fixpoint dec_value (acc : Z) (s : JS.jsstring) : option Z :=
  match s with
  | [] => Some acc
  | c :: s' => d ← dec_digit c; dec_value (10 * acc + d) s'
  end.

(** The white space [int4in] skips before and after the number. *)
Definition pg_space (c : N) : bool :=
  ((c =? 32) || ((9 <=? c) && (c <=? 13)))%N.

Fixpoint skip_space (s : JS.jsstring) : JS.jsstring :=
  match s with
  | c :: s' => if pg_space c then skip_space s' else s
  | [] => []
  end.

Definition parse_int (s : JS.jsstring) : option Z :=
  match rev (skip_space (rev (skip_space s))) with
  | [] => None
  | 45%N :: ((_ :: _) as ds) => Z.opp <$> dec_value 0 ds
  | 43%N :: ((_ :: _) as ds) => dec_value 0 ds
  | 45%N :: [] | 43%N :: [] => None
  | ds => dec_value 0 ds
  end.

Definition in_int4 (z : Z) : option Z :=
  if (-2147483648 <=? z) && (z <=? 2147483647) then Some z else None.

Definition int4 (v : JS.value) : option Z :=
  match v with
  | JS.VNum z => in_int4 z
  | JS.VStr s => parse_int s ≫= in_int4
  | _ => None
  end.

Fixpoint decimal_digits (u : Decimal.uint) : JS.jsstring :=
  match u with
  | Decimal.Nil => []
  | Decimal.D0 u' => 48%N :: decimal_digits u'
  | Decimal.D1 u' => 49%N :: decimal_digits u'
  | Decimal.D2 u' => 50%N :: decimal_digits u'
  | Decimal.D3 u' => 51%N :: decimal_digits u'
  | Decimal.D4 u' => 52%N :: decimal_digits u'
  | Decimal.D5 u' => 53%N :: decimal_digits u'
  | Decimal.D6 u' => 54%N :: decimal_digits u'
  | Decimal.D7 u' => 55%N :: decimal_digits u'
  | Decimal.D8 u' => 56%N :: decimal_digits u'
  | Decimal.D9 u' => 57%N :: decimal_digits u'
  end.

Definition number_text (z : Z) : JS.jsstring :=
  match Z.to_int z with
  | Decimal.Pos u => decimal_digits u
  | Decimal.Neg u => 45%N :: decimal_digits u
  end.

(** The driver sends a string in UTF-8, where a surrogate without its
    pair becomes U+FFFD. *)
Fixpoint well_formed (s : JS.jsstring) : JS.jsstring :=
  match s with
  | [] => []
  | c :: rest =>
      if JS.high_surrogate c then
        match rest with
        | c' :: rest' =>
            if JS.low_surrogate c' then c :: c' :: well_formed rest'
            else 65533%N :: well_formed rest
        | [] => [65533%N]
        end
      else if JS.low_surrogate c then 65533%N :: well_formed rest
      else c :: well_formed rest
  end.

Definition no_nul (s : JS.jsstring) : option text :=
  if forallb (λ c, negb (c =? 0)%N) s then Some (well_formed s) else None.

Definition text_of (v : JS.value) : option text :=
  match v with
  | JS.VStr s => no_nul s
  | JS.VNum z => Some (number_text z)
  | JS.VBool b => Some (JS.lit (if b then "true" else "false"))
  | _ => None
  end.

Definition varchar (n : N) (v : JS.value) : option text :=
  t ← text_of v;
  let chars := JS.code_points t in
  let k := N.to_nat n in
  if forallb (λ c, bool_decide (c = [32%N])) (drop k chars)
  then Some (concat (take k chars))
  else None.

Definition pg : engine :=
  {| uuid_in := λ v, match v with JS.VStr s => parse_uuid s | _ => None end;
     int4_in := int4;
     text_in := text_of;
     varchar_in := varchar |}.

End Reference.

(** ** Notions used in the statements *)

(** The order of the priority column: NULL lies above every integer. *)
Definition priority_le (a b : option Z) : Prop :=
  match a, b with
  | _, None => True
  | None, Some _ => False
  | Some x, Some y => x ≤ y
  end.

(** The place of a status in the life cycle. *)
Definition rank (st : status) : nat :=
  match st with
  | pending => 0
  | processing => 1
  | completed => 2
  end.

(** The status of the row with the given id, if there is one. *)
Definition status_of (d : db) (id : uuid) : option status :=
  q_status <$> List.find (λ q, bool_decide (q_id q = id)) (queries d).

(** The child rows that refer to a query. *)
Definition results_of (d : db) (id : uuid) : list result :=
  List.filter (λ r, bool_decide (r_query_id r = Some id)) (results d).

Definition suggestions_of (d : db) (id : uuid) : list suggestion :=
  List.filter (λ r, bool_decide (s_query_id r = Some id)) (suggestions d).

Definition related_of (d : db) (id : uuid) : list related_search :=
  List.filter (λ r, bool_decide (rs_query_id r = Some id)) (related_searches d).

(** The four counts of [GET /api/v1/admin/projects/:project_id/stats]:
    pending, processing, completed and total. *)
Definition stats (d : db) (project_id : uuid) : nat * nat * nat * nat :=
  let qs := List.filter (λ q, bool_decide (q_project_id q = Some project_id))
              (queries d) in
  let count st :=
    length (List.filter (λ q, bool_decide (q_status q = st)) qs) in
  (count pending, count processing, count completed, length qs).

(** The statements a handler issued between two worlds. *)
Definition issued_since (w w' : world) : list statement :=
  snd <$> drop (length (trace w)) (trace w').

(** A string entry of the enqueue request is blank when trimming leaves
    nothing; [kept] lists the other string entries, trimmed, in their
    order. An entry that is not a string is never stored. *)
Definition blank (s : JS.jsstring) : bool :=
  match JS.trim s with [] => true | _ => false end.

Definition kept_entry (v : JS.value) : list JS.jsstring :=
  match v with
  | JS.VStr s => if blank s then [] else [JS.trim s]
  | _ => []
  end.

Definition kept (entries : list JS.value) : list JS.jsstring :=
  entries ≫= kept_entry.

(** The statement that inserts one search term. *)
Definition insert_of (project_id : JS.jsstring) (priority : JS.value)
    (s : JS.jsstring) : statement :=
  INSERT_query (JS.VStr project_id) (JS.VStr s) priority.

(** Requests to the three modelled endpoints. *)
Inductive request :=
| GET_next (x_api_key : option JS.jsstring)
| POST_results (x_api_key : option JS.jsstring)
               (body : list (string * JS.value))
| POST_queries (project_id : JS.jsstring) (body : list (string * JS.value)).

Section Runs.
Variable E : engine.
Variable sched : nat → choice.
Variable API_KEY : option JS.jsstring.

Definition serve (r : request) : M response :=
  match r with
  | GET_next key => route_next E sched API_KEY key
  | POST_results key body => route_results E sched API_KEY key body
  | POST_queries project_id body => post_queries E sched project_id body
  end.

(** The requests are served one after the other; the result lists what
    each one answered and the world it left. *)
Fixpoint serve_all (rs : list request) (w : world)
  : list (outcome response * world) :=
  match rs with
  | [] => []
  | r :: rs' => let ow := serve r w in ow :: serve_all rs' (snd ow)
  end.

(** The worlds a run goes through, the first one included. *)
Definition worlds (rs : list request) (w : world) : list world :=
  w :: (snd <$> serve_all rs w).

(** [n] polls of the claim handler in a row. *)
Fixpoint polls (n : nat) (w : world) : list (outcome response) :=
  match n with
  | O => []
  | S n' => let ow := get_next E sched w in fst ow :: polls n' (snd ow)
  end.

End Runs.

(** The change of status a request may make to a query: none, or the one
    of its handler. *)
Definition transition (r : request) (st st' : status) : Prop :=
  st' = st
  ∨ match r with
    | GET_next _ => st = pending ∧ st' = processing
    | POST_results _ _ => st' = completed
    | POST_queries _ _ => False
    end.

(** The statuses a query shows along a run, without repetitions. *)
Fixpoint changes (l : list status) : list status :=
  match l with
  | a :: (b :: _) as l' =>
      if bool_decide (a = b) then changes l' else a :: changes l'
  | _ => l
  end.

(** The order of claims in the words of the specification. The answer of
    one claim is a query of the highest priority among the pending ones,
    the oldest of that priority. Along the answers of claims in a row the
    priorities descend, and at equal priority the older query comes
    first. A priority is an integer. *)
Definition highest_priority_first (answer : outcome response) (d : db)
  : Prop :=
  ∀ q t m, q ∈ queries d → answer = Done (Json_next (q_id q) t m) →
    ∀ q' p', q' ∈ queries d → q_status q' = pending →
      q_priority q' = Some p' →
      ∃ p, q_priority q = Some p ∧ p' ≤ p
           ∧ (p' = p → q_created_at q ≤ q_created_at q').

Definition descending_priority (answers : list (outcome response)) (d : db)
  : Prop :=
  ∀ i j qi qj ti tj mi mj,
    (i < j)%nat → qi ∈ queries d → qj ∈ queries d →
    answers !! i = Some (Done (Json_next (q_id qi) ti mi)) →
    answers !! j = Some (Done (Json_next (q_id qj) tj mj)) →
    ∃ pi pj, q_priority qi = Some pi ∧ q_priority qj = Some pj
             ∧ (pj < pi ∨ (pj = pi ∧ q_created_at qi ≤ q_created_at qj)).

(** The life cycle of a query, and the statuses a query shows along a run
    from the world in which it first exists on. *)
Definition lifecycle : list status := [pending; processing; completed].

Definition observed (E : engine) (sched : nat → choice)
    (API_KEY : option JS.jsstring) (rs : list request) (w : world)
    (id : uuid) : list status :=
  changes (omap (λ w', status_of (committed w') id)
             (worlds E sched API_KEY rs w)).

(** The statuses from a given one on. *)
Definition lifecycle_from (st : status) : list status :=
  match st with
  | pending => [pending; processing; completed]
  | processing => [processing; completed]
  | completed => [completed]
  end.

(** No status is followed by one of a lower rank. *)
Inductive rising : list status → Prop :=
| rising_nil : rising []
| rising_one a : rising [a]
| rising_cons a b l :
    (rank a ≤ rank b)%nat → rising (b :: l) → rising (a :: b :: l).

(** ** Notions used in the proofs about transaction blocks *)

Definition ids (d : db) : list uuid := q_id <$> queries d.

(** The statements of the submission handler between [BEGIN] and [COMMIT],
    and the writes they produce. *)
Definition submission_statement (s : statement) : bool :=
  match s with
  | INSERT_result _ _ _ _ _ _ _ _ | INSERT_suggestion _ _
  | INSERT_related _ _ | UPDATE_status completed _ => true
  | _ => false
  end.

Definition submission_write (w : write) : bool :=
  match w with
  | W_result _ | W_suggestion _ | W_related _ | W_status _ completed => true
  | _ => false
  end.

(** Session [c] is the only session with an open block, with the given
    log; no session other than [c] has a block open. *)
Definition in_block (c : nat) (log : list write) (w : world) : Prop :=
  ∃ start, sessions w = {[c := InTx start log]}.

Definition in_session (c : nat) (w : world) : Prop :=
  sessions w = ∅ ∨ ∃ st, sessions w = {[c := st]}.

(** Two runs of [m] inside blocks with the same log, over stores with the
    same query ids, end alike: same outcome, same log, nothing committed. *)
Definition lockstep (c : nat) {A} (m : M A) : Prop :=
  ∀ w1 w2 log,
    in_block c log w1 → in_block c log w2 →
    Forall (λ x, submission_write x = true) log →
    ids (committed w1) = ids (committed w2) →
    fst (m w1) = fst (m w2)
    ∧ committed (snd (m w1)) = committed w1
    ∧ committed (snd (m w2)) = committed w2
    ∧ match fst (m w1) with
      | Done _ =>
          ∃ log', in_block c log' (snd (m w1)) ∧ in_block c log' (snd (m w2))
                  ∧ Forall (λ x, submission_write x = true) log'
      | Thrown _ => in_session c (snd (m w1)) ∧ in_session c (snd (m w2))
      | Waiting => False
      end.

(** The child rows among a list of writes. *)
Definition written_results (log : list write) : list result :=
  log ≫= λ x, match x with W_result r => [r] | _ => [] end.

Definition written_suggestions (log : list write) : list suggestion :=
  log ≫= λ x, match x with W_suggestion r => [r] | _ => [] end.

Definition written_related (log : list write) : list related_search :=
  log ≫= λ x, match x with W_related r => [r] | _ => [] end.

(** ** Sample data for the worked examples *)

Module Sample.
Import JS.

(** The worker key of the deployment file. *)
Definition key : jsstring := lit "your_secure_api_key_here".

Definition project_text : jsstring := lit "11111111-1111-4111-8111-111111111111".
Definition a_text : jsstring := lit "aaaaaaaa-aaaa-4aaa-8aaa-aaaaaaaaaaaa".
Definition b_text : jsstring := lit "bbbbbbbb-bbbb-4bbb-8bbb-bbbbbbbbbbbb".
Definition c_text : jsstring := lit "cccccccc-cccc-4ccc-8ccc-cccccccccccc".

Definition id_of (t : jsstring) : uuid :=
  default 0%N (Reference.parse_uuid t).

Definition keywords : project :=
  {| p_id := id_of project_text; p_name := lit "Keywords";
     p_description := Some (lit "Keyword research project");
     p_created_at := 900; p_is_active := true |}.

Definition row (t term : jsstring) (st : status) (priority : option Z)
    (created : timestamp) : query :=
  {| q_id := id_of t; q_project_id := Some (id_of project_text);
     q_search_term := term; q_status := st; q_priority := priority;
     q_created_at := created; q_processed_at := None |}.

Definition store_of (qs : list query) : db :=
  {| projects := [keywords]; queries := qs; results := [];
     suggestions := []; related_searches := [] |}.

Definition world_of (d : db) : world :=
  {| committed := d; sessions := ∅; trace := [] |}.

(** Priorities 1, 5 and 3, created in this order. *)
Definition three_pending : world :=
  world_of (store_of [row a_text (lit "foo") pending (Some 1) 1000;
                      row b_text (lit "bar") pending (Some 5) 1001;
                      row c_text (lit "baz") pending (Some 3) 1002]).

(** Two queries enqueued with the default priority 0. *)
Definition equal_priority : world :=
  world_of (store_of [row a_text (lit "foo") pending (Some 0) 1000;
                      row b_text (lit "bar") pending (Some 0) 1001]).

(** A query enqueued with [priority: null] after one of priority 5. *)
Definition null_priority : world :=
  world_of (store_of [row a_text (lit "foo") pending (Some 5) 1000;
                      row b_text (lit "bar") pending None 1001]).

(** One query, not yet claimed. *)
Definition one_pending : world :=
  world_of (store_of [row a_text (lit "foo") pending (Some 0) 1000]).

(** One query, claimed by a worker. *)
Definition one_processing : world :=
  world_of (store_of [row a_text (lit "foo") processing (Some 0) 1000]).

(** A project without queries. *)
Definition no_queries : world := world_of (store_of []).

(** The search term of the end-to-end scenario, in code units. *)
Definition black_cat : jsstring :=
  [1711; 1585; 1576; 1607; 32; 1587; 1740; 1575; 1607]%N.

(** Every call is served by session 0. *)
Definition one_session (n : nat) : choice :=
  {| on_session := 0; clock := 2000 + Z.of_nat n;
     random_uuid := (4096 + N.of_nat n)%N |}.

(** The first call is served by session 0, the later ones by session 1. *)
Definition two_sessions (n : nat) : choice :=
  {| on_session := if (n =? 0)%nat then 0%nat else 1%nat;
     clock := 2000 + Z.of_nat n;
     random_uuid := (4096 + N.of_nat n)%N |}.

Definition hit (position : Z) (domain : jsstring) : value :=
  VObj [("position", VNum position); ("title", VStr (lit "A title"));
        ("url", VStr (lit "https://example.org/")); ("domain", VStr domain);
        ("description", VStr (lit "A description"))].

(** A submission for query [a] with two results, a suggestion and a related
    search. *)
Definition submission : list (string * value) :=
  [("query_id", VStr a_text);
   ("pages", VArr [VObj [("page_number", VNum 1);
                         ("results", VArr [hit 1 (lit "example.org");
                                           hit 2 (lit "example.com")])]]);
   ("suggestions", VArr [VStr (lit "foo bar")]);
   ("related_searches", VArr [VStr (lit "foo baz")])].

(** A submission whose third result row has a domain of 256 characters,
    one more than [VARCHAR(255)] admits. *)
Definition long_domain : jsstring := replicate 256 97%N.

Definition bad_submission : list (string * value) :=
  [("query_id", VStr a_text);
   ("pages", VArr [VObj [("page_number", VNum 1);
                         ("results", VArr [hit 1 (lit "example.org");
                                           hit 2 (lit "example.com");
                                           hit 3 long_domain])]]);
   ("suggestions", VArr [VStr (lit "foo bar")])].

(** A submission with no page at all. *)
Definition empty_submission : list (string * value) :=
  [("query_id", VStr a_text); ("pages", VArr [])].

(** An enqueue request with a blank entry and entries to be trimmed. *)
Definition entries : list value :=
  [VStr (lit "  foo "); VStr (lit "   "); VStr (lit "bar")].

Definition enqueue : list (string * value) :=
  [("queries", VArr entries); ("priority", VNum 10)].

End Sample.

(** ** Notions used in the further properties *)

(** Every statement [m] issues, in whatever world it runs, satisfies [P]. *)
Definition issues {A} (P : statement → Prop) (m : M A) : Prop :=
  ∀ w, ∃ tr, trace (snd (m w)) = trace w ++ tr
             ∧ Forall (λ x, P (snd x)) tr.

(** A data statement of a submission for [query_id]: the insert of a child
    row, with a result type that is not falsy, or the status update. *)
Definition submission_insert (query_id : JS.value) (s : statement) : Prop :=
  match s with
  | INSERT_result q _ _ _ _ _ _ ty => q = query_id ∧ JS.truthy ty = true
  | INSERT_suggestion q _ | INSERT_related q _ => q = query_id
  | UPDATE_status st q => st = completed ∧ q = query_id
  | _ => False
  end.

(** The row that the [at]-th call of [pool.query] stores for the search
    term [s] of an enqueue request: the project of the route, which exists,
    the priority of the request, the column defaults for the status and the
    processing time, and the uuid and the time of that call. *)
Definition enqueued_row (E : engine) (sched : nat → choice)
    (project_id : JS.jsstring) (priority : JS.value) (ps : list project)
    (at_call : nat) (s : JS.jsstring) (r : query) : Prop :=
  (∃ u, uuid_in E (JS.VStr project_id) = Some u
        ∧ q_project_id r = Some u ∧ u ∈ p_id <$> ps)
  ∧ text_in E (JS.VStr s) = Some (q_search_term r)
  ∧ column (int4_in E) priority = Some (q_priority r)
  ∧ q_status r = pending ∧ q_processed_at r = None
  ∧ q_id r = random_uuid (sched at_call)
  ∧ q_created_at r = clock (sched at_call).

(** The inserts of a submission, before its status update. *)
Definition submission_inserts (E : engine) (sched : nat → choice)
    (body : list (string * JS.value)) : M unit :=
  let query_id := JS.field body "query_id" in
  bind (insert_results E sched query_id (JS.field body "pages")) (λ _,
  bind (insert_suggestions E sched query_id (JS.field body "suggestions"))
       (λ _,
  insert_related E sched query_id (JS.field body "related_searches"))).

(** Inside a block of session [c], [m] commits nothing and only adds
    submission writes to the log of the block; when the query that
    [query_id] names is not stored, the log stays empty. *)
Definition fills_block (E : engine) (c : nat) (query_id : JS.value) {A}
    (m : M A) : Prop :=
  ∀ w log,
    in_block c log w → Forall (λ x, submission_write x = true) log →
    (∀ u, uuid_in E query_id = Some u → u ∉ ids (committed w) → log = []) →
    committed (snd (m w)) = committed w
    ∧ match fst (m w) with
      | Done _ =>
          ∃ log', in_block c log' (snd (m w))
                  ∧ Forall (λ x, submission_write x = true) log'
                  ∧ (∀ u, uuid_in E query_id = Some u →
                          u ∉ ids (committed w) → log' = [])
      | _ => True
      end.

(** ** The statement of the query listing

    [GET /api/v1/admin/queries] assembles its statement from the filters
    that are present. A condition is kept as its column and the number of
    its placeholder, [col = $k]; [LIMIT] and [OFFSET] get the last two
    placeholders. [parseInt] is the function of the language. *)
Record listing := {
  l_where : list (string * nat);
  l_params : list JS.value;
  l_limit : nat;
  l_offset : nat
}.

Section Listing.
Variable parseInt : JS.value → JS.value.

Definition list_queries (status project_id limit offset : JS.value)
  : listing :=
  let limit := match limit with JS.VUndef => JS.VNum 50 | v => v end in
  let offset := match offset with JS.VUndef => JS.VNum 0 | v => v end in
  let whereConditions : list (string * nat) := [] in
  let params : list JS.value := [] in
  let '(whereConditions, params) :=
    if JS.truthy status
    then (whereConditions ++ [("q.status"%string, (length params + 1)%nat)],
          params ++ [status])
    else (whereConditions, params) in
  let '(whereConditions, params) :=
    if JS.truthy project_id
    then (whereConditions
            ++ [("q.project_id"%string, (length params + 1)%nat)],
          params ++ [project_id])
    else (whereConditions, params) in
  let params := params ++ [parseInt limit; parseInt offset] in
  {| l_where := whereConditions; l_params := params;
     l_limit := (length params - 1)%nat; l_offset := length params |}.

End Listing.

(** ** Further sample requests *)
Module Edge.
Import JS.

(** A search term with the NUL character, which [text] does not admit. *)
Definition nul_term : jsstring := [97; 0; 98]%N.

Definition nul_entries : list value :=
  [VStr (lit "foo"); VStr nul_term; VStr (lit "bar")].

Definition nul_enqueue : list (string * value) :=
  [("queries", VArr nul_entries)].

(** A body whose [queries] is a string, not an array. *)
Definition no_array : list (string * value) :=
  [("queries", VStr (lit "foo"))].

(** A submission whose [query_id] is the empty string. *)
Definition empty_id : list (string * value) :=
  [("query_id", VStr []); ("pages", VArr [])].

(** One pending query, of priority 5. *)
Definition urgent : world :=
  Sample.world_of
    (Sample.store_of
       [Sample.row Sample.a_text (lit "foo") pending (Some 5) 1000]).

(** An enqueue request that names its priority, as [null]. *)
Definition no_priority : list (string * value) :=
  [("queries", VArr [VStr (lit "bar")]); ("priority", VNull)].

End Edge.

(** ** The statements of a whole submission *)

(** The value of [o.k] where the read does not throw. *)
Definition read (o : JS.value) (k : string) : JS.value :=
  default JS.VUndef (JS.prop o k).

(** The inserts for the results of one page, in the order of the page. *)
Definition result_inserts (query_id page : JS.value) : list statement :=
  let page_results := read page "results" in
  if JS.truthy page_results && JS.isArray page_results then
    default [] (JS.iterate page_results) ≫= λ result,
      [INSERT_result query_id (read page "page_number")
         (read result "position") (read result "title") (read result "url")
         (read result "domain") (read result "description")
         (if JS.truthy (read result "type") then read result "type"
          else JS.VStr (JS.lit "organic"))]
  else [].

(** The statements between [BEGIN] and [COMMIT] of a submission that runs
    to its end. *)
Definition statements_of_submission (body : list (string * JS.value))
  : list statement :=
  let query_id := JS.field body "query_id" in
  let suggestions := JS.field body "suggestions" in
  let related_searches := JS.field body "related_searches" in
  (default [] (JS.iterate (JS.field body "pages"))
     ≫= result_inserts query_id)
  ++ ((if JS.truthy suggestions && JS.isArray suggestions
       then default [] (JS.iterate suggestions)
              ≫= λ suggestion, [INSERT_suggestion query_id suggestion]
       else [])
      ++ ((if JS.truthy related_searches && JS.isArray related_searches
           then default [] (JS.iterate related_searches)
                  ≫= λ related, [INSERT_related query_id related]
           else [])
          ++ [UPDATE_status completed query_id])).

(** [m] issues the statements [l], all of them when it returns and the
    first of them when it throws or waits. *)
Definition emits {A} (l : list statement) (m : M A) : Prop :=
  ∀ w, ∃ tr,
    trace (snd (m w)) = trace w ++ tr
    ∧ match fst (m w) with
      | Done _ => snd <$> tr = l
      | _ => (snd <$> tr) `prefix_of` l
      end.

(** ** Overlapping claims

    Under READ COMMITTED, the isolation level the pool runs at, the claim
    statement of [GET /api/v1/queries/next] is not one step. Its subquery
    [SELECT id ... LIMIT 1] is evaluated on the snapshot of the statement.
    The [UPDATE] then locks the row with that id, waiting while another
    transaction holds it, and on the row version that transaction has
    committed it checks its own [WHERE] clause again, which is [id = ...]
    with the value the subquery gave: the status is not looked at a second
    time, and the statement has neither [FOR UPDATE] nor [SKIP LOCKED]. *)

(** The subquery, on the rows committed when the statement starts. *)
Definition claim_subquery (d : db) : option uuid :=
  q_id <$> select_next d.

(** The update of the row the subquery named, on the rows committed when
    the update gets to the row, with its [RETURNING id, search_term]. *)
Definition claim_update (now : timestamp) (target : option uuid) (d : db)
  : db * list (uuid * text) :=
  match target with
  | None => (d, [])
  | Some id => (apply_write d (W_claim id now), returning id (queries d))
  end.

(** The answer of the handler for the rows the statement returned. *)
Definition claim_answer (rows : list (uuid * text)) : response :=
  match rows with
  | (id, search_term) :: _ => Json_next id search_term 5
  | [] => Json_null
  end.

(** The steps of the callers, in the order in which they take place. An
    update commits at once, since the statement runs in autocommit mode;
    a caller that had to wait for a row does its update after the commit
    of the caller it waited for. *)
Inductive claim_step :=
| Subquery (caller : nat)
| Update (caller : nat) (now : timestamp).

Record claiming := {
  store : db;
  chosen : gmap nat (option uuid);
  answered : gmap nat response
}.

Definition claim_step_run (s : claiming) (e : claim_step) : claiming :=
  match e with
  | Subquery c =>
      {| store := store s;
         chosen := <[c := claim_subquery (store s)]> (chosen s);
         answered := answered s |}
  | Update c now =>
      match chosen s !! c with
      | None => s
      | Some target =>
          let '(d, rows) := claim_update now target (store s) in
          {| store := d; chosen := delete c (chosen s);
             answered := <[c := claim_answer rows]> (answered s) |}
      end
  end.

Definition overlapping (d : db) (steps : list claim_step) : claiming :=
  foldl claim_step_run {| store := d; chosen := ∅; answered := ∅ |} steps.

(** Every caller evaluates its subquery before the first update. *)
Definition all_at_once (callers : list nat) (now : nat → timestamp)
  : list claim_step :=
  (Subquery <$> callers) ++ ((λ c, Update c (now c)) <$> callers).

(** ** The rows of a submission *)

(** The child row an insert of the submission stores once the engine has
    accepted it: the columns of the statement, each converted by the input
    function of its type. *)
Definition stored (E : engine) (s : statement) : option write :=
  match s with
  | INSERT_result query_id page_number position title url domain
                  description result_type =>
      W_result <$> result_row E query_id page_number position title url
                     domain description result_type
  | INSERT_suggestion query_id suggestion =>
      match column (uuid_in E) query_id, column (text_in E) suggestion with
      | Some qid, Some sg =>
          Some (W_suggestion {| s_query_id := qid; s_suggestion := sg |})
      | _, _ => None
      end
  | INSERT_related query_id search_term =>
      match column (uuid_in E) query_id, column (text_in E) search_term with
      | Some qid, Some st =>
          Some (W_related {| rs_query_id := qid; rs_search_term := st |})
      | _, _ => None
      end
  | _ => None
  end.

Definition child_insert (s : statement) : bool :=
  match s with
  | INSERT_result _ _ _ _ _ _ _ _ | INSERT_suggestion _ _
  | INSERT_related _ _ => true
  | _ => false
  end.

(** The inserts of a submission that runs to its end: one for every result
    of every page, for every suggestion and for every related search of
    the body, in this order. *)
Definition inserts_of_submission (body : list (string * JS.value))
  : list statement :=
  let query_id := JS.field body "query_id" in
  let suggestions := JS.field body "suggestions" in
  let related_searches := JS.field body "related_searches" in
  (default [] (JS.iterate (JS.field body "pages"))
     ≫= result_inserts query_id)
  ++ ((if JS.truthy suggestions && JS.isArray suggestions
       then default [] (JS.iterate suggestions)
              ≫= λ suggestion, [INSERT_suggestion query_id suggestion]
       else [])
      ++ (if JS.truthy related_searches && JS.isArray related_searches
          then default [] (JS.iterate related_searches)
                 ≫= λ related, [INSERT_related query_id related]
          else [])).

(** Inside a block of session [c], a run of [m] that returns has issued
    the inserts [l], and the log of the block has grown by the row of each
    of them, in the same order; nothing is committed. *)
Definition stores_rows (E : engine) (c : nat) {A} (l : list statement)
    (m : M A) : Prop :=
  ∀ w log,
    in_block c log w →
    match fst (m w) with
    | Done _ =>
        ∃ log', in_block c (log ++ log') (snd (m w))
                ∧ committed (snd (m w)) = committed w
                ∧ Forall2 (λ s x, stored E s = Some x) l log'
    | _ => True
    end.

(** A decidable closed proposition, settled by evaluation. *)
Ltac by_computation := apply (bool_decide_unpack _); vm_compute; exact I.

(** * Properties *)

(** ** The [ORDER BY] comparison is a strict weak order *)

Lemma sorts_before_irrefl q : sorts_before q q = false.
Proof.
  unfold sorts_before. destruct (q_priority q) as [p|]; simpl.
  - rewrite Z.ltb_irrefl, Z.ltb_irrefl. by rewrite andb_false_r.
  - by rewrite Z.ltb_irrefl.
Qed.

Lemma sorts_before_spec a b :
  sorts_before a b = false ↔
  priority_le (q_priority a) (q_priority b)
  ∧ (q_priority a = q_priority b → q_created_at b ≤ q_created_at a).
Proof.
  unfold sorts_before, priority_le.
  destruct (q_priority a) as [x|], (q_priority b) as [y|]; simpl.
  - rewrite orb_false_iff, andb_false_iff, Z.ltb_ge, Z.ltb_ge, Z.eqb_neq.
    split.
    + intros [? [?|?]]; split; [done| |done|]; intros [= ->]; lia.
    + intros [? Hc]. split; [done|].
      destruct (decide (x = y)) as [->|]; [right; by apply Hc|by left].
  - split; [done|intros _; done].
  - split; [done|intros [[] _]].
  - rewrite Z.ltb_ge. split; [done|]. intros [_ Hc]. by apply Hc.
Qed.

Lemma sorts_before_trans a b c :
  sorts_before a b = true → sorts_before b c = true → sorts_before a c = true.
Proof.
  unfold sorts_before.
  destruct (q_priority a) as [x|], (q_priority b) as [y|],
    (q_priority c) as [z|]; simpl; try done;
    rewrite ?orb_true_iff, ?andb_true_iff, ?Z.ltb_lt, ?Z.eqb_eq; lia.
Qed.

Lemma sorts_before_asym a b :
  sorts_before a b = true → sorts_before b a = false.
Proof.
  intros Hab. destruct (sorts_before b a) eqn:Hba; [|done].
  by rewrite <-(sorts_before_irrefl a), (sorts_before_trans a b a).
Qed.

(** Negative transitivity: what is not before [b] is not before anything
    that [b] is not before. *)
Lemma sorts_before_neg_trans a b c :
  sorts_before a b = false → sorts_before b c = false →
  sorts_before a c = false.
Proof.
  rewrite !sorts_before_spec. unfold priority_le.
  destruct (q_priority a) as [x|], (q_priority b) as [y|],
    (q_priority c) as [z|]; simpl; try tauto;
    intros [? Hab] [? Hbc]; (split; [first [done|lia]|]);
    intros Heq; try discriminate.
  - injection Heq as Hxz.
    assert (x = y) as Hxy by lia. assert (y = z) as Hyz by lia.
    specialize (Hab (f_equal Some Hxy)). specialize (Hbc (f_equal Some Hyz)).
    lia.
  - specialize (Hab eq_refl). specialize (Hbc eq_refl). lia.
Qed.

(** ** The subquery picks a first row of the order *)

Lemma first_row_elem best rows : first_row best rows ∈ best :: rows.
Proof.
  revert best. induction rows as [|r rows IH]; intros best; simpl.
  - apply list_elem_of_here.
  - specialize (IH (if sorts_before r best then r else best)).
    apply elem_of_cons in IH as [->|IH].
    + destruct (sorts_before r best).
      * apply list_elem_of_further, list_elem_of_here.
      * apply list_elem_of_here.
    + by do 2 apply list_elem_of_further.
Qed.

Lemma first_row_best best rows :
  sorts_before best (first_row best rows) = false.
Proof.
  revert best. induction rows as [|r rows IH]; intros best; simpl.
  - apply sorts_before_irrefl.
  - destruct (sorts_before r best) eqn:Hr; [|apply IH].
    eapply sorts_before_neg_trans; [|apply IH].
    by apply sorts_before_asym.
Qed.

Lemma first_row_min best rows r :
  r ∈ best :: rows → sorts_before r (first_row best rows) = false.
Proof.
  revert best. induction rows as [|r0 rows IH]; intros best Hr; simpl.
  - apply elem_of_cons in Hr as [->|Hr]; [apply sorts_before_irrefl|].
    by apply elem_of_nil in Hr.
  - apply elem_of_cons in Hr as [->|Hr].
    + destruct (sorts_before r0 best) eqn:H0; [|apply first_row_best].
      eapply sorts_before_neg_trans; [|apply first_row_best].
      by apply sorts_before_asym.
    + apply elem_of_cons in Hr as [->|Hr].
      * destruct (sorts_before r0 best) eqn:H0; [apply first_row_best|].
        eapply sorts_before_neg_trans; [exact H0|apply first_row_best].
      * apply IH. by apply list_elem_of_further.
Qed.

Lemma is_pending_spec q : is_pending q = true ↔ q_status q = pending.
Proof. unfold is_pending. apply bool_decide_eq_true. Qed.

Lemma elem_of_pending q qs :
  q ∈ List.filter is_pending qs ↔ q ∈ qs ∧ q_status q = pending.
Proof. by rewrite list_elem_of_In, filter_In, <-list_elem_of_In, is_pending_spec. Qed.

Lemma select_next_None d :
  select_next d = None ↔ ∀ q, q ∈ queries d → q_status q ≠ pending.
Proof.
  unfold select_next, order_by_limit_1.
  destruct (List.filter is_pending (queries d)) as [|r rows] eqn:Hf.
  - split; [|done]. intros _ q Hq Hp.
    assert (q ∈ List.filter is_pending (queries d)) as Hin
      by by apply elem_of_pending.
    rewrite Hf in Hin. by apply elem_of_nil in Hin.
  - split; [done|]. intros Hno.
    assert (r ∈ List.filter is_pending (queries d)) as Hin
      by (rewrite Hf; apply list_elem_of_here).
    apply elem_of_pending in Hin as [Hin Hp]. by destruct (Hno r Hin).
Qed.

Lemma select_next_Some d q :
  select_next d = Some q →
  q ∈ queries d ∧ q_status q = pending
  ∧ ∀ q', q' ∈ queries d → q_status q' = pending → sorts_before q' q = false.
Proof.
  unfold select_next, order_by_limit_1.
  destruct (List.filter is_pending (queries d)) as [|r rows] eqn:Hf; [done|].
  intros [= <-].
  pose proof (first_row_elem r rows) as Hin. rewrite <-Hf in Hin.
  apply elem_of_pending in Hin as [Hin Hp]. split_and!; [done..|].
  intros q' Hq' Hp'. apply first_row_min. rewrite <-Hf.
  by apply elem_of_pending.
Qed.

Lemma returning_primary_key q qs :
  NoDup (q_id <$> qs) → q ∈ qs →
  returning (q_id q) qs = [(q_id q, q_search_term q)].
Proof.
  unfold returning. induction qs as [|r qs IH]; intros Hnd Hq.
  - by apply elem_of_nil in Hq.
  - rewrite fmap_cons in Hnd. apply NoDup_cons in Hnd as [Hr Hnd]. simpl.
    apply elem_of_cons in Hq as [<-|Hq].
    + rewrite bool_decide_eq_true_2 by done. simpl. f_equal.
      assert (List.filter (λ q0, bool_decide (q_id q0 = q_id q)) qs = [])
        as ->; [|done].
      clear IH Hnd. induction qs as [|r' qs IH]; [done|]. simpl.
      rewrite fmap_cons, not_elem_of_cons in Hr. destruct Hr as [Hne Hr].
      rewrite bool_decide_eq_false_2 by done. by apply IH.
    + rewrite bool_decide_eq_false_2; [by apply IH|].
      intros Heq. apply Hr. rewrite Heq. by apply list_elem_of_fmap_2.
Qed.

(** ** Statements in autocommit mode *)

Lemma locked_elsewhere_empty c ids : locked_elsewhere ∅ c ids = false.
Proof. unfold locked_elsewhere. by rewrite map_to_list_empty. Qed.

Lemma locked_elsewhere_singleton c s ids :
  locked_elsewhere {[c := s]} c ids = false.
Proof.
  unfold locked_elsewhere. rewrite map_to_list_singleton. simpl.
  by rewrite Nat.eqb_refl.
Qed.

Lemma session_of_quiescent w c : quiescent w → session_of w c = Idle.
Proof. unfold quiescent, session_of. intros ->. by rewrite lookup_empty. Qed.

Section Autocommit.
Variable E : engine.
Variable sched : nat → choice.

Lemma run_statement_quiescent ch s w :
  quiescent w →
  run_statement E ch s w =
    match exec E (clock ch) (random_uuid ch) (committed w) s with
    | Error e => (Thrown (DbError e), w)
    | Rows ws rows =>
        (Done rows, with_committed w (apply_writes (committed w) ws))
    end.
Proof.
  intros Hq. unfold run_statement. rewrite session_of_quiescent by done.
  destruct (exec _ _ _ _ _) as [ws rows|e]; [|done].
  unfold quiescent in Hq. by rewrite Hq, locked_elsewhere_empty.
Qed.

(** The claim handler on a world without open transaction blocks. *)
Lemma get_next_quiescent w :
  quiescent w →
  get_next E sched w =
    let ch := sched (length (trace w)) in
    let w1 := issued w (on_session ch) UPDATE_next in
    match select_next (committed w) with
    | None => (Done Json_null, w1)
    | Some q =>
        (Done match returning (q_id q) (queries (committed w)) with
              | (id, search_term) :: _ => Json_next id search_term 5
              | [] => Json_null
              end,
         with_committed w1
           (with_queries (committed w)
              (claim_row (q_id q) (clock ch) <$> queries (committed w))))
    end.
Proof.
  intros Hq. unfold get_next, try_catch, bind, pool_query. simpl.
  rewrite run_statement_quiescent by done. simpl.
  destruct (select_next (committed w)) as [q|]; simpl; [|done].
  by destruct (returning _ _) as [|[id t] ?].
Qed.

End Autocommit.

(** ** The claim handler *)

Lemma claim_row_id id now q : q_id (claim_row id now q) = q_id q.
Proof. unfold claim_row. by case_bool_decide. Qed.

Lemma claim_row_ids id now (qs : list query) :
  q_id <$> (claim_row id now <$> qs) = q_id <$> qs.
Proof.
  rewrite <-list_fmap_compose. apply list_fmap_ext. intros i q _.
  apply claim_row_id.
Qed.

Lemma claim_row_pending id now q :
  q_status (claim_row id now q) = pending →
  claim_row id now q = q ∧ q_id q ≠ id.
Proof. unfold claim_row. by case_bool_decide. Qed.

Section Claim.
Variable E : engine.
Variable sched : nat → choice.

(** What one poll does when no transaction block is open. *)
Lemma get_next_step w :
  quiescent w → primary_key (committed w) →
  let ch := sched (length (trace w)) in
  let w1 := issued w (on_session ch) UPDATE_next in
  (select_next (committed w) = None
   ∧ get_next E sched w = (Done Json_null, w1))
  ∨ (∃ q, select_next (committed w) = Some q
       ∧ get_next E sched w =
           (Done (Json_next (q_id q) (q_search_term q) 5),
            with_committed w1
              (with_queries (committed w)
                 (claim_row (q_id q) (clock ch) <$> queries (committed w))))).
Proof.
  intros Hq Hpk. rewrite get_next_quiescent by done. simpl.
  destruct (select_next (committed w)) as [q|] eqn:Hsel; [right|by left].
  exists q. split; [done|].
  apply select_next_Some in Hsel as (Hin & _ & _).
  by rewrite returning_primary_key.
Qed.

Lemma get_next_quiescent_after w :
  quiescent w → quiescent (snd (get_next E sched w)).
Proof.
  intros Hq. rewrite get_next_quiescent by done. simpl.
  by destruct (select_next (committed w)).
Qed.

Lemma get_next_primary_key w :
  quiescent w → primary_key (committed w) →
  primary_key (committed (snd (get_next E sched w))).
Proof.
  intros Hq Hpk. rewrite get_next_quiescent by done. simpl.
  destruct (select_next (committed w)); [|done].
  unfold primary_key. simpl. by rewrite claim_row_ids.
Qed.

(** Rows still pending after a poll were pending rows before it, and none
    of them is the row the poll handed out. *)
Lemma get_next_pending_after w q :
  quiescent w → primary_key (committed w) →
  q ∈ queries (committed (snd (get_next E sched w))) →
  q_status q = pending →
  q ∈ queries (committed w)
  ∧ ∀ term pages,
      fst (get_next E sched w) ≠ Done (Json_next (q_id q) term pages).
Proof.
  intros Hq Hpk. destruct (get_next_step w Hq Hpk) as [[_ ->]|(q0 & _ & ->)];
    simpl; [done|].
  intros Hin Hp. apply list_elem_of_fmap in Hin as (q1 & -> & Hin).
  apply claim_row_pending in Hp as [-> Hne]. split; [done|].
  intros term pages [= Heq _ _]. by apply Hne.
Qed.

Lemma polls_answers n w i o :
  quiescent w → primary_key (committed w) →
  polls E sched n w !! i = Some o →
  o = Done Json_null
  ∨ ∃ q, q ∈ queries (committed w) ∧ q_status q = pending
         ∧ o = Done (Json_next (q_id q) (q_search_term q) 5).
Proof.
  revert w i. induction n as [|n IH]; intros w i Hq Hpk; [done|].
  destruct i as [|i]; simpl.
  - intros [= <-].
    destruct (get_next_step w Hq Hpk) as [[_ ->]|(q & Hsel & ->)];
      [by left|right].
    apply select_next_Some in Hsel as (? & ? & _). by exists q.
  - intros Hi.
    pose proof (get_next_quiescent_after w Hq) as Hq'.
    pose proof (get_next_primary_key w Hq Hpk) as Hpk'.
    destruct (IH _ _ Hq' Hpk' Hi) as [->|(q & Hin & Hp & ->)];
      [by left|right].
    exists q. split_and!; [|done..].
    by eapply get_next_pending_after.
Qed.

End Claim.

Lemma primary_key_inj (qs : list query) q q' :
  NoDup (q_id <$> qs) → q ∈ qs → q' ∈ qs → q_id q = q_id q' → q = q'.
Proof.
  induction qs as [|r qs IH]; intros Hnd Hq Hq' Heq.
  - by apply elem_of_nil in Hq.
  - rewrite fmap_cons in Hnd. apply NoDup_cons in Hnd as [Hr Hnd].
    apply elem_of_cons in Hq as [->|Hq];
      apply elem_of_cons in Hq' as [->|Hq']; [done| | |by apply IH].
    + destruct Hr. rewrite Heq. by apply list_elem_of_fmap_2.
    + destruct Hr. rewrite <-Heq. by apply list_elem_of_fmap_2.
Qed.

Lemma status_of_claimed d id now q :
  q ∈ queries d → q_id q = id →
  status_of (with_queries d (claim_row id now <$> queries d)) id
  = Some processing.
Proof.
  unfold status_of. simpl. intros Hin Hid.
  induction (queries d) as [|r qs IH]; [by apply elem_of_nil in Hin|].
  rewrite fmap_cons. simpl. rewrite claim_row_id.
  case_bool_decide as Hr.
  - simpl. unfold claim_row. by rewrite bool_decide_eq_true_2.
  - apply IH. apply elem_of_cons in Hin as [->|Hin]; [done|done].
Qed.

(** C5: the claim handler answers [null] exactly when the store holds no
    pending query; otherwise it answers with the id and the search term of
    one pending query, which it has moved to [processing], together with
    [max_pages = 5]. *)
Theorem claim_null_iff_no_pending E sched w :
  quiescent w → primary_key (committed w) →
  let answer := fst (get_next E sched w) in
  let after := committed (snd (get_next E sched w)) in
  (answer = Done Json_null
   ↔ ∀ q, q ∈ queries (committed w) → q_status q ≠ pending)
  ∧ (answer ≠ Done Json_null →
     ∃ q, q ∈ queries (committed w) ∧ q_status q = pending
          ∧ answer = Done (Json_next (q_id q) (q_search_term q) 5)
          ∧ status_of after (q_id q) = Some processing).
Proof.
  intros Hq Hpk.
  destruct (get_next_step E sched w Hq Hpk) as [[Hsel ->]|(q & Hsel & ->)];
    simpl.
  - split; [|done]. split; [|done]. intros _. by apply select_next_None.
  - pose proof Hsel as (Hin & Hp & _)%select_next_Some. split.
    + split; [done|]. intros Hno. by destruct (Hno q Hin).
    + intros _. exists q. split_and!; [done..|].
      by eapply status_of_claimed.
Qed.

(** The order of claims. When a pending query exists the claim handler
    hands out a pending query that no other pending query sorts before:
    [ORDER BY priority DESC, created_at] puts a higher priority first, a
    NULL priority before every integer, and at equal priority the earlier
    creation time first. Polls in a row hand out queries in that order,
    and never the same query twice. *)
Theorem claim_order E sched w :
  quiescent w → primary_key (committed w) →
  ((∃ q, q ∈ queries (committed w) ∧ q_status q = pending) →
   ∃ q, q ∈ queries (committed w) ∧ q_status q = pending
        ∧ fst (get_next E sched w)
          = Done (Json_next (q_id q) (q_search_term q) 5)
        ∧ ∀ q', q' ∈ queries (committed w) → q_status q' = pending →
            priority_le (q_priority q') (q_priority q)
            ∧ (q_priority q' = q_priority q →
               q_created_at q ≤ q_created_at q'))
  ∧ (∀ n i j qi qj ti tj mi mj,
       (i < j)%nat →
       qi ∈ queries (committed w) → qj ∈ queries (committed w) →
       polls E sched n w !! i = Some (Done (Json_next (q_id qi) ti mi)) →
       polls E sched n w !! j = Some (Done (Json_next (q_id qj) tj mj)) →
       priority_le (q_priority qj) (q_priority qi)
       ∧ (q_priority qj = q_priority qi → q_created_at qi ≤ q_created_at qj)
       ∧ q_id qi ≠ q_id qj).
Proof.
  intros Hq Hpk. split.
  - intros (q0 & Hin0 & Hp0).
    destruct (get_next_step E sched w Hq Hpk) as [[Hsel _]|(q & Hsel & ->)].
    { rewrite select_next_None in Hsel. by destruct (Hsel q0 Hin0). }
    pose proof Hsel as (Hin & Hp & Hmin)%select_next_Some.
    exists q. split_and!; [done..|]. intros q' Hin' Hp'.
    by apply sorts_before_spec, Hmin.
  - intros n. revert w Hq Hpk.
    induction n as [|n IH]; intros w Hq Hpk i j qi qj ti tj mi mj Hij Hi Hj;
      [done|].
    destruct j as [|j]; [lia|]. simpl.
    pose proof (get_next_quiescent_after E sched w Hq) as Hq'.
    pose proof (get_next_primary_key E sched w Hq Hpk) as Hpk'.
    intros Hai Haj.
    (* the later answer names a row that is still pending after the first poll *)
    assert (qj ∈ queries (committed (snd (get_next E sched w)))
            ∧ q_status qj = pending) as [Hj' Hpj].
    { destruct (polls_answers E sched _ _ _ _ Hq' Hpk' Haj)
        as [[=]|(q & Hin & Hp & [= Hid _ _])].
      destruct (get_next_pending_after E sched w q Hq Hpk Hin Hp) as [Hin0 _].
      by rewrite (primary_key_inj _ qj q Hpk Hj Hin0 Hid). }
    destruct i as [|i]; simpl in Hai.
    + destruct (get_next_pending_after E sched w qj Hq Hpk Hj' Hpj)
        as [_ Hne].
      destruct (get_next_step E sched w Hq Hpk) as [[_ Heq]|(q & Hsel & Heq)];
        rewrite Heq in Hai, Hne; simpl in Hai, Hne; [done|].
      injection Hai as Hid _ _.
      pose proof Hsel as (Hin & Hp & Hmin)%select_next_Some.
      assert (qi = q) as ->
        by (apply (primary_key_inj _ qi q Hpk Hi Hin); by rewrite Hid).
      pose proof (Hmin qj Hj Hpj) as (? & ?)%sorts_before_spec.
      split_and!; [done..|]. intros Heq'. apply (Hne (q_search_term q) 5).
      by rewrite Heq'.
    + assert (qi ∈ queries (committed (snd (get_next E sched w)))) as Hi'.
      { destruct (polls_answers E sched _ _ _ _ Hq' Hpk' Hai)
          as [[=]|(q & Hin & Hp & [= Hid _ _])].
        destruct (get_next_pending_after E sched w q Hq Hpk Hin Hp)
          as [Hin0 _].
        by rewrite (primary_key_inj _ qi q Hpk Hi Hin0 Hid). }
      eapply (IH _ Hq' Hpk' i j); [lia|done..].
Qed.

(** C7: a successful claim leaves the other tables and every other row of
    [queries] as they were; in the one row it hands out, the id, the
    project reference, the search term, the priority and the creation time
    are kept, the status becomes [processing] and [processed_at] the
    current time. *)
Theorem claim_frame E sched w id term pages :
  quiescent w → primary_key (committed w) →
  fst (get_next E sched w) = Done (Json_next id term pages) →
  let d := committed w in
  let w' := snd (get_next E sched w) in
  let d' := committed w' in
  let now := clock (sched (length (trace w))) in
  projects d' = projects d ∧ results d' = results d
  ∧ suggestions d' = suggestions d
  ∧ related_searches d' = related_searches d
  ∧ sessions w' = sessions w
  ∧ length (queries d') = length (queries d)
  ∧ (∃ i q, queries d !! i = Some q ∧ q_id q = id ∧ q_status q = pending
            ∧ ∀ j q', queries d !! j = Some q' → q_id q' = id → j = i)
  ∧ ∀ i q, queries d !! i = Some q →
      queries d' !! i =
        Some (if decide (q_id q = id) then
                {| q_id := q_id q; q_project_id := q_project_id q;
                   q_search_term := q_search_term q; q_status := processing;
                   q_priority := q_priority q; q_created_at := q_created_at q;
                   q_processed_at := Some now |}
              else q).
Proof.
  intros Hq Hpk.
  destruct (get_next_step E sched w Hq Hpk) as [[_ ->]|(q & Hsel & ->)];
    simpl; [done|].
  intros [= <- _ _]. split_and!; [done..|by rewrite length_fmap| |].
  - apply select_next_Some in Hsel as (Hin & Hp & _).
    apply list_elem_of_lookup in Hin as [i Hi].
    exists i, q. split_and!; [done..|]. intros j q' Hj Hid.
    apply (NoDup_lookup _ j i (q_id q) Hpk);
      rewrite list_lookup_fmap; [by rewrite Hj; simpl; f_equal
                                |by rewrite Hi].
  - intros i q' Hi. rewrite list_lookup_fmap, Hi. simpl. f_equal.
    unfold claim_row. case_bool_decide; by case_decide.
Qed.

(** Polls served one after the other on a store with one pending query:
    the first one is handed the query, every later one finds no work. *)
Lemma polls_no_pending E sched n w :
  quiescent w →
  (∀ q, q ∈ queries (committed w) → q_status q ≠ pending) →
  polls E sched n w = replicate n (Done Json_null).
Proof.
  revert w. induction n as [|n IH]; intros w Hq Hno; [done|].
  simpl. rewrite get_next_quiescent by done. simpl.
  apply select_next_None in Hno as Hsel. rewrite Hsel. simpl. f_equal.
  by apply IH.
Qed.

(** X13: polls served one after the other over a store with exactly one
    pending query hand that query out once, at the first poll, and answer
    [null] from then on. *)
Lemma polls_one_pending E sched n w q :
  quiescent w → primary_key (committed w) →
  q ∈ queries (committed w) → q_status q = pending →
  (∀ q', q' ∈ queries (committed w) → q_status q' = pending → q' = q) →
  polls E sched (S n) w
  = Done (Json_next (q_id q) (q_search_term q) 5)
    :: replicate n (Done Json_null).
Proof.
  intros Hq Hpk Hin Hp Honly. simpl.
  pose proof (get_next_quiescent_after E sched w Hq) as Hq'.
  pose proof (get_next_pending_after E sched w) as Hafter.
  destruct (get_next_step E sched w Hq Hpk) as [[Hsel _]|(q0 & Hsel & Heq)].
  { rewrite select_next_None in Hsel. by destruct (Hsel q Hin). }
  pose proof Hsel as (Hin0 & Hp0 & _)%select_next_Some.
  rewrite (Honly q0 Hin0 Hp0) in Heq.
  rewrite Heq in Hq', Hafter |- *. simpl in *. f_equal.
  apply polls_no_pending; [done|].
  intros q' Hin' Hp'. destruct (Hafter q' Hq Hpk Hin' Hp') as [Hin'' Hne].
  rewrite (Honly q' Hin'' Hp') in Hne. by apply (Hne (q_search_term q) 5).
Qed.

(** ** Validation and authorisation *)

(** C9: when the [x-api-key] header is absent or differs from the
    configured key, both worker routes answer 401 and leave the world as it
    was: no statement is added to the trace. *)
Theorem unauthorized_runs_no_statement E sched API_KEY x_api_key body w :
  x_api_key = None ∨ x_api_key ≠ API_KEY →
  route_next E sched API_KEY x_api_key w
  = (Done (Status401 "Invalid API key"), w)
  ∧ route_results E sched API_KEY x_api_key body w
    = (Done (Status401 "Invalid API key"), w).
Proof.
  intros Hkey. unfold route_next, route_results, validateApiKey.
  destruct x_api_key as [apiKey|]; [|done].
  destruct Hkey as [[=]|Hne].
  rewrite (bool_decide_eq_false_2 (Some apiKey = API_KEY)) by done.
  by rewrite orb_true_r.
Qed.

(** C6: a submission without [query_id] or without [pages] is answered 400
    by the handler and leaves the world as it was: no statement is added to
    the trace. Behind the key check the route answers 400 or, for a bad key,
    401, and leaves the world as it was too. *)
Theorem missing_fields_rejected E sched API_KEY x_api_key body w :
  JS.field body "query_id" = JS.VUndef ∨ JS.field body "pages" = JS.VUndef →
  post_results E sched body w
  = (Done (Status400 "Missing required fields: query_id, pages"), w)
  ∧ (route_results E sched API_KEY x_api_key body w
     = (Done (Status400 "Missing required fields: query_id, pages"), w)
     ∨ route_results E sched API_KEY x_api_key body w
       = (Done (Status401 "Invalid API key"), w)).
Proof.
  intros Hmiss.
  assert (post_results E sched body w
          = (Done (Status400 "Missing required fields: query_id, pages"), w))
    as Hpost.
  { unfold post_results. destruct Hmiss as [-> | ->]; [done|].
    by rewrite orb_true_r. }
  split; [done|]. unfold route_results, validateApiKey.
  destruct x_api_key as [apiKey|]; [|by right].
  destruct (negb _ || negb _); [by right|by left].
Qed.

(** ** The enqueue handler *)

Lemma issued_since_app w w' tr :
  trace w' = trace w ++ tr → issued_since w w' = snd <$> tr.
Proof. unfold issued_since. intros ->. by rewrite drop_app_length. Qed.

Lemma exec_insert_query E now fresh d project_id t priority ws rows :
  t ≠ [] →
  exec E now fresh d (INSERT_query project_id (JS.VStr t) priority)
  = Rows ws rows →
  ∃ r, ws = [W_query r] ∧ rows = []
       ∧ text_in E (JS.VStr t) = Some (q_search_term r)
       ∧ q_status r = pending
       ∧ q_id r ∉ q_id <$> queries d.
Proof.
  intros Ht. unfold exec. unfold column at 2. simpl.
  destruct (column (uuid_in E) project_id) as [pid|]; [|done].
  destruct (text_in E (JS.VStr t)) as [t'|]; simpl; [|done].
  destruct (column (int4_in E) priority) as [prio|]; [|done].
  destruct (negb _); [done|]. case_bool_decide; [done|].
  intros [= <- <-]. by eexists.
Qed.

Global Arguments exec : simpl never.
Global Arguments run_statement : simpl never.

Section Enqueue.
Variable E : engine.
Variable sched : nat → choice.

(** A blank entry is passed over. *)
Lemma insert_queries_blank project_id priority s l inserted w :
  blank s = true →
  insert_queries E sched project_id priority (JS.VStr s :: l) inserted w
  = insert_queries E sched project_id priority l inserted w.
Proof.
  unfold blank. simpl. destruct s as [|c s]; [done|].
  unfold bind, call_trim, ret. simpl. by destruct (JS.trim (c :: s)).
Qed.

(** Any other string is trimmed and inserted. *)
Lemma insert_queries_kept project_id priority s l inserted w :
  blank s = false → quiescent w →
  insert_queries E sched project_id priority (JS.VStr s :: l) inserted w
  = let ch := sched (length (trace w)) in
    let st := INSERT_query project_id (JS.VStr (JS.trim s)) priority in
    let w0 := issued w (on_session ch) st in
    match exec E (clock ch) (random_uuid ch) (committed w) st with
    | Error e => (Thrown (DbError e), w0)
    | Rows ws _ =>
        insert_queries E sched project_id priority l (S inserted)
          (with_committed w0 (apply_writes (committed w) ws))
    end.
Proof.
  unfold blank. intros Hb Hq. simpl. destruct s as [|c s]; [done|].
  unfold bind, call_trim, ret. simpl.
  destruct (JS.trim (c :: s)) as [|c' t]; [done|]. simpl.
  unfold pool_query. rewrite run_statement_quiescent by done.
  simpl. by destruct (exec _ _ _ _ _).
Qed.

(** An entry that is not a string is passed over when it is falsy; the
    call of [trim] on it throws otherwise. *)
Lemma insert_queries_other project_id priority v l inserted w :
  (∀ s, v ≠ JS.VStr s) →
  insert_queries E sched project_id priority (v :: l) inserted w
  = if JS.truthy v then (Thrown TypeError, w)
    else insert_queries E sched project_id priority l inserted w.
Proof.
  intros Hv. simpl. destruct (JS.truthy v); [|done].
  destruct v; try done. by destruct (Hv s).
Qed.


Lemma post_queries_array project_id body l w :
  JS.field body "queries" = JS.VArr l → l ≠ [] →
  post_queries E sched project_id body w
  = match insert_queries E sched (JS.VStr project_id)
            match JS.field body "priority" with
            | JS.VUndef => JS.VNum 0
            | v => v
            end l 0 w with
    | (Done n, w') => (Done (Json_inserted n), w')
    | (Thrown e, w') => (Done (Status500 "Failed to add queries" e), w')
    | (Waiting, w') => (Waiting, w')
    end.
Proof.
  intros Hfield Hne. unfold post_queries. rewrite Hfield.
  destruct l as [|v l]; [done|].
  cbn [JS.truthy JS.isArray JS.length_is_0 negb orb JS.iterate].
  unfold try_catch, bind, handleError, ret.
  by destruct (insert_queries _ _ _ _ _ _ _) as [[n|e|] w'].
Qed.


End Enqueue.

(** ** Transaction blocks on one session *)

Lemma set_status_id id st q : q_id (set_status id st q) = q_id q.
Proof. unfold set_status. by case_bool_decide. Qed.

Lemma ids_apply_write d x :
  submission_write x = true → ids (apply_write d x) = ids d.
Proof.
  destruct x as [| id st | | | |]; try done. intros _. unfold ids. simpl.
  rewrite <-list_fmap_compose. apply list_fmap_ext. intros i q _.
  apply set_status_id.
Qed.

Lemma ids_apply_writes d log :
  Forall (λ x, submission_write x = true) log →
  ids (apply_writes d log) = ids d.
Proof.
  unfold apply_writes. revert d.
  induction log as [|x log IH]; intros d Hlog; [done|].
  apply Forall_cons in Hlog as [Hx Hlog]. simpl.
  by rewrite IH, ids_apply_write.
Qed.

(** A statement of the submission sees the store only through the ids of
    its queries, and writes child rows or the [completed] status. *)
Lemma exec_submission_ids E n1 n2 f1 f2 d1 d2 s :
  submission_statement s = true → ids d1 = ids d2 →
  exec E n1 f1 d1 s = exec E n2 f2 d2 s.
Proof.
  unfold ids. intros Hs Hids.
  destruct s as [| | | | | a b | a b |st a|]; try done; unfold exec.
  - destruct (result_row _ _ _ _ _ _ _ _ _) as [r|]; [|done].
    unfold references_query. by rewrite Hids.
  - destruct (column (uuid_in E) a) as [qid|], (column (text_in E) b) as [sg|];
      try done.
    unfold references_query. by rewrite Hids.
  - destruct (column (uuid_in E) a) as [qid|], (column (text_in E) b) as [sg|];
      try done.
    unfold references_query. by rewrite Hids.
  - destruct (column (uuid_in E) a) as [[id|]|]; try done. by rewrite Hids.
Qed.

Lemma exec_submission_writes E n f d s ws rows :
  submission_statement s = true → exec E n f d s = Rows ws rows →
  Forall (λ x, submission_write x = true) ws.
Proof.
  intros Hs. destruct s as [| | | | | a b | a b |st a|]; try done; unfold exec.
  - destruct (result_row _ _ _ _ _ _ _ _ _) as [r|]; [|done].
    destruct (references_query _ _); [|done]. intros [= <- _].
    by repeat constructor.
  - destruct (column (uuid_in E) a) as [qid|], (column (text_in E) b) as [sg|];
      try done.
    destruct (references_query _ _); [|done]. intros [= <- _].
    by repeat constructor.
  - destruct (column (uuid_in E) a) as [qid|], (column (text_in E) b) as [sg|];
      try done.
    destruct (references_query _ _); [|done]. intros [= <- _].
    by repeat constructor.
  - destruct st; try done.
    destruct (column (uuid_in E) a) as [[id|]|]; try done;
      [case_bool_decide|]; intros [= <- _]; by repeat constructor.
Qed.

Section Block.
Variable E : engine.
Variable sched : nat → choice.
Variable c : nat.
Hypothesis same_session : ∀ n, on_session (sched n) = c.

Lemma run_statement_in_block ch s w start log :
  on_session ch = c → sessions w = {[c := InTx start log]} →
  run_statement E ch s w =
    match exec E start (random_uuid ch) (apply_writes (committed w) log) s with
    | Error e => (Thrown (DbError e), with_session w c Idle)
    | Rows ws rows => (Done rows, with_session w c (InTx start (log ++ ws)))
    end.
Proof.
  intros Hc Hs. unfold run_statement, session_of.
  rewrite Hc, Hs, lookup_singleton_eq. simpl.
  destruct (exec _ _ _ _ _) as [ws rows|e]; [|done].
  by rewrite locked_elsewhere_singleton.
Qed.

Lemma lockstep_ret {A} (a : A) : lockstep c (ret a).
Proof.
  intros w1 w2 log H1 H2 Hlog Hids. simpl. split_and!; [done..|].
  by exists log.
Qed.

Lemma lockstep_throw {A} e : lockstep c (@throw A e).
Proof.
  intros w1 w2 log [s1 H1] [s2 H2] Hlog Hids. simpl.
  split_and!; [done..| |]; right; by eexists.
Qed.

Lemma lockstep_bind {A B} (m : M A) (k : A → M B) :
  lockstep c m → (∀ a, lockstep c (k a)) → lockstep c (bind m k).
Proof.
  intros Hm Hk w1 w2 log H1 H2 Hlog Hids. unfold bind.
  destruct (Hm w1 w2 log H1 H2 Hlog Hids) as (Ho & Hc1 & Hc2 & Hpost).
  destruct (m w1) as [o1 w1'], (m w2) as [o2 w2']. simpl in *. subst o2.
  destruct o1 as [a|e|]; [|done..].
  destruct Hpost as (log' & H1' & H2' & Hlog').
  assert (ids (committed w1') = ids (committed w2')) as Hids'
    by by rewrite Hc1, Hc2.
  destruct (Hk a w1' w2' log' H1' H2' Hlog' Hids') as (? & Hd1 & Hd2 & ?).
  split_and!; [done|by rewrite Hd1|by rewrite Hd2|done].
Qed.

Lemma lockstep_for_each {A} (body : A → M unit) l :
  (∀ x, lockstep c (body x)) → lockstep c (for_each body l).
Proof.
  intros Hbody. induction l as [|x l IH]; simpl.
  - apply lockstep_ret.
  - apply lockstep_bind; [apply Hbody|]. by intros _.
Qed.

Lemma lockstep_for_of v body :
  (∀ x, lockstep c (body x)) → lockstep c (for_of v body).
Proof.
  intros Hbody. unfold for_of. destruct (JS.iterate v).
  - by apply lockstep_for_each.
  - apply lockstep_throw.
Qed.

Lemma lockstep_get o k : lockstep c (get o k).
Proof.
  unfold get. destruct (JS.prop o k); [apply lockstep_ret|apply lockstep_throw].
Qed.

Lemma lockstep_query s :
  submission_statement s = true → lockstep c (pool_query E sched s).
Proof.
  intros Hs w1 w2 log [s1 H1] [s2 H2] Hlog Hids.
  assert (∀ w, pool_query E sched s w
               = run_statement E (sched (length (trace w))) s
                   (issued w (on_session (sched (length (trace w)))) s))
    as Hpq by (intros w; unfold pool_query; by destruct s).
  rewrite !Hpq.
  rewrite (run_statement_in_block _ _ _ s1 log), (run_statement_in_block _ _ _ s2 log)
    by done.
  simpl.
  rewrite (exec_submission_ids E s1 s2 (random_uuid (sched (length (trace w1))))
             (random_uuid (sched (length (trace w2))))
             (apply_writes (committed w1) log)
             (apply_writes (committed w2) log) s Hs)
    by by rewrite !ids_apply_writes.
  destruct (exec E s2 _ _ s) as [ws rows|e] eqn:Hex; simpl.
  - split_and!; [done..|]. exists (log ++ ws). split_and!.
    + exists s1. simpl. rewrite H1. apply insert_singleton_eq.
    + exists s2. simpl. rewrite H2. apply insert_singleton_eq.
    + apply Forall_app. split; [done|].
      by eapply exec_submission_writes.
  - split_and!; [done..| |]; left; simpl; rewrite ?H1, ?H2;
      apply delete_singleton_eq.
Qed.

Lemma lockstep_insert_results query_id pages :
  lockstep c (insert_results E sched query_id pages).
Proof.
  unfold insert_results. apply lockstep_for_of. intros page.
  apply lockstep_bind; [apply lockstep_get|]. intros page_results.
  destruct (JS.truthy page_results && JS.isArray page_results);
    [|apply lockstep_ret].
  apply lockstep_for_of. intros result.
  repeat (apply lockstep_bind; [apply lockstep_get|intros ?]).
  apply lockstep_bind; [by apply lockstep_query|]. intros _.
  apply lockstep_ret.
Qed.

Lemma lockstep_insert_suggestions query_id suggestions :
  lockstep c (insert_suggestions E sched query_id suggestions).
Proof.
  unfold insert_suggestions.
  destruct (JS.truthy suggestions && JS.isArray suggestions);
    [|apply lockstep_ret].
  apply lockstep_for_of. intros suggestion.
  apply lockstep_bind; [by apply lockstep_query|]. intros _.
  apply lockstep_ret.
Qed.

Lemma lockstep_insert_related query_id related :
  lockstep c (insert_related E sched query_id related).
Proof.
  unfold insert_related.
  destruct (JS.truthy related && JS.isArray related); [|apply lockstep_ret].
  apply lockstep_for_of. intros r.
  apply lockstep_bind; [by apply lockstep_query|]. intros _.
  apply lockstep_ret.
Qed.

Lemma lockstep_submission_block body :
  lockstep c (submission_block E sched body).
Proof.
  unfold submission_block.
  apply lockstep_bind; [apply lockstep_insert_results|]. intros _.
  apply lockstep_bind; [apply lockstep_insert_suggestions|]. intros _.
  apply lockstep_bind; [apply lockstep_insert_related|]. intros _.
  by apply lockstep_query.
Qed.

(** The handler, with the statements between [BEGIN] and [COMMIT] taken
    together. *)
Lemma post_results_block body w :
  JS.truthy (JS.field body "query_id") = true →
  JS.truthy (JS.field body "pages") = true →
  post_results E sched body w
  = try_catch
      (bind (pool_query E sched BEGIN) (λ _,
       bind (submission_block E sched body) (λ _,
       bind (pool_query E sched COMMIT) (λ _, ret Json_success))))
      (λ error,
         bind (pool_query E sched ROLLBACK) (λ _,
         handleError error "Failed to save results")) w.
Proof.
  intros Hid Hpages. unfold post_results, submission_block.
  rewrite Hid, Hpages. cbn [negb orb].
  unfold try_catch. f_equal. unfold bind.
  destruct (pool_query E sched BEGIN w) as [[?|?|] w0]; [|done..].
  destruct (insert_results _ _ _ _ w0) as [[?|?|] w1]; [|done..].
  destruct (insert_suggestions _ _ _ _ w1) as [[?|?|] w2]; [|done..].
  by destruct (insert_related _ _ _ _ w2) as [[?|?|] w3].
Qed.

Lemma begin_quiescent w :
  quiescent w →
  ∃ w0, pool_query E sched BEGIN w = (Done [], w0)
        ∧ committed w0 = committed w ∧ in_block c [] w0.
Proof.
  intros Hq. unfold pool_query. rewrite session_of_quiescent by done.
  eexists. split_and!; [done..|]. eexists. simpl.
  unfold quiescent in Hq. rewrite Hq, same_session. apply insert_empty.
Qed.

Lemma commit_in_block w log :
  in_block c log w →
  ∃ w', pool_query E sched COMMIT w = (Done [], w')
        ∧ committed w' = apply_writes (committed w) log ∧ quiescent w'.
Proof.
  intros [start Hs]. unfold pool_query, session_of. simpl.
  rewrite same_session, Hs, lookup_singleton_eq. simpl.
  eexists. split_and!; [done..|]. unfold quiescent. simpl.
  rewrite Hs. apply delete_singleton_eq.
Qed.

Lemma rollback_in_session w :
  in_session c w →
  ∃ w', pool_query E sched ROLLBACK w = (Done [], w')
        ∧ committed w' = committed w ∧ quiescent w'.
Proof.
  intros Hs. unfold pool_query. eexists. split_and!; [done..|].
  unfold quiescent. simpl. rewrite same_session.
  destruct Hs as [-> | [st ->]];
    [apply delete_empty|apply delete_singleton_eq].
Qed.

(** Two submissions of one body, each served by session [c] alone, over
    stores with the same query ids: both succeed and commit the same
    writes, or both fail and commit nothing. *)
Lemma post_results_pair body w1 w2 :
  quiescent w1 → quiescent w2 → ids (committed w1) = ids (committed w2) →
  let ow1 := post_results E sched body w1 in
  let ow2 := post_results E sched body w2 in
  fst ow1 = fst ow2 ∧ quiescent (snd ow1) ∧ quiescent (snd ow2)
  ∧ ((fst ow1 = Done Json_success
      ∧ ∃ log, Forall (λ x, submission_write x = true) log
               ∧ committed (snd ow1) = apply_writes (committed w1) log
               ∧ committed (snd ow2) = apply_writes (committed w2) log)
     ∨ ((∃ e, fst ow1 = Done (Status500 "Failed to save results" e))
        ∧ committed (snd ow1) = committed w1
        ∧ committed (snd ow2) = committed w2)
     ∨ (fst ow1 = Done (Status400 "Missing required fields: query_id, pages")
        ∧ snd ow1 = w1 ∧ snd ow2 = w2)).
Proof.
  intros Hq1 Hq2 Hids ow1 ow2. subst ow1 ow2.
  destruct (JS.truthy (JS.field body "query_id")) eqn:Hid; cycle 1.
  { unfold post_results. rewrite Hid. simpl. split_and!; [done..|].
    by right; right. }
  destruct (JS.truthy (JS.field body "pages")) eqn:Hpages; cycle 1.
  { unfold post_results. rewrite Hid, Hpages. simpl. split_and!; [done..|].
    by right; right. }
  rewrite !post_results_block by done. unfold try_catch, bind.
  destruct (begin_quiescent w1 Hq1) as (w1' & -> & Hc1 & Hb1).
  destruct (begin_quiescent w2 Hq2) as (w2' & -> & Hc2 & Hb2).
  assert (ids (committed w1') = ids (committed w2')) as Hids'
    by by rewrite Hc1, Hc2.
  destruct (lockstep_submission_block body w1' w2' [] Hb1 Hb2
              (Forall_nil_2 _) Hids') as (Ho & Hd1 & Hd2 & Hpost).
  destruct (submission_block E sched body w1') as [o1 v1],
    (submission_block E sched body w2') as [o2 v2].
  simpl in Ho, Hd1, Hd2, Hpost. subst o2.
  destruct o1 as [rows|e|]; [| |done].
  - destruct Hpost as (log & Hl1 & Hl2 & Hlog).
    destruct (commit_in_block v1 log Hl1) as (u1 & -> & Hu1 & Hqu1).
    destruct (commit_in_block v2 log Hl2) as (u2 & -> & Hu2 & Hqu2).
    simpl. split_and!; [done..|]. left. split; [done|]. exists log.
    by rewrite Hu1, Hu2, Hd1, Hd2, Hc1, Hc2.
  - destruct Hpost as [Hs1 Hs2].
    destruct (rollback_in_session v1 Hs1) as (u1 & -> & Hu1 & Hqu1).
    destruct (rollback_in_session v2 Hs2) as (u2 & -> & Hu2 & Hqu2).
    simpl. split_and!; [done..|]. right; left. split; [by eexists|].
    by rewrite Hu1, Hu2, Hd1, Hd2, Hc1, Hc2.
Qed.

End Block.

(** ** The submission handler *)

Lemma children_apply_writes d log :
  results (apply_writes d log) = results d ++ written_results log
  ∧ suggestions (apply_writes d log) = suggestions d ++ written_suggestions log
  ∧ related_searches (apply_writes d log)
    = related_searches d ++ written_related log.
Proof.
  unfold apply_writes, written_results, written_suggestions, written_related.
  revert d. induction log as [|x log IH]; intros d.
  - simpl. by rewrite !app_nil_r.
  - simpl. destruct (IH (apply_write d x)) as (-> & -> & ->).
    destruct x; simpl; by rewrite <-?app_assoc.
Qed.

(** X14: when one session serves every call of a submission that starts
    with no block open, the submission is all or nothing: a failed one
    commits nothing and leaves no block open. *)
Lemma post_results_all_or_nothing E sched c body w message e :
  (∀ n, on_session (sched n) = c) → quiescent w →
  fst (post_results E sched body w) = Done (Status500 message e) →
  committed (snd (post_results E sched body w)) = committed w
  ∧ quiescent (snd (post_results E sched body w)).
Proof.
  intros Hsame Hq Hfail.
  destruct (post_results_pair E sched c Hsame body w w Hq Hq eq_refl)
    as (_ & Hq' & _ & [[Hok _]|[(_ & Hc & _)|[Hbad _]]]);
    [congruence|done|congruence].
Qed.

(** A submission removes no child row: it appends some rows, or none. *)
Lemma post_results_keeps_children E sched c body w :
  (∀ n, on_session (sched n) = c) → quiescent w →
  ∃ rs ss ts,
    results (committed (snd (post_results E sched body w)))
    = results (committed w) ++ rs
    ∧ suggestions (committed (snd (post_results E sched body w)))
      = suggestions (committed w) ++ ss
    ∧ related_searches (committed (snd (post_results E sched body w)))
      = related_searches (committed w) ++ ts.
Proof.
  intros Hsame Hq.
  destruct (post_results_pair E sched c Hsame body w w Hq Hq eq_refl)
    as (_ & _ & _ & [(_ & log & _ & -> & _)|[(_ & -> & _)|(_ & -> & _)]]).
  - exists (written_results log), (written_suggestions log),
      (written_related log).
    apply children_apply_writes.
  - exists [], [], []. by rewrite !app_nil_r.
  - exists [], [], []. by rewrite !app_nil_r.
Qed.

(** ** The status of a query along a run *)

Lemma find_fmap_id (f : query → query) id (qs : list query) :
  (∀ q, q_id (f q) = q_id q) →
  List.find (λ q, bool_decide (q_id q = id)) (f <$> qs)
  = f <$> List.find (λ q, bool_decide (q_id q = id)) qs.
Proof.
  intros Hf. induction qs as [|q qs IH]; [done|].
  rewrite fmap_cons. simpl. rewrite Hf. by case_bool_decide.
Qed.

Lemma find_app_Some (qs rows : list query) id q :
  List.find (λ q, bool_decide (q_id q = id)) qs = Some q →
  List.find (λ q, bool_decide (q_id q = id)) (qs ++ rows) = Some q.
Proof.
  induction qs as [|r qs IH]; [done|]. simpl. by case_bool_decide.
Qed.

Lemma status_of_elem d q :
  primary_key d → q ∈ queries d → status_of d (q_id q) = Some (q_status q).
Proof.
  unfold primary_key, status_of. intros Hpk Hin.
  destruct (List.find _ _) as [r|] eqn:Hfind.
  - apply find_some in Hfind as [Hr Hid].
    apply bool_decide_eq_true in Hid. apply list_elem_of_In in Hr.
    by rewrite (primary_key_inj _ r q Hpk Hr Hin Hid).
  - apply list_elem_of_In in Hin.
    apply (find_none _ _ Hfind) in Hin.
    by rewrite bool_decide_eq_true_2 in Hin.
Qed.

Lemma status_of_claim d x now id st :
  status_of d id = Some st →
  status_of (with_queries d (claim_row x now <$> queries d)) id
  = Some (if decide (id = x) then processing else st).
Proof.
  unfold status_of. simpl.
  rewrite find_fmap_id by (intros; apply claim_row_id).
  destruct (List.find _ _) as [r|] eqn:Hfind; [|done]. simpl.
  intros [= <-]. f_equal.
  apply find_some in Hfind as [_ Hid%bool_decide_eq_true].
  unfold claim_row. rewrite Hid. case_decide; by case_bool_decide.
Qed.

Lemma status_of_apply_write d x id st :
  submission_write x = true → status_of d id = Some st →
  ∃ st', status_of (apply_write d x) id = Some st'
         ∧ (st' = st ∨ st' = completed).
Proof.
  destruct x as [|y st0| | | |]; try done;
    try (intros _ Hst; exists st; by split; [|left]).
  destruct st0; try done. intros _. unfold status_of. simpl.
  rewrite find_fmap_id by (intros; apply set_status_id).
  destruct (List.find _ _) as [r|]; [|done]. simpl. intros [= <-].
  eexists. split; [done|]. unfold set_status.
  case_bool_decide; [by right|by left].
Qed.

Lemma status_of_apply_writes d log id st :
  Forall (λ x, submission_write x = true) log → status_of d id = Some st →
  ∃ st', status_of (apply_writes d log) id = Some st'
         ∧ (st' = st ∨ st' = completed).
Proof.
  unfold apply_writes. revert d st.
  induction log as [|x log IH]; intros d st Hlog Hst.
  - exists st. by split; [|left].
  - apply Forall_cons in Hlog as [Hx Hlog]. simpl.
    destruct (status_of_apply_write d x id st Hx Hst) as (st1 & Hst1 & H1).
    destruct (IH _ _ Hlog Hst1) as (st2 & Hst2 & H2).
    exists st2. split; [done|].
    destruct H1 as [H1|H1]; destruct H2 as [H2|H2]; subst; auto.
Qed.

Lemma status_of_append d d' rows id st :
  queries d' = queries d ++ rows → status_of d id = Some st →
  status_of d' id = Some st.
Proof.
  unfold status_of. intros ->.
  destruct (List.find _ (queries d)) as [q|] eqn:Hfind; [|done].
  by rewrite (find_app_Some _ _ _ _ Hfind).
Qed.

Section Lifecycle.
Variable E : engine.
Variable sched : nat → choice.
Variable API_KEY : option JS.jsstring.
Variable c : nat.
Hypothesis same_session : ∀ n, on_session (sched n) = c.

(** The loop of the enqueue handler, for entries of any kind: it appends
    rows under fresh ids and leaves no block open. *)
Lemma insert_queries_appends project_id priority l inserted w :
  quiescent w → primary_key (committed w) →
  let ow := insert_queries E sched project_id priority l inserted w in
  quiescent (snd ow) ∧ primary_key (committed (snd ow))
  ∧ ∃ rows, queries (committed (snd ow)) = queries (committed w) ++ rows.
Proof.
  revert inserted w.
  induction l as [|v l IH]; intros inserted w Hq Hpk ow.
  { split_and!; [done..|]. exists []. by rewrite app_nil_r. }
  subst ow.
  assert ((∃ s, v = JS.VStr s) ∨ ∀ s, v ≠ JS.VStr s) as [[s ->]|Hv]
    by (destruct v; eauto).
  - destruct (blank s) eqn:Hb.
    { rewrite insert_queries_blank by done. by apply IH. }
    rewrite insert_queries_kept by done. cbv zeta.
    destruct (exec E _ _ _ _) as [ws rows|e] eqn:Hex;
      [|split_and!; [done..|]; exists []; by rewrite app_nil_r].
    apply exec_insert_query in Hex as (r & -> & -> & _ & _ & Hfresh);
      [|unfold blank in Hb; by destruct (JS.trim s)].
    match goal with
    | |- context [insert_queries _ _ _ _ _ _ ?w1] =>
        destruct (IH (S inserted) w1) as (Hq' & Hpk' & rows & Hrows)
    end; [done| |].
    { unfold primary_key. simpl. rewrite fmap_app. apply NoDup_app.
      split_and!; [done| |apply NoDup_singleton].
      intros x Hx [->|[]%elem_of_nil]%elem_of_cons. by apply Hfresh. }
    split_and!; [done..|]. exists (r :: rows). rewrite Hrows. simpl.
    by rewrite <-app_assoc.
  - rewrite insert_queries_other by done.
    destruct (JS.truthy v); [|by apply IH].
    split_and!; [done..|]. exists []. by rewrite app_nil_r.
Qed.

Lemma post_queries_appends project_id body w :
  quiescent w → primary_key (committed w) →
  let ow := post_queries E sched project_id body w in
  quiescent (snd ow) ∧ primary_key (committed (snd ow))
  ∧ ∃ rows, queries (committed (snd ow)) = queries (committed w) ++ rows.
Proof.
  intros Hq Hpk. unfold post_queries.
  destruct (negb _ || negb _ || _); simpl.
  { split_and!; [done..|]. exists []. by rewrite app_nil_r. }
  unfold try_catch, bind, handleError, ret.
  destruct (JS.iterate _) as [l|]; simpl;
    [|split_and!; [done..|]; exists []; by rewrite app_nil_r].
  pose proof (insert_queries_appends (JS.VStr project_id)
                match JS.field body "priority" with
                | JS.VUndef => JS.VNum 0
                | v => v
                end l 0 w Hq Hpk) as Happ.
  simpl in Happ. by destruct (insert_queries _ _ _ _ _ _ _) as [[n|e|] w'].
Qed.

(** One request, served with no block open: what may happen to the status
    of a query, and what is kept. *)
Lemma serve_step r w :
  quiescent w → primary_key (committed w) →
  let ow := serve E sched API_KEY r w in
  quiescent (snd ow) ∧ primary_key (committed (snd ow))
  ∧ ∀ id st, status_of (committed w) id = Some st →
      ∃ st', status_of (committed (snd ow)) id = Some st'
             ∧ transition r st st'.
Proof.
  intros Hq Hpk. destruct r as [key|key body|project_id body]; simpl.
  - unfold route_next, validateApiKey.
    assert (∀ id st, status_of (committed w) id = Some st →
              ∃ st', status_of (committed w) id = Some st'
                     ∧ transition (GET_next key) st st') as Hsame
      by (intros id st Hst; exists st; by split; [|left]).
    destruct key as [apiKey|]; [|done].
    destruct (negb _ || negb _); [done|].
    destruct (get_next_step E sched w Hq Hpk) as [[_ ->]|(q & Hsel & ->)];
      simpl; [done|].
    split_and!; [done|unfold primary_key; simpl; by rewrite claim_row_ids|].
    intros id st Hst. eexists. split; [by apply status_of_claim|].
    case_decide as Hid; [right|by left]. split; [|done]. subst id.
    apply select_next_Some in Hsel as (Hin & Hp & _).
    rewrite (status_of_elem _ q Hpk Hin) in Hst. congruence.
  - unfold route_results, validateApiKey.
    assert (∀ id st, status_of (committed w) id = Some st →
              ∃ st', status_of (committed w) id = Some st'
                     ∧ transition (POST_results key body) st st') as Hsame
      by (intros id st Hst; exists st; by split; [|left]).
    destruct key as [apiKey|]; [|done].
    destruct (negb _ || negb _); [done|].
    destruct (post_results_pair E sched c same_session body w w Hq Hq eq_refl)
      as (_ & Hq' & _ & [(_ & log & Hlog & Hc & _)|[(_ & Hc & _)|(_ & Hc & _)]]).
    + split_and!; [done| |].
      * unfold primary_key. fold (ids (committed (snd (post_results E sched body w)))).
        by rewrite Hc, ids_apply_writes.
      * intros id st Hst. rewrite Hc.
        destruct (status_of_apply_writes _ log id st Hlog Hst)
          as (st' & Hst' & Hor).
        exists st'. split; [done|]. destruct Hor as [-> | ->]; [by left|by right].
    + rewrite Hc. by split_and!.
    + rewrite Hc. by split_and!.
  - destruct (post_queries_appends project_id body w Hq Hpk)
      as (Hq' & Hpk' & rows & Hrows).
    split_and!; [done..|]. intros id st Hst. exists st.
    split; [by eapply status_of_append|by left].
Qed.

End Lifecycle.

Lemma transition_rank r st st' :
  transition r st st' → (rank st ≤ rank st')%nat.
Proof.
  intros [->|Hr]; [done|].
  destruct r; [destruct Hr as [-> ->]|subst st'|done]; simpl;
    [lia|destruct st; simpl; lia].
Qed.

Lemma lifecycle_from_sublist a b :
  (rank a < rank b)%nat →
  sublist (a :: lifecycle_from b) (lifecycle_from a).
Proof.
  destruct a, b; simpl; try lia; intros _;
    repeat first [apply sublist_nil | apply sublist_skip | apply sublist_cons].
Qed.

Lemma changes_sublist a l :
  rising (a :: l) → sublist (changes (a :: l)) (lifecycle_from a).
Proof.
  revert a. induction l as [|b l IH]; intros a Hr.
  - destruct a; simpl;
      repeat first [apply sublist_nil | apply sublist_skip | apply sublist_cons].
  - inversion Hr as [| |? ? ? Hab Hr']; subst.
    change (changes (a :: b :: l))
      with (if bool_decide (a = b) then changes (b :: l)
            else a :: changes (b :: l)).
    case_bool_decide as Heq; [subst b; by apply IH|].
    assert (rank a < rank b)%nat as Hlt.
    { destruct a, b; simpl in *; try lia; done. }
    etrans; [|by apply lifecycle_from_sublist].
    apply sublist_skip. by apply IH.
Qed.

Lemma changes_lifecycle l : rising l → sublist (changes l) lifecycle.
Proof.
  destruct l as [|a l]; [intros _; apply sublist_nil_l|].
  intros Hr. etrans; [by apply changes_sublist|].
  destruct a; unfold lifecycle; simpl;
    repeat first [apply sublist_nil | apply sublist_skip | apply sublist_cons].
Qed.

Section Runs_facts.
Variable E : engine.
Variable sched : nat → choice.
Variable API_KEY : option JS.jsstring.
Variable c : nat.
Hypothesis same_session : ∀ n, on_session (sched n) = c.

Lemma worlds_cons r rs w :
  worlds E sched API_KEY (r :: rs) w
  = w :: worlds E sched API_KEY rs (snd (serve E sched API_KEY r w)).
Proof. done. Qed.

Lemma run_rising rs w id :
  quiescent w → primary_key (committed w) →
  rising (omap (λ w', status_of (committed w') id)
            (worlds E sched API_KEY rs w)).
Proof.
  revert w. induction rs as [|r rs IH]; intros w Hq Hpk.
  - unfold worlds. simpl. destruct (status_of _ _); constructor.
  - rewrite worlds_cons.
    destruct (serve_step E sched API_KEY c same_session r w Hq Hpk)
      as (Hq' & Hpk' & Hstep).
    specialize (IH _ Hq' Hpk'). revert IH.
    change (omap ?f (w :: ?l))
      with (match f w with Some y => y :: omap f l | None => omap f l end).
    destruct (status_of (committed w) id) as [st|] eqn:Hst; [|done].
    destruct (Hstep id st Hst) as (st' & Hst' & Htr%transition_rank).
    unfold worlds at 1 2. simpl. rewrite Hst'. intros IH.
    by constructor.
Qed.

End Runs_facts.

(** C4, as amended: along any run of claim, submission and enqueue
    requests, each submission served by one session, the status of a query
    never moves backward. A claim changes a status only from [pending] to
    [processing]; a submission changes a status only to [completed], from
    whatever it was; an enqueue changes no status. So the statuses a query
    shows form a subsequence of pending, processing, completed. *)
Theorem status_never_moves_back E sched API_KEY c rs w :
  (∀ n, on_session (sched n) = c) →
  quiescent w → primary_key (committed w) →
  (∀ k r wb wa id st,
     rs !! k = Some r →
     worlds E sched API_KEY rs w !! k = Some wb →
     worlds E sched API_KEY rs w !! S k = Some wa →
     status_of (committed wb) id = Some st →
     ∃ st', status_of (committed wa) id = Some st'
            ∧ (rank st ≤ rank st')%nat
            ∧ (st' ≠ st →
               match r with
               | GET_next _ => st = pending ∧ st' = processing
               | POST_results _ _ => st' = completed
               | POST_queries _ _ => False
               end))
  ∧ ∀ id, sublist (observed E sched API_KEY rs w id) lifecycle.
Proof.
  intros Hsame Hq Hpk. split.
  - revert w Hq Hpk. induction rs as [|r0 rs IH]; intros w Hq Hpk k r wb wa
      id st Hr Hb Ha Hst; [done|].
    destruct (serve_step E sched API_KEY c Hsame r0 w Hq Hpk)
      as (Hq' & Hpk' & Hstep).
    rewrite worlds_cons in Hb, Ha. destruct k as [|k].
    + simpl in Hr, Hb, Ha. injection Hr as ->. injection Hb as ->.
      injection Ha as <-.
      destruct (Hstep id st Hst) as (st' & Hst' & Htr).
      exists st'. split_and!; [done|by eapply transition_rank|].
      intros Hne. by destruct Htr as [->|Htr].
    + by eapply (IH _ Hq' Hpk' k).
  - intros id. apply changes_lifecycle. by eapply run_rising.
Qed.

(** * Worked examples *)

Section Examples.
Import Sample.
Local Abbreviation pg := Reference.pg.

Lemma three_pending_primary_key : primary_key (committed three_pending).
Proof. unfold primary_key. by_computation. Defined.

Lemma one_pending_primary_key : primary_key (committed one_pending).
Proof. unfold primary_key. by_computation. Defined.

Lemma one_session_same n : on_session (one_session n) = 0%nat.
Proof. reflexivity. Defined.

(** Priorities 1, 5 and 3 are handed out in the order 5, 3, 1, and the
    fourth poll finds no work. *)
Example polls_three_pending :
  polls pg one_session 4 three_pending
  = [Done (Json_next (id_of b_text) (JS.lit "bar") 5);
     Done (Json_next (id_of c_text) (JS.lit "baz") 5);
     Done (Json_next (id_of a_text) (JS.lit "foo") 5);
     Done Json_null].
Proof. vm_compute. reflexivity. Qed.

(** The first poll of the ordering scenario hands out the query of
    priority 5 and moves it to [processing]. *)
Lemma claim_null_iff_no_pending_witness :
  quiescent three_pending ∧ primary_key (committed three_pending)
  ∧ (fst (get_next pg one_session three_pending) = Done Json_null
     ↔ ∀ q, q ∈ queries (committed three_pending) → q_status q ≠ pending)
  ∧ (fst (get_next pg one_session three_pending) ≠ Done Json_null →
     ∃ q, q ∈ queries (committed three_pending) ∧ q_status q = pending
          ∧ fst (get_next pg one_session three_pending)
            = Done (Json_next (q_id q) (q_search_term q) 5)
          ∧ status_of (committed (snd (get_next pg one_session three_pending)))
              (q_id q) = Some processing).
Proof.
  split; [reflexivity|]. split; [exact three_pending_primary_key|].
  exact (claim_null_iff_no_pending pg one_session three_pending
           eq_refl three_pending_primary_key).
Defined.

(** The first two polls of the ordering scenario: priority 5, then 3. *)
Lemma claim_order_witness :
  quiescent three_pending ∧ primary_key (committed three_pending)
  ∧ priority_le (Some 3) (Some 5)
  ∧ (Some 3 = Some 5 → 1001 ≤ 1002)
  ∧ id_of b_text ≠ id_of c_text.
Proof.
  split; [reflexivity|]. split; [exact three_pending_primary_key|].
  refine (proj2 (claim_order pg one_session three_pending
                   eq_refl three_pending_primary_key)
            4%nat 0%nat 1%nat
            (row b_text (JS.lit "bar") pending (Some 5) 1001)
            (row c_text (JS.lit "baz") pending (Some 3) 1002)
            (JS.lit "bar") (JS.lit "baz") 5 5 _ _ _ _ _).
  - lia.
  - apply list_elem_of_further, list_elem_of_here.
  - do 2 apply list_elem_of_further. apply list_elem_of_here.
  - vm_compute. reflexivity.
  - vm_compute. reflexivity.
Defined.

Lemma claim_frame_witness :
  quiescent three_pending ∧ primary_key (committed three_pending)
  ∧ fst (get_next pg one_session three_pending)
    = Done (Json_next (id_of b_text) (JS.lit "bar") 5)
  ∧ results (committed (snd (get_next pg one_session three_pending)))
    = results (committed three_pending)
  ∧ length (queries (committed (snd (get_next pg one_session three_pending))))
    = length (queries (committed three_pending)).
Proof.
  assert (fst (get_next pg one_session three_pending)
          = Done (Json_next (id_of b_text) (JS.lit "bar") 5)) as Hanswer
    by (vm_compute; reflexivity).
  destruct (claim_frame pg one_session three_pending (id_of b_text)
              (JS.lit "bar") 5 eq_refl three_pending_primary_key Hanswer)
    as (_ & H2 & _ & _ & _ & H6 & _).
  split; [reflexivity|]. split; [exact three_pending_primary_key|].
  split; [exact Hanswer|]. split; [exact H2|exact H6].
Defined.

Lemma unauthorized_runs_no_statement_witness :
  (@None JS.jsstring = None ∨ None ≠ Some key)
  ∧ route_next pg one_session (Some key) None three_pending
    = (Done (Status401 "Invalid API key"), three_pending)
  ∧ route_results pg one_session (Some key) None submission three_pending
    = (Done (Status401 "Invalid API key"), three_pending).
Proof.
  split; [left; reflexivity|].
  apply (unauthorized_runs_no_statement pg one_session (Some key) None
           submission three_pending).
  left. reflexivity.
Defined.

Lemma missing_fields_rejected_witness :
  (JS.field [("pages", JS.VArr [])] "query_id" = JS.VUndef
   ∨ JS.field [("pages", JS.VArr [])] "pages" = JS.VUndef)
  ∧ post_results pg one_session [("pages", JS.VArr [])] three_pending
    = (Done (Status400 "Missing required fields: query_id, pages"),
       three_pending).
Proof.
  split; [left; reflexivity|].
  apply (missing_fields_rejected pg one_session (Some key) (Some key)
           [("pages", JS.VArr [])] three_pending).
  left. reflexivity.
Defined.

(** The request of the sample stores "foo" and "bar" and reports 2. *)
Example enqueue_sample :
  fst (post_queries pg one_session project_text enqueue three_pending)
  = Done (Json_inserted 2)
  ∧ kept entries = [JS.lit "foo"; JS.lit "bar"].
Proof. vm_compute. split; reflexivity. Qed.


(** After the second submission the query has four result rows, two
    suggestions and two related searches. *)
Example resubmission_sample :
  let ow1 := post_results pg one_session submission one_processing in
  let ow2 := post_results pg one_session submission (snd ow1) in
  length (results_of (committed (snd ow1)) (id_of a_text)) = 2%nat
  ∧ length (results_of (committed (snd ow2)) (id_of a_text)) = 4%nat
  ∧ length (suggestions_of (committed (snd ow2)) (id_of a_text)) = 2%nat
  ∧ length (related_of (committed (snd ow2)) (id_of a_text)) = 2%nat.
Proof. vm_compute. repeat split; reflexivity. Qed.

Lemma status_never_moves_back_witness :
  (∀ n, on_session (one_session n) = 0%nat) ∧ quiescent one_pending
  ∧ primary_key (committed one_pending)
  ∧ sublist (observed pg one_session (Some key)
               [GET_next (Some key); POST_results (Some key) submission]
               one_pending (id_of a_text))
      lifecycle.
Proof.
  split; [exact one_session_same|]. split; [reflexivity|].
  split; [exact one_pending_primary_key|].
  exact (proj2 (status_never_moves_back pg one_session (Some key) 0%nat
                  [GET_next (Some key); POST_results (Some key) submission]
                  one_pending one_session_same eq_refl
                  one_pending_primary_key) (id_of a_text)).
Defined.

(** A claim followed by a submission takes the query through the whole
    life cycle. *)
Example observed_lifecycle :
  observed pg one_session (Some key)
    [GET_next (Some key); POST_results (Some key) submission]
    one_pending (id_of a_text)
  = [pending; processing; completed].
Proof. vm_compute. reflexivity. Qed.

(** An enqueue request with [priority: null] stores a NULL priority, and
    the next poll hands that query out before the older one of priority 5. *)
Example enqueue_null_priority :
  let w1 := snd (post_queries pg one_session project_text
                   [("queries", JS.VArr [JS.VStr (JS.lit "later")]);
                    ("priority", JS.VNull)] one_pending) in
  q_priority <$> queries (committed w1) = [Some 0; None]
  ∧ fst (get_next pg one_session w1) = Done (Json_next 4096%N (JS.lit "later") 5).
Proof. vm_compute. split; reflexivity. Qed.

(** The end-to-end scenario: two queries enqueued with priority 10; the
    poll hands out the first one with [max_pages = 5]; after a submission
    with two results for it the project counts one pending, none
    processing, one completed, two in total. *)
Example scenario :
  let w1 := snd (post_queries pg one_session project_text
                   [("queries", JS.VArr [JS.VStr black_cat;
                                         JS.VStr (JS.lit "foo")]);
                    ("priority", JS.VNum 10)] no_queries) in
  let claim := route_next pg one_session (Some key) (Some key) w1 in
  let submit :=
    route_results pg one_session (Some key) (Some key)
      [("query_id", JS.VStr (JS.lit "00000000-0000-0000-0000-000000001000"));
       ("pages", JS.VArr [JS.VObj [("page_number", JS.VNum 1);
                                   ("results",
                                    JS.VArr [hit 1 (JS.lit "example.org");
                                             hit 2 (JS.lit "example.com")])]])]
      (snd claim) in
  fst claim = Done (Json_next 4096%N black_cat 5)
  ∧ fst submit = Done Json_success
  ∧ stats (committed (snd submit)) (id_of project_text)
    = (1, 0, 1, 2)%nat.
Proof. vm_compute. repeat split; reflexivity. Qed.

(** C4, as the specification words it, fails: a submission for a query
    that no worker has claimed moves it from [pending] straight to
    [completed], and pending, completed is no prefix of the life cycle. *)
Lemma submission_skips_processing :
  observed pg one_session (Some key)
    [POST_results (Some key) empty_submission] one_pending (id_of a_text)
  = [pending; completed]
  ∧ ¬ (observed pg one_session (Some key)
         [POST_results (Some key) empty_submission] one_pending
         (id_of a_text)
       `prefix_of` lifecycle).
Proof.
  assert (observed pg one_session (Some key)
            [POST_results (Some key) empty_submission] one_pending
            (id_of a_text)
          = [pending; completed]) as Hobs by (vm_compute; reflexivity).
  split; [exact Hobs|]. rewrite Hobs. intros [k Hk]. discriminate Hk.
Qed.

(** C2: the submission is not one transaction on one connection. Every
    statement goes through [pool.query], so [BEGIN] may reach one session
    and the statements after it another. Here the third result row is
    refused (its domain is too long for [VARCHAR(255)]): the request is
    answered with an error and the status stays [processing], but the two
    rows inserted before, which ran outside the block, stay visible, and
    the block opened by [BEGIN] on session 0 is left open. *)
Theorem partial_commit_across_sessions :
  let ow := route_results pg two_sessions (Some key) (Some key)
              bad_submission one_processing in
  fst ow = Done (Status500 "Failed to save results" (DbError invalid_input))
  ∧ results_of (committed one_processing) (id_of a_text) = []
  ∧ length (results_of (committed (snd ow)) (id_of a_text)) = 2%nat
  ∧ status_of (committed (snd ow)) (id_of a_text) = Some processing
  ∧ session_of (snd ow) 0 = InTx 2000 []
  ∧ fst <$> trace (snd ow) = [0; 1; 1; 1; 1]%nat.
Proof. vm_compute. repeat split; reflexivity. Qed.

(** The same submission served by one session alone leaves no row. *)
Example failed_submission_one_session :
  let ow := route_results pg one_session (Some key) (Some key)
              bad_submission one_processing in
  fst ow = Done (Status500 "Failed to save results" (DbError invalid_input))
  ∧ committed (snd ow) = committed one_processing
  ∧ quiescent (snd ow).
Proof. vm_compute. repeat split; reflexivity. Qed.

End Examples.

(** * Further properties of the handlers *)

(** ** What the handlers issue, in any state of the pool *)

Global Arguments pool_query : simpl never.

Lemma issues_ret {A} P (a : A) : issues P (ret a).
Proof. intros w. exists []. by rewrite app_nil_r. Qed.

Lemma issues_throw {A} P e : issues P (@throw A e).
Proof. intros w. exists []. by rewrite app_nil_r. Qed.

Lemma issues_bind {A B} P (m : M A) (k : A → M B) :
  issues P m → (∀ a, issues P (k a)) → issues P (bind m k).
Proof.
  intros Hm Hk w. unfold bind. destruct (Hm w) as (tr & Htr & Hall).
  destruct (m w) as [[a|e|] w']; simpl in *; [|by exists tr..].
  destruct (Hk a w') as (tr' & Htr' & Hall').
  exists (tr ++ tr'). split; [by rewrite Htr', Htr, app_assoc|].
  by apply Forall_app.
Qed.

Lemma issues_for_each {A} P (body : A → M unit) l :
  (∀ x, issues P (body x)) → issues P (for_each body l).
Proof.
  intros Hbody. induction l as [|x l IH]; simpl; [apply issues_ret|].
  apply issues_bind; [apply Hbody|]. by intros _.
Qed.

Lemma issues_for_of P v body :
  (∀ x, issues P (body x)) → issues P (for_of v body).
Proof.
  intros Hbody. unfold for_of. destruct (JS.iterate v);
    [by apply issues_for_each|apply issues_throw].
Qed.

Lemma issues_get P o k : issues P (get o k).
Proof.
  unfold get. destruct (JS.prop o k); [apply issues_ret|apply issues_throw].
Qed.

Section Any_world.
Variable E : engine.
Variable sched : nat → choice.

(** Every call of [pool.query] adds its statement to the trace, whatever
    the session it reaches does with it. *)
Lemma pool_query_trace s w :
  trace (snd (pool_query E sched s w))
  = trace w ++ [(on_session (sched (length (trace w))), s)].
Proof.
  unfold pool_query, run_statement.
  destruct s; simpl; try done; repeat (case_match; simpl; try done).
Qed.

Lemma issues_query (P : statement → Prop) s :
  P s → issues P (pool_query E sched s).
Proof.
  intros Hs w. eexists. split; [apply pool_query_trace|].
  by repeat constructor.
Qed.

Lemma transaction_control_done s w :
  s = COMMIT ∨ s = ROLLBACK → fst (pool_query E sched s w) = Done [].
Proof.
  intros [-> | ->]; unfold pool_query; simpl; [|done].
  by destruct (session_of _ _).
Qed.

Lemma rollback_done v :
  ∃ v', pool_query E sched ROLLBACK v = (Done [], v')
        ∧ trace v'
          = trace v ++ [(on_session (sched (length (trace v))), ROLLBACK)].
Proof. unfold pool_query. by eexists. Qed.

Lemma issues_submission_block body :
  issues (submission_insert (JS.field body "query_id"))
    (submission_block E sched body).
Proof.
  unfold submission_block, insert_results, insert_suggestions, insert_related.
  repeat first
    [ apply issues_bind; [|intros ?]
    | apply issues_for_of; intros ?
    | apply issues_get
    | apply issues_ret
    | apply issues_query
    | match goal with |- issues _ (if ?b then _ else _) => destruct b end ];
    simpl; try done.
  split; [done|]. by case_match.
Qed.

End Any_world.

Section Handlers_any_world.
Variable E : engine.
Variable sched : nat → choice.
Variable API_KEY : option JS.jsstring.

(** X1: a worker request runs its handler when the header is the
    configured key and that key is not empty; when [API_KEY] is not set, or
    set to the empty string, no header at all is accepted. *)
Theorem api_key_acceptance body w :
  (∀ k, k ≠ [] → API_KEY = Some k →
     route_next E sched API_KEY (Some k) w = get_next E sched w
     ∧ route_results E sched API_KEY (Some k) body w
       = post_results E sched body w)
  ∧ (API_KEY = None ∨ API_KEY = Some [] →
     ∀ x_api_key,
       route_next E sched API_KEY x_api_key w
       = (Done (Status401 "Invalid API key"), w)
       ∧ route_results E sched API_KEY x_api_key body w
         = (Done (Status401 "Invalid API key"), w)).
Proof.
  split.
  - intros k Hk ->. unfold route_next, route_results, validateApiKey.
    rewrite bool_decide_eq_true_2 by done. by destruct k.
  - intros Hunset key. unfold route_next, route_results, validateApiKey.
    destruct key as [k|]; [|done].
    destruct k as [|c k]; [done|]. simpl.
    rewrite bool_decide_eq_false_2; [done|].
    destruct Hunset as [-> | ->]; congruence.
Qed.

(** The answers of the submission handler once validation has passed. *)
Lemma post_results_answers body w :
  JS.truthy (JS.field body "query_id") = true →
  JS.truthy (JS.field body "pages") = true →
  fst (post_results E sched body w) = Done Json_success
  ∨ (∃ e, fst (post_results E sched body w)
          = Done (Status500 "Failed to save results" e))
  ∨ fst (post_results E sched body w) = Waiting.
Proof.
  intros Hid Hpages. rewrite post_results_block by done.
  unfold try_catch, bind, handleError, ret.
  destruct (pool_query E sched BEGIN w) as [[rB|eB|] w0]; simpl;
    [| |by right; right].
  - destruct (submission_block E sched body w0) as [[r1|e1|] w1]; simpl;
      [| |by right; right].
    + pose proof (transaction_control_done E sched COMMIT w1
                    (or_introl eq_refl)) as Hc.
      destruct (pool_query E sched COMMIT w1) as [oC w2]. simpl in Hc.
      subst oC. by left.
    + right; left. by eexists.
  - right; left. by eexists.
Qed.

(** X2: the submission handler answers 400 exactly when [query_id] or
    [pages] is falsy (missing, [null], [false], [0] or the empty string; an
    empty [pages] array is not falsy), and then it changes nothing and
    issues no statement. *)
Theorem submission_rejected_iff_falsy body w :
  (fst (post_results E sched body w)
   = Done (Status400 "Missing required fields: query_id, pages")
   ↔ JS.truthy (JS.field body "query_id") = false
     ∨ JS.truthy (JS.field body "pages") = false)
  ∧ (fst (post_results E sched body w)
     = Done (Status400 "Missing required fields: query_id, pages") →
     snd (post_results E sched body w) = w).
Proof.
  destruct (JS.truthy (JS.field body "query_id")) eqn:Hid;
    [destruct (JS.truthy (JS.field body "pages")) eqn:Hpages|].
  - destruct (post_results_answers body w Hid Hpages) as [H|[[e H]|H]];
      rewrite H; split; try done; split; try done;
      intros [[=]|[=]].
  - unfold post_results. rewrite Hid, Hpages. simpl.
    split; [|done]. split; [by right|done].
  - unfold post_results. rewrite Hid. simpl.
    split; [|done]. split; [by left|done].
Qed.

(** X3: a submission that passes validation first issues [BEGIN], then only
    inserts of child rows and the update to [completed], each bound to the
    [query_id] of the request and no result type falsy, and last [COMMIT]
    when it answers success or [ROLLBACK] when it answers the error. Only a
    request left waiting on a row lock issues neither. It never issues the
    claim statement or the insert of a query. *)
Theorem submission_statements body w :
  JS.truthy (JS.field body "query_id") = true →
  JS.truthy (JS.field body "pages") = true →
  ∃ mid,
    Forall (submission_insert (JS.field body "query_id")) mid
    ∧ match fst (post_results E sched body w) with
      | Done Json_success =>
          issued_since w (snd (post_results E sched body w))
          = BEGIN :: mid ++ [COMMIT]
      | Done (Status500 message _) =>
          message = "Failed to save results"%string
          ∧ issued_since w (snd (post_results E sched body w))
            = BEGIN :: mid ++ [ROLLBACK]
      | Waiting =>
          issued_since w (snd (post_results E sched body w)) = BEGIN :: mid
      | _ => False
      end.
Proof.
  intros Hid Hpages. rewrite post_results_block by done.
  unfold try_catch, bind, handleError, ret.
  pose proof (pool_query_trace E sched BEGIN w) as HtB.
  assert (fst (pool_query E sched BEGIN w) ≠ Waiting) as HnW
    by (unfold pool_query; simpl; by destruct (session_of _ _)).
  destruct (pool_query E sched BEGIN w) as [oB w0]; simpl in *.
  destruct oB as [rB|eB|]; [| |done].
  - destruct (issues_submission_block E sched body w0) as (tr & Htr & Hall).
    assert (Forall (submission_insert (JS.field body "query_id"))
              (snd <$> tr)) as Hmid by by apply Forall_fmap.
    clear Hall.
    destruct (submission_block E sched body w0) as [o1 w1]; simpl in *.
    exists (snd <$> tr). split; [done|]. destruct o1 as [r1|e1|].
    + pose proof (pool_query_trace E sched COMMIT w1) as HtC.
      pose proof (transaction_control_done E sched COMMIT w1
                    (or_introl eq_refl)) as Hc.
      destruct (pool_query E sched COMMIT w1) as [oC w2]. simpl in *.
      subst oC. simpl. erewrite issued_since_app;
        [|by rewrite HtC, Htr, HtB, <-!app_assoc].
      simpl. by rewrite fmap_app.
    + simpl. split; [done|].
      erewrite issued_since_app;
        [|simpl; by rewrite Htr, HtB, <-!app_assoc].
      simpl. by rewrite fmap_app.
    + simpl. erewrite issued_since_app; [|by rewrite Htr, HtB, <-!app_assoc].
      done.
  - exists []. split; [constructor|]. simpl. split; [done|].
    erewrite issued_since_app; [|simpl; by rewrite HtB, <-!app_assoc]. done.
Qed.


(** X5: the enqueue handler answers 400 exactly when [queries] is not a
    non-empty array, and then it changes nothing and issues no
    statement. *)
Theorem enqueue_rejected_iff_no_array project_id body w :
  (fst (post_queries E sched project_id body w)
   = Done (Status400 "Queries array is required")
   ↔ ∀ v l, JS.field body "queries" ≠ JS.VArr (v :: l))
  ∧ (fst (post_queries E sched project_id body w)
     = Done (Status400 "Queries array is required") →
     snd (post_queries E sched project_id body w) = w).
Proof.
  assert ((∃ v l, JS.field body "queries" = JS.VArr (v :: l))
          ∨ (negb (JS.truthy (JS.field body "queries"))
             || negb (JS.isArray (JS.field body "queries"))
             || JS.length_is_0 (JS.field body "queries") = true
             ∧ ∀ v l, JS.field body "queries" ≠ JS.VArr (v :: l)))
    as [(v & l & Hf)|[Hcond Hno]].
  { destruct (JS.field body "queries") as [| |b|n|s|[|v l]|fs];
      try (right; split; [by rewrite ?orb_true_r|done]).
    left. by eexists _, _. }
  - rewrite (post_queries_array E sched project_id body (v :: l) w Hf)
      by done.
    destruct (insert_queries _ _ _ _ _ _ _) as [[n|e|] w']; simpl;
      (split; [|done]); split; try done; intros Hno; by destruct (Hno v l).
  - unfold post_queries. rewrite Hcond. simpl. by repeat split.
Qed.

End Handlers_any_world.

(** ** The rows an enqueue request stores *)

Lemma exec_insert_query_row E now fresh d project_id t priority ws rows :
  t ≠ [] →
  exec E now fresh d (INSERT_query (JS.VStr project_id) (JS.VStr t) priority)
  = Rows ws rows →
  ∃ r, ws = [W_query r]
       ∧ (∃ u, uuid_in E (JS.VStr project_id) = Some u
               ∧ q_project_id r = Some u ∧ u ∈ p_id <$> projects d)
       ∧ text_in E (JS.VStr t) = Some (q_search_term r)
       ∧ column (int4_in E) priority = Some (q_priority r)
       ∧ q_status r = pending ∧ q_processed_at r = None
       ∧ q_id r = fresh ∧ q_created_at r = now.
Proof.
  intros Ht. unfold exec. unfold column at 1 2. simpl.
  destruct (uuid_in E (JS.VStr project_id)) as [u|]; [|done]. simpl.
  destruct (text_in E (JS.VStr t)) as [t'|]; simpl; [|done].
  destruct (column (int4_in E) priority) as [prio|]; [|done].
  case_bool_decide as Hu; simpl; [|done]. case_bool_decide; [done|].
  intros [= <- <-]. eexists. split_and!; try done. by exists u.
Qed.

Section Enqueue_rows.
Variable E : engine.
Variable sched : nat → choice.

Lemma insert_queries_rows project_id priority entries inserted w :
  quiescent w →
  let ow := insert_queries E sched (JS.VStr project_id) priority
              entries inserted w in
  ∃ tr rows,
    trace (snd ow) = trace w ++ tr
    ∧ committed (snd ow) = with_queries (committed w)
                             (queries (committed w) ++ rows)
    ∧ quiescent (snd ow)
    ∧ (∀ j r, rows !! j = Some r →
         ∃ s, kept entries !! j = Some s
              ∧ enqueued_row E sched project_id priority
                  (projects (committed w)) (length (trace w) + j) s r)
    ∧ snd <$> tr
      = insert_of project_id priority <$> take (length tr) (kept entries)
    ∧ match fst ow with
      | Done n =>
          n = (inserted + length rows)%nat ∧ length tr = length rows
          ∧ length rows = length (kept entries)
      | Thrown (DbError _) =>
          length tr = S (length rows)
          ∧ (length rows < length (kept entries))%nat
      | Thrown TypeError => length tr = length rows
      | Waiting => False
      end.
Proof.
  revert inserted w.
  induction entries as [|v entries IH]; intros inserted w Hq ow.
  { exists [], []. subst ow. simpl. rewrite !app_nil_r.
    split_and!; try done.
    by destruct (committed w). }
  subst ow.
  assert (kept (v :: entries) = kept_entry v ++ kept entries) as Hkept
    by done.
  assert ((∃ s, v = JS.VStr s ∧ blank s = false)
          ∨ kept_entry v = []) as [(s & -> & Hb)|Hnone].
  { destruct v as [| | | |s| |]; try by right.
    destruct (blank s) eqn:Hb; [right; simpl; by rewrite Hb|left; by eexists]. }
  - rewrite insert_queries_kept by done. cbv zeta.
    assert (JS.trim s ≠ []) as Ht.
    { unfold blank in Hb. by destruct (JS.trim s). }
    assert (kept (JS.VStr s :: entries) = JS.trim s :: kept entries) as ->.
    { rewrite Hkept. simpl. by rewrite Hb. }
    set (ch := sched (length (trace w))).
    set (st := INSERT_query (JS.VStr project_id) (JS.VStr (JS.trim s))
                 priority).
    destruct (exec E (clock ch) (random_uuid ch) (committed w) st)
      as [ws rows0|e] eqn:Hex.
    + apply exec_insert_query_row in Hex
        as (r & -> & Hproj & Htext & Hprio & Hst & Hproc & Hrid & Hcre);
        [|done].
      set (w1 := with_committed _ _).
      destruct (IH (S inserted) w1) as (tr & rows & Htr & Hc & Hq' & Hrows
                                        & Hstm & Hres); [done|].
      exists ((on_session ch, st) :: tr), (r :: rows).
      split_and!.
      * rewrite Htr. simpl. by rewrite <-app_assoc.
      * rewrite Hc. unfold with_queries. simpl. by rewrite <-app_assoc.
      * done.
      * intros [|j] r' Hj.
        -- injection Hj as <-. exists (JS.trim s). split; [done|].
           rewrite Nat.add_0_r. by repeat split.
        -- destruct (Hrows j r' Hj) as (s' & Hs' & Hrow).
           exists s'. split; [done|].
           replace (length (trace w) + S j)%nat
             with (length (trace w1) + j)%nat; [done|].
           subst w1. simpl. rewrite length_app. simpl. lia.
      * change (((on_session ch, st) :: tr).*2) with (st :: tr.*2).
        rewrite Hstm. reflexivity.
      * destruct (fst (insert_queries _ _ _ _ _ _ _)) as [n|[|e]|];
          simpl; [| | |done].
        -- destruct Hres as (-> & ? & ?). split_and!; lia.
        -- lia.
        -- destruct Hres as [? ?]. split; lia.
    + exists [(on_session ch, st)], []. simpl. rewrite app_nil_r.
      split_and!; try done; [by destruct (committed w)|lia].
  - assert (kept (v :: entries) = kept entries) as ->
      by by rewrite Hkept, Hnone.
    destruct v as [| | | |s| |];
      try (rewrite insert_queries_other by done);
      try (simpl JS.truthy; cbv iota; by apply IH).
    + destruct b; [|by apply IH].
      exists [], []. simpl. rewrite !app_nil_r.
      split_and!; try done. by destruct (committed w).
    + destruct (JS.truthy (JS.VNum n)); [|by apply IH].
      exists [], []. simpl. rewrite !app_nil_r.
      split_and!; try done. by destruct (committed w).
    + rewrite insert_queries_blank; [by apply IH|].
      simpl in Hnone. by destruct (blank s).
    + exists [], []. simpl. rewrite !app_nil_r.
      split_and!; try done. by destruct (committed w).
    + exists [], []. simpl. rewrite !app_nil_r.
      split_and!; try done. by destruct (committed w).
Qed.

(** X6: whether an enqueue request succeeds or fails, it only appends rows
    to [queries]. The j-th new row holds the j-th non-blank string entry,
    the project of the route, which exists, and the priority of the
    request; its status is [pending], its processing time is NULL, and its
    id and creation time are those of the j-th call of [pool.query]. *)
Theorem enqueue_stores_rows project_id body entries w :
  quiescent w →
  JS.field body "queries" = JS.VArr entries → entries ≠ [] →
  let priority :=
    match JS.field body "priority" with
    | JS.VUndef => JS.VNum 0
    | v => v
    end in
  let ow := post_queries E sched project_id body w in
  ∃ rows,
    committed (snd ow)
    = with_queries (committed w) (queries (committed w) ++ rows)
    ∧ ∀ j r, rows !! j = Some r →
        ∃ s, kept entries !! j = Some s
             ∧ enqueued_row E sched project_id priority
                 (projects (committed w)) (length (trace w) + j) s r.
Proof.
  intros Hq Hfield Hne priority ow.
  destruct (insert_queries_rows project_id priority entries 0 w Hq)
    as (tr & rows & _ & Hc & _ & Hrows & _).
  exists rows. subst ow. rewrite (post_queries_array _ _ _ _ _ _ Hfield Hne).
  fold priority.
  destruct (insert_queries _ _ _ _ _ _ _) as [[n|e|] w']; by simpl in *.
Qed.

(** X7: the enqueue loop runs outside any transaction. When the engine
    rejects the insert of the non-blank entry number k (from 0), the
    request answers 500, the rows of the k entries before it stay stored,
    and no statement is issued for the entries after it. *)
Theorem enqueue_failure_keeps_rows project_id body entries w e :
  quiescent w →
  JS.field body "queries" = JS.VArr entries → entries ≠ [] →
  let priority :=
    match JS.field body "priority" with
    | JS.VUndef => JS.VNum 0
    | v => v
    end in
  let ow := post_queries E sched project_id body w in
  fst ow = Done (Status500 "Failed to add queries" (DbError e)) →
  ∃ k rows,
    (k < length (kept entries))%nat
    ∧ issued_since w (snd ow)
      = insert_of project_id priority <$> take (S k) (kept entries)
    ∧ queries (committed (snd ow)) = queries (committed w) ++ rows
    ∧ Forall2 (λ r s, text_in E (JS.VStr s) = Some (q_search_term r)
                      ∧ q_status r = pending)
        rows (take k (kept entries)).
Proof.
  intros Hq Hfield Hne priority ow.
  destruct (insert_queries_rows project_id priority entries 0 w Hq)
    as (tr & rows & Htr & Hc & _ & Hrows & Hstm & Hres).
  subst ow. rewrite (post_queries_array _ _ _ _ _ _ Hfield Hne).
  fold priority.
  destruct (insert_queries _ _ _ _ _ _ _) as [[n|[|e']|] w'];
    simpl in *; try done.
  intros _. destruct Hres as [Hlen Hlt].
  exists (length rows), rows. split_and!.
  - done.
  - rewrite (issued_since_app _ _ _ Htr), Hstm. by rewrite Hlen.
  - by rewrite Hc.
  - apply Forall2_same_length_lookup_2.
    { rewrite length_take. lia. }
    intros j r s Hr Hs. apply lookup_take_Some in Hs as [Hs _].
    destruct (Hrows j r Hr) as (s' & Hs' & _ & Ht & _ & Hp & _).
    rewrite Hs in Hs'. injection Hs' as <-. by split.
Qed.

(** X8: an enqueue request for a project that does not exist, or whose id
    is not a uuid, stores nothing, whatever its body is; it can answer
    with a count only when it had no entry to store, and the count is 0. *)
Theorem enqueue_unknown_project project_id body w :
  quiescent w →
  (∀ u, uuid_in E (JS.VStr project_id) = Some u →
        u ∉ p_id <$> projects (committed w)) →
  committed (snd (post_queries E sched project_id body w)) = committed w
  ∧ ∀ n, fst (post_queries E sched project_id body w)
         = Done (Json_inserted n) → n = 0%nat.
Proof.
  intros Hq Hno.
  assert ((∃ v l, JS.field body "queries" = JS.VArr (v :: l))
          ∨ (negb (JS.truthy (JS.field body "queries"))
             || negb (JS.isArray (JS.field body "queries"))
             || JS.length_is_0 (JS.field body "queries") = true))
    as [(v & l & Hf)|Hcond].
  { destruct (JS.field body "queries") as [| |b|n|s|[|v l]|fs];
      try (right; by rewrite ?orb_true_r).
    left. by eexists _, _. }
  - set (priority := match JS.field body "priority" with
                     | JS.VUndef => JS.VNum 0
                     | v => v
                     end).
    destruct (insert_queries_rows project_id priority (v :: l) 0 w Hq)
      as (tr & rows & _ & Hc & _ & Hrows & _ & Hres).
    assert (rows = []) as ->.
    { destruct rows as [|r rows]; [done|].
      destruct (Hrows 0%nat r eq_refl) as (_ & _ & (u & Hu & _ & Hin) & _).
      by destruct (Hno u Hu). }
    rewrite (post_queries_array E sched project_id body (v :: l) w Hf)
      by done.
    fold priority.
    destruct (insert_queries _ _ _ _ _ _ _) as [[n|e|] w']; simpl in *;
      (split; [rewrite Hc, app_nil_r; by destruct (committed w)|]);
      try done.
    intros n' [= <-]. by destruct Hres as [-> _].
  - unfold post_queries. rewrite Hcond. by simpl.
Qed.

End Enqueue_rows.

(** ** What a successful submission commits *)

Lemma truthy_not_null v : JS.truthy v = true → sql_null v = false.
Proof. by destruct v. Qed.

Lemma exec_insert_unknown E n f d query_id s u ws rows :
  sql_null query_id = false → uuid_in E query_id = Some u → u ∉ ids d →
  submission_insert query_id s → (∀ st q, s ≠ UPDATE_status st q) →
  exec E n f d s ≠ Rows ws rows.
Proof.
  intros Hnull Hu Hnot Hs Hupd.
  assert (column (uuid_in E) query_id = Some (Some u)) as Hcol
    by (unfold column; by rewrite Hnull, Hu).
  assert (references_query d (Some u) = false) as Href
    by (simpl; by rewrite bool_decide_eq_false_2).
  destruct s as [| | | |a pn pos ti url dom de ty|a b|a b|st a|];
    try done; simpl in Hs; unfold exec.
  - destruct Hs as [-> _]. unfold result_row. rewrite Hcol. simpl.
    destruct (column (int4_in E) pn); simpl; [|done].
    destruct (column (int4_in E) pos); simpl; [|done].
    destruct (column (text_in E) ti); simpl; [|done].
    destruct (column (text_in E) url); simpl; [|done].
    destruct (column (varchar_in E 255) dom); simpl; [|done].
    destruct (column (text_in E) de); simpl; [|done].
    destruct (column (varchar_in E 50) ty); simpl; [|done].
    by rewrite bool_decide_eq_false_2.
  - subst a. rewrite Hcol. destruct (column (text_in E) b); [|done].
    by rewrite Href.
  - subst a. rewrite Hcol. destruct (column (text_in E) b); [|done].
    by rewrite Href.
  - by destruct (Hupd st a).
Qed.

Section Completion.
Variable E : engine.
Variable sched : nat → choice.
Variable c : nat.
Hypothesis same_session : ∀ n, on_session (sched n) = c.
Variable query_id : JS.value.
Hypothesis not_null : sql_null query_id = false.

Lemma fills_ret {A} (a : A) : fills_block E c query_id (ret a).
Proof. intros w log Hb Hlog Hcl. split; [done|]. by exists log. Qed.

Lemma fills_throw {A} e : fills_block E c query_id (@throw A e).
Proof. by intros w log Hb Hlog Hcl. Qed.

Lemma fills_bind {A B} (m : M A) (k : A → M B) :
  fills_block E c query_id m → (∀ a, fills_block E c query_id (k a)) →
  fills_block E c query_id (bind m k).
Proof.
  intros Hm Hk w log Hb Hlog Hcl. unfold bind.
  destruct (Hm w log Hb Hlog Hcl) as [Hc Hpost].
  destruct (m w) as [[a|e|] w']; simpl in *; [|done..].
  destruct Hpost as (log' & Hb' & Hlog' & Hcl').
  rewrite <-Hc in Hcl'.
  destruct (Hk a w' log' Hb' Hlog' Hcl') as [Hc' Hpost'].
  split; [by rewrite Hc'|].
  destruct (fst (k a w')); [|done..].
  destruct Hpost' as (log'' & ? & ? & Hcl'').
  exists log''. split_and!; [done..|]. by rewrite <-Hc.
Qed.

Lemma fills_for_each {A} (body : A → M unit) l :
  (∀ x, fills_block E c query_id (body x)) →
  fills_block E c query_id (for_each body l).
Proof.
  intros Hbody. induction l as [|x l IH]; [apply fills_ret|].
  by apply fills_bind.
Qed.

Lemma fills_for_of v body :
  (∀ x, fills_block E c query_id (body x)) →
  fills_block E c query_id (for_of v body).
Proof.
  intros Hbody. unfold for_of. destruct (JS.iterate v).
  - by apply fills_for_each.
  - apply fills_throw.
Qed.

Lemma fills_get o k : fills_block E c query_id (get o k).
Proof.
  unfold get. destruct (JS.prop o k); [apply fills_ret|apply fills_throw].
Qed.

Lemma fills_query s :
  submission_insert query_id s → (∀ st q, s ≠ UPDATE_status st q) →
  fills_block E c query_id (pool_query E sched s).
Proof.
  intros Hs Hupd w log [start Hb] Hlog Hcl.
  assert (submission_statement s = true) as Hst.
  { destruct s; try done. simpl in Hs. by destruct Hs as [-> _]. }
  assert (pool_query E sched s w
          = run_statement E (sched (length (trace w))) s
              (issued w (on_session (sched (length (trace w)))) s))
    as -> by (unfold pool_query; by destruct s).
  rewrite (run_statement_in_block E c _ _ _ start log) by done.
  simpl.
  destruct (exec E start _ _ s) as [ws rows|e] eqn:Hex; simpl; [|done].
  split; [done|]. exists (log ++ ws). split_and!.
  - exists start. simpl. rewrite Hb. apply insert_singleton_eq.
  - apply Forall_app. split; [done|]. by eapply exec_submission_writes.
  - intros u Hu Hnot. rewrite (Hcl u Hu Hnot) in Hex. simpl in Hex.
    by eapply exec_insert_unknown in Hex.
Qed.

End Completion.

Section Completed.
Variable E : engine.
Variable sched : nat → choice.
Variable c : nat.
Hypothesis same_session : ∀ n, on_session (sched n) = c.

Lemma fills_submission_inserts body :
  sql_null (JS.field body "query_id") = false →
  fills_block E c (JS.field body "query_id") (submission_inserts E sched body).
Proof.
  intros Hnull.
  unfold submission_inserts, insert_results, insert_suggestions,
    insert_related.
  repeat first
    [ apply fills_bind; [|intros ?]
    | apply fills_for_of; intros ?
    | apply fills_get
    | apply fills_ret
    | apply (fills_query E sched c same_session _ Hnull)
    | match goal with
      | |- fills_block _ _ _ (if ?b then _ else _) => destruct b
      end ];
    simpl; try done.
  split; [done|]. by case_match.
Qed.

Lemma submission_block_inserts body w :
  submission_block E sched body w
  = bind (submission_inserts E sched body)
      (λ _, pool_query E sched
              (UPDATE_status completed (JS.field body "query_id"))) w.
Proof.
  unfold submission_block, submission_inserts, bind.
  destruct (insert_results _ _ _ _ _) as [[[]|?|] w1]; [|done..].
  destruct (insert_suggestions _ _ _ _ _) as [[[]|?|] w2]; [|done..].
  by destruct (insert_related _ _ _ _ _) as [[[]|?|] w3].
Qed.

Lemma update_status_in_block query_id v log :
  in_block c log v → sql_null query_id = false →
  match uuid_in E query_id with
  | None =>
      ∃ e v', pool_query E sched (UPDATE_status completed query_id) v
              = (Thrown e, v')
  | Some u =>
      ∃ v', pool_query E sched (UPDATE_status completed query_id) v
            = (Done [], v')
            ∧ committed v' = committed v
            ∧ in_block c
                (log ++ if bool_decide
                             (u ∈ ids (apply_writes (committed v) log))
                        then [W_status u completed] else []) v'
  end.
Proof.
  intros [start Hb] Hnull. unfold pool_query.
  rewrite (run_statement_in_block E c _ _ _ start log) by done.
  unfold exec, column. rewrite Hnull.
  destruct (uuid_in E query_id) as [u|]; simpl; [|by eexists _, _].
  unfold ids.
  case_bool_decide; eexists; (split_and!; [done..|]); exists start; simpl;
    rewrite Hb; apply insert_singleton_eq.
Qed.

(** What a submission has committed when it answers with success. *)
Lemma post_results_success body w :
  quiescent w →
  fst (post_results E sched body w) = Done Json_success →
  ∃ u log,
    uuid_in E (JS.field body "query_id") = Some u
    ∧ Forall (λ x, submission_write x = true) log
    ∧ (u ∉ ids (committed w) → log = [])
    ∧ committed (snd (post_results E sched body w))
      = apply_writes (committed w)
          (log ++ if bool_decide (u ∈ ids (committed w))
                  then [W_status u completed] else []).
Proof.
  intros Hq.
  destruct (JS.truthy (JS.field body "query_id")) eqn:Hid; cycle 1.
  { unfold post_results. by rewrite Hid. }
  destruct (JS.truthy (JS.field body "pages")) eqn:Hpages; cycle 1.
  { unfold post_results. by rewrite Hid, Hpages. }
  pose proof (truthy_not_null _ Hid) as Hnull.
  destruct (post_results E sched body w) as [o w'] eqn:Hpr. simpl.
  intros ->. rewrite post_results_block in Hpr by done.
  unfold try_catch, bind in Hpr.
  destruct (begin_quiescent E sched c same_session w Hq)
    as (w0 & HB & Hc0 & Hb0).
  rewrite HB, submission_block_inserts in Hpr. unfold bind in Hpr.
  destruct (fills_submission_inserts body Hnull w0 [] Hb0 (Forall_nil_2 _))
    as [Hc1 Hpost]; [done|].
  destruct (submission_inserts E sched body w0) as [[[]|e|] w1];
    simpl in Hc1, Hpost; cycle 1.
  { by destruct (rollback_done E sched w1) as (v' & HR & _);
      rewrite HR in Hpr. }
  { done. }
  destruct Hpost as (log & Hb1 & Hlog & Hcl).
  pose proof (update_status_in_block (JS.field body "query_id") w1 log
                Hb1 Hnull) as Hupd.
  destruct (uuid_in E (JS.field body "query_id")) as [u|].
  - destruct Hupd as (w2 & HU & Hc2 & Hb2). rewrite HU in Hpr.
    destruct (commit_in_block E sched c same_session w2 _ Hb2)
      as (w3 & HC & Hc3 & _).
    rewrite HC in Hpr. injection Hpr as <-.
    exists u, log. split_and!; [done..| |].
    + rewrite <-Hc0. by apply Hcl.
    + rewrite Hc3, Hc2, Hc1, Hc0. by rewrite ids_apply_writes.
  - destruct Hupd as (e & w2 & HU). rewrite HU in Hpr.
    by destruct (rollback_done E sched w2) as (v' & HR & _);
      rewrite HR in Hpr.
Qed.

(** X9: when one session serves the calls of a submission that answers
    with success, the [query_id] of the body is the text of a uuid; if a
    query with this id is stored, its status is [completed] afterwards; if
    none is, the submission stored nothing at all. *)
Theorem successful_submission_completes body w :
  quiescent w →
  fst (post_results E sched body w) = Done Json_success →
  ∃ u, uuid_in E (JS.field body "query_id") = Some u
       ∧ (u ∈ ids (committed w) →
          status_of (committed (snd (post_results E sched body w))) u
          = Some completed)
       ∧ (u ∉ ids (committed w) →
          committed (snd (post_results E sched body w)) = committed w).
Proof.
  intros Hq Hok.
  destruct (post_results_success body w Hq Hok) as (u & log & Hu & Hlog & Hcl
                                                    & ->).
  exists u. split_and!; [done| |].
  - intros Hin. rewrite bool_decide_eq_true_2 by done.
    unfold apply_writes. rewrite foldl_app. simpl.
    fold (apply_writes (committed w) log).
    assert (u ∈ ids (apply_writes (committed w) log)) as Hin'
      by by rewrite ids_apply_writes.
    unfold status_of. simpl.
    rewrite find_fmap_id by (intros; apply set_status_id).
    unfold ids in Hin'. apply list_elem_of_fmap in Hin' as (q & -> & Hq').
    destruct (List.find _ _) as [r|] eqn:Hfind.
    + apply find_some in Hfind as [_ Hr%bool_decide_eq_true]. simpl.
      unfold set_status. by rewrite bool_decide_eq_true_2.
    + apply list_elem_of_In in Hq'. apply (find_none _ _ Hfind) in Hq'.
      by rewrite bool_decide_eq_true_2 in Hq'.
  - intros Hnot. rewrite (Hcl Hnot). by rewrite bool_decide_eq_false_2.
Qed.

End Completed.

(** ** The counts of the stats endpoint *)

Lemma claim_row_project id now q :
  q_project_id (claim_row id now q) = q_project_id q.
Proof. unfold claim_row. by case_bool_decide. Qed.

Lemma claim_row_absent id now (qs : list query) :
  id ∉ q_id <$> qs → claim_row id now <$> qs = qs.
Proof.
  induction qs as [|x qs IH]; [done|]. rewrite !fmap_cons.
  intros Hnot. apply not_elem_of_cons in Hnot as [Hne Hnot].
  rewrite IH by done. unfold claim_row.
  by rewrite bool_decide_eq_false_2.
Qed.

Lemma filter_project_claim p id now (qs : list query) :
  List.filter (λ q, bool_decide (q_project_id q = Some p))
    (claim_row id now <$> qs)
  = claim_row id now
      <$> List.filter (λ q, bool_decide (q_project_id q = Some p)) qs.
Proof.
  induction qs as [|x qs IH]; [done|]. rewrite fmap_cons. simpl.
  rewrite claim_row_project, IH. by case_bool_decide.
Qed.

Lemma filter_ids_NoDup (f : query → bool) (qs : list query) :
  NoDup (q_id <$> qs) → NoDup (q_id <$> List.filter f qs).
Proof.
  induction qs as [|x qs IH]; [done|]. rewrite fmap_cons.
  intros [Hx Hnd]%NoDup_cons. simpl. destruct (f x); [|by apply IH].
  rewrite fmap_cons. apply NoDup_cons. split; [|by apply IH].
  intros (y & Hy & Hin)%list_elem_of_fmap. apply Hx.
  apply list_elem_of_fmap. exists y. split; [done|].
  apply list_elem_of_In. apply list_elem_of_In in Hin.
  by apply filter_In in Hin as [? _].
Qed.

(** Claiming a pending row of a table with unique ids moves one row from
    the pending count to the processing count. *)
Lemma count_status_claim (qs : list query) q now st :
  NoDup (q_id <$> qs) → q ∈ qs → q_status q = pending →
  (length (List.filter (λ r, bool_decide (q_status r = st))
             (claim_row (q_id q) now <$> qs))
   + (if bool_decide (st = pending) then 1 else 0)
   = length (List.filter (λ r, bool_decide (q_status r = st)) qs)
     + (if bool_decide (st = processing) then 1 else 0))%nat.
Proof.
  induction qs as [|x qs IH]; [by intros _ ?%elem_of_nil|].
  rewrite !fmap_cons. intros [Hx Hnd]%NoDup_cons Hin Hp.
  apply elem_of_cons in Hin as [<-|Hin].
  - rewrite claim_row_absent by done. unfold claim_row.
    rewrite bool_decide_eq_true_2 by done. simpl. rewrite Hp.
    destruct st; simpl; lia.
  - assert (q_id x ≠ q_id q) as Hne.
    { intros Heq. apply Hx. rewrite Heq. apply list_elem_of_fmap.
      by exists q. }
    specialize (IH Hnd Hin Hp). unfold claim_row at 1.
    rewrite bool_decide_eq_false_2 by done. simpl.
    destruct (bool_decide (q_status x = st)); simpl; lia.
Qed.

Lemma filter_all {A} (f : A → bool) (l : list A) :
  Forall (λ x, f x = true) l → List.filter f l = l.
Proof.
  induction 1 as [|x l Hx _ IH]; [done|]. simpl. by rewrite Hx, IH.
Qed.

Lemma filter_none {A} (f : A → bool) (l : list A) :
  Forall (λ x, f x = false) l → List.filter f l = [].
Proof. induction 1 as [|x l Hx _ IH]; [done|]. simpl. by rewrite Hx. Qed.

Local Ltac counts := repeat (apply pair_equal_spec; split); lia.

Section Stats.
Variable E : engine.
Variable sched : nat → choice.

(** X10: a poll that hands out a query moves it, in the counts of the
    stats endpoint, from pending to processing in the project of the
    query; the other counts of that project, its total, and the counts of
    every other project stay as they were. *)
Theorem claim_moves_stats w id term pages :
  quiescent w → primary_key (committed w) →
  fst (get_next E sched w) = Done (Json_next id term pages) →
  ∃ q, q ∈ queries (committed w) ∧ q_id q = id
       ∧ ∀ p a b c t,
           stats (committed w) p = (a, b, c, t) →
           if bool_decide (q_project_id q = Some p)
           then ∃ a', a = S a'
                      ∧ stats (committed (snd (get_next E sched w))) p
                        = (a', S b, c, t)
           else stats (committed (snd (get_next E sched w))) p
                = (a, b, c, t).
Proof.
  intros Hq Hpk.
  destruct (get_next_step E sched w Hq Hpk) as [[_ ->]|(q & Hsel & ->)];
    [done|].
  simpl. intros [= <- _ _].
  apply select_next_Some in Hsel as (Hin & Hp & _).
  exists q. split_and!; [done..|].
  intros p a b c t. unfold stats. simpl.
  rewrite filter_project_claim, length_fmap.
  set (now := clock _).
  set (qs := List.filter _ (queries (committed w))).
  assert (NoDup (q_id <$> qs)) as Hnd by by apply filter_ids_NoDup.
  case_bool_decide as Hproj.
  - assert (q ∈ qs) as Hin'.
    { apply list_elem_of_In, filter_In. split; [by apply list_elem_of_In|].
      by apply bool_decide_eq_true. }
    pose proof (count_status_claim qs q now pending Hnd Hin' Hp) as H1.
    pose proof (count_status_claim qs q now processing Hnd Hin' Hp) as H2.
    pose proof (count_status_claim qs q now completed Hnd Hin' Hp) as H3.
    simpl in H1, H2, H3. intros [= <- <- <- <-].
    destruct (length (List.filter (λ r, bool_decide (q_status r = pending))
                        qs)) as [|a'] eqn:Ha; [lia|].
    exists a'. split; [done|]. counts.
  - rewrite claim_row_absent; [done|].
    intros (r & Hid & Hr)%list_elem_of_fmap. apply Hproj.
    apply list_elem_of_In, filter_In in Hr as [Hr Hrp].
    apply bool_decide_eq_true in Hrp. apply list_elem_of_In in Hr.
    by rewrite (primary_key_inj _ q r Hpk Hin Hr Hid).
Qed.

(** X11: an enqueue request that stores k rows, whether it succeeds or
    fails after them, raises the pending count and the total of its
    project by k and changes no other count; when it succeeds, k is the
    count it answers. *)
Theorem enqueue_adds_to_stats project_id body entries w :
  quiescent w →
  JS.field body "queries" = JS.VArr entries → entries ≠ [] →
  let ow := post_queries E sched project_id body w in
  ∃ k, (∀ n, fst ow = Done (Json_inserted n) → n = k)
       ∧ ∀ p a b c t,
           stats (committed w) p = (a, b, c, t) →
           stats (committed (snd ow)) p
           = if bool_decide (uuid_in E (JS.VStr project_id) = Some p)
             then ((a + k)%nat, b, c, (t + k)%nat)
             else (a, b, c, t).
Proof.
  intros Hq Hfield Hne ow.
  set (priority := match JS.field body "priority" with
                   | JS.VUndef => JS.VNum 0
                   | v => v
                   end).
  destruct (insert_queries_rows E sched project_id priority entries 0 w Hq)
    as (tr & rows & _ & Hc & _ & Hrows & _ & Hres).
  subst ow. rewrite (post_queries_array _ _ _ _ _ _ Hfield Hne).
  fold priority.
  assert (committed
            (snd match insert_queries E sched (JS.VStr project_id) priority
                         entries 0 w with
                 | (Done n, w') => (Done (Json_inserted n), w')
                 | (Thrown e, w') =>
                     (Done (Status500 "Failed to add queries" e), w')
                 | (Waiting, w') => (Waiting, w')
                 end)
          = with_queries (committed w) (queries (committed w) ++ rows))
    as -> by by destruct (insert_queries _ _ _ _ _ _ _) as [[n|e|] w'].
  exists (length rows). split.
  { destruct (insert_queries _ _ _ _ _ _ _) as [[n|e|] w']; simpl in *;
      try done.
    intros n' [= <-]. by destruct Hres as [-> _]. }
  assert (Forall (λ r, q_status r = pending
                       ∧ ∃ u, uuid_in E (JS.VStr project_id) = Some u
                              ∧ q_project_id r = Some u) rows) as Hall.
  { apply Forall_lookup. intros j r Hr.
    destruct (Hrows j r Hr) as (s & _ & (u & Hu & Hp & _) & _ & _ & Hst & _).
    split; [done|]. by exists u. }
  assert (∀ st, List.filter (λ r, bool_decide (q_status r = st)) rows
                = if bool_decide (st = pending) then rows else []) as Hst.
  { intros st. case_bool_decide as Heq.
    - apply filter_all. eapply Forall_impl; [exact Hall|].
      intros r [Hr _]. apply bool_decide_eq_true. by rewrite Hr.
    - apply filter_none. eapply Forall_impl; [exact Hall|].
      intros r [Hr _]. apply bool_decide_eq_false. by rewrite Hr. }
  intros p a b c t. unfold stats. simpl.
  rewrite List.filter_app, !List.filter_app, !length_app.
  assert (List.filter (λ r, bool_decide (q_project_id r = Some p)) rows
          = if bool_decide (uuid_in E (JS.VStr project_id) = Some p)
            then rows else []) as ->.
  { case_bool_decide as Hp.
    - apply filter_all. eapply Forall_impl; [exact Hall|].
      intros r (_ & u & Hu & Hr). apply bool_decide_eq_true. congruence.
    - apply filter_none. eapply Forall_impl; [exact Hall|].
      intros r (_ & u & Hu & Hr). apply bool_decide_eq_false. congruence. }
  intros [= <- <- <- <-]. case_bool_decide as Hp.
  - rewrite !Hst. simpl. counts.
  - simpl. counts.
Qed.

End Stats.

(** ** The statement of the query listing *)

(** X12: whichever filters a listing request carries, the placeholders of
    its statement number its parameters in order, each used once: a
    filter is present exactly when its value is truthy, its placeholder
    names its own value, and the two last placeholders name the parsed
    limit and offset, 50 and 0 when they are absent. *)
Theorem listing_placeholders parseInt status project_id limit offset :
  let l := list_queries parseInt status project_id limit offset in
  (snd <$> l_where l) ++ [l_limit l; l_offset l]
  = seq 1 (length (l_params l))
  ∧ fst <$> l_where l
    = (if JS.truthy status then ["q.status"%string] else [])
      ++ (if JS.truthy project_id then ["q.project_id"%string] else [])
  ∧ Forall (λ '(col, k),
              l_params l !! (k - 1)%nat
              = Some (if String.eqb col "q.status" then status
                      else project_id))
      (l_where l)
  ∧ l_params l !! (l_limit l - 1)%nat
    = Some (parseInt match limit with JS.VUndef => JS.VNum 50 | v => v end)
  ∧ l_params l !! (l_offset l - 1)%nat
    = Some (parseInt match offset with JS.VUndef => JS.VNum 0 | v => v end).
Proof.
  unfold list_queries.
  destruct (JS.truthy status), (JS.truthy project_id); simpl;
    split_and!; try done; by repeat constructor.
Qed.

(** ** Invariants of a run *)

Lemma status_of_is_Some d id : id ∈ ids d ↔ is_Some (status_of d id).
Proof.
  unfold ids, status_of. split.
  - intros (q & -> & Hq)%list_elem_of_fmap.
    destruct (List.find _ _) as [r|] eqn:Hfind; [by eexists|].
    apply list_elem_of_In in Hq. apply (find_none _ _ Hfind) in Hq.
    by rewrite bool_decide_eq_true_2 in Hq.
  - intros [st Hst].
    destruct (List.find _ _) as [r|] eqn:Hfind; [|done].
    apply find_some in Hfind as [Hr Hid%bool_decide_eq_true].
    apply list_elem_of_fmap. exists r. split; [done|].
    by apply list_elem_of_In.
Qed.

(** X15: along any run of claim, submission and enqueue requests, each
    request served by one session, every request ends with no transaction
    block open, the ids of [queries] stay unique, and no query is ever
    removed. *)
Theorem run_invariants E sched API_KEY c rs w :
  (∀ n, on_session (sched n) = c) →
  quiescent w → primary_key (committed w) →
  ∀ k wk, worlds E sched API_KEY rs w !! k = Some wk →
    quiescent wk ∧ primary_key (committed wk)
    ∧ ∀ id, id ∈ ids (committed w) → id ∈ ids (committed wk).
Proof.
  intros Hsame. revert w.
  induction rs as [|r rs IH]; intros w Hq Hpk k wk Hk.
  - destruct k as [|k]; [|done]. by injection Hk as <-.
  - rewrite worlds_cons in Hk. destruct k as [|k].
    { by injection Hk as <-. }
    destruct (serve_step E sched API_KEY c Hsame r w Hq Hpk)
      as (Hq' & Hpk' & Hstep).
    destruct (IH _ Hq' Hpk' k wk Hk) as (Hqk & Hpkk & Hids).
    split_and!; [done..|]. intros id Hid. apply Hids.
    apply status_of_is_Some in Hid as [st Hst].
    destruct (Hstep id st Hst) as (st' & Hst' & _).
    apply status_of_is_Some. by eexists.
Qed.

(** ** The statements of a whole submission *)

Lemma emits_ret {A} (a : A) : emits [] (ret a).
Proof. intros w. exists []. by rewrite app_nil_r. Qed.

Lemma emits_throw {A} l e : emits l (@throw A e).
Proof.
  intros w. exists []. rewrite app_nil_r. split; [done|]. apply prefix_nil.
Qed.

Lemma emits_bind {A B} l1 l2 (m : M A) (k : A → M B) :
  emits l1 m → (∀ a, emits l2 (k a)) → emits (l1 ++ l2) (bind m k).
Proof.
  intros Hm Hk w. unfold bind. destruct (Hm w) as (tr & Htr & Hl).
  destruct (m w) as [[a|e|] w']; simpl in *;
    [|exists tr; split; [done|by apply prefix_app_r]..].
  destruct (Hk a w') as (tr' & Htr' & Hl').
  exists (tr ++ tr'). split; [by rewrite Htr', Htr, app_assoc|].
  rewrite fmap_app, Hl.
  destruct (fst (k a w')); [by rewrite Hl'|by apply prefix_app..].
Qed.

Lemma emits_get {A} l o k (f : JS.value → M A) :
  emits l (f (read o k)) → emits l (bind (get o k) f).
Proof.
  unfold get, read, bind. destruct (JS.prop o k); [done|].
  intros _. apply emits_throw.
Qed.

Lemma emits_for_each {A} (L : A → list statement) (body : A → M unit) l :
  (∀ x, emits (L x) (body x)) → emits (l ≫= L) (for_each body l).
Proof.
  intros Hbody. induction l as [|x l IH]; [apply emits_ret|].
  by apply emits_bind.
Qed.

Lemma emits_for_of L v body :
  (∀ x, emits (L x) (body x)) →
  emits (default [] (JS.iterate v) ≫= L) (for_of v body).
Proof.
  intros Hbody. unfold for_of. destruct (JS.iterate v); simpl.
  - by apply emits_for_each.
  - apply emits_throw.
Qed.

Section Whole_submission.
Variable E : engine.
Variable sched : nat → choice.

Lemma emits_query s : emits [s] (pool_query E sched s).
Proof.
  intros w. eexists. split; [apply pool_query_trace|].
  by destruct (fst _).
Qed.

Lemma emits_query_unit s :
  emits [s] (bind (pool_query E sched s) (λ _, ret ())).
Proof.
  apply (emits_bind [s] []); [apply emits_query|]. intros _. apply emits_ret.
Qed.

Lemma emits_submission_block body :
  emits (statements_of_submission body) (submission_block E sched body).
Proof.
  unfold statements_of_submission, submission_block.
  apply emits_bind; [|intros _; apply emits_bind; [|intros _]].
  - unfold insert_results. apply emits_for_of. intros page.
    apply emits_get. unfold result_inserts.
    destruct (JS.truthy _ && JS.isArray _); [|apply emits_ret].
    apply emits_for_of. intros result.
    repeat apply emits_get. apply emits_query_unit.
  - unfold insert_suggestions.
    destruct (JS.truthy _ && JS.isArray _); [|apply emits_ret].
    apply emits_for_of. intros suggestion. apply emits_query_unit.
  - apply emits_bind; [|intros _; apply emits_query].
    unfold insert_related.
    destruct (JS.truthy _ && JS.isArray _); [|apply emits_ret].
    apply emits_for_of. intros related. apply emits_query_unit.
Qed.

(** X16: in any state of the pool, a submission that answers success has
    issued [BEGIN], then one insert for every result of every page in the
    order of the body (the result type [organic] where none is given),
    one for every suggestion, one for every related search, the update to
    [completed], and [COMMIT]. A submission that answers 500 has issued
    [BEGIN], the first k of these statements for some k, and [ROLLBACK]. *)
Theorem submission_issues_every_row body w :
  (fst (post_results E sched body w) = Done Json_success →
   issued_since w (snd (post_results E sched body w))
   = BEGIN :: statements_of_submission body ++ [COMMIT])
  ∧ (∀ message e,
       fst (post_results E sched body w) = Done (Status500 message e) →
       ∃ k, issued_since w (snd (post_results E sched body w))
            = BEGIN :: take k (statements_of_submission body)
              ++ [ROLLBACK]).
Proof.
  destruct (JS.truthy (JS.field body "query_id")) eqn:Hid; cycle 1.
  { unfold post_results. rewrite Hid. by split. }
  destruct (JS.truthy (JS.field body "pages")) eqn:Hpages; cycle 1.
  { unfold post_results. rewrite Hid, Hpages. by split. }
  rewrite post_results_block by done.
  unfold try_catch, bind, handleError, ret.
  pose proof (pool_query_trace E sched BEGIN w) as HtB.
  destruct (pool_query E sched BEGIN w) as [oB w0]; simpl in *.
  destruct oB as [rB|eB|]; [| |done].
  - destruct (emits_submission_block body w0) as (tr & Htr & Hl).
    destruct (submission_block E sched body w0) as [o1 w1]; simpl in *.
    destruct o1 as [r1|e1|]; [| |done].
    + pose proof (pool_query_trace E sched COMMIT w1) as HtC.
      pose proof (transaction_control_done E sched COMMIT w1
                    (or_introl eq_refl)) as Hc.
      destruct (pool_query E sched COMMIT w1) as [oC w2]. simpl in *.
      subst oC. simpl. split; [intros _|done].
      erewrite issued_since_app;
        [|by rewrite HtC, Htr, HtB, <-!app_assoc].
      simpl. by rewrite fmap_app, Hl.
    + simpl. split; [done|]. intros _ _ _. destruct Hl as [rest Hl].
      exists (length (snd <$> tr)).
      erewrite issued_since_app;
        [|simpl; by rewrite Htr, HtB, <-!app_assoc].
      simpl. by rewrite fmap_app, Hl, take_app_length.
  - simpl. split; [done|]. intros _ _ _. exists 0%nat.
    erewrite issued_since_app; [|simpl; by rewrite HtB, <-!app_assoc].
    by rewrite take_0.
Qed.

End Whole_submission.

(** ** Overlapping claims *)

(** One caller alone: the two steps of the statement give what the handler
    gives when the statement is taken as one step. *)
Lemma claim_alone E sched w :
  quiescent w →
  let ch := sched (length (trace w)) in
  let s := overlapping (committed w) [Subquery 0; Update 0 (clock ch)] in
  store s = committed (snd (get_next E sched w))
  ∧ (Done <$> answered s !! 0%nat) = Some (fst (get_next E sched w)).
Proof.
  intros Hq. rewrite get_next_quiescent by done.
  unfold overlapping. simpl. rewrite lookup_insert_eq.
  unfold claim_subquery.
  destruct (select_next (committed w)) as [q|]; simpl;
    by rewrite lookup_insert_eq.
Qed.

Lemma returning_claim_row id id' now (qs : list query) :
  returning id (claim_row id' now <$> qs) = returning id qs.
Proof.
  unfold returning. induction qs as [|r qs IH]; [done|].
  rewrite fmap_cons. simpl. rewrite claim_row_id.
  case_bool_decide; [|done]. rewrite !fmap_cons, IH. f_equal.
  unfold claim_row. by case_bool_decide.
Qed.

Lemma subqueries_run d callers ch an :
  foldl claim_step_run {| store := d; chosen := ch; answered := an |}
    (Subquery <$> callers)
  = {| store := d;
       chosen := foldl (λ m c, <[c := claim_subquery d]> m) ch callers;
       answered := an |}.
Proof.
  revert ch. induction callers as [|c callers IH]; intros ch; [done|].
  rewrite fmap_cons. simpl. by rewrite IH.
Qed.

Lemma subqueries_chosen d (callers : list nat) (ch : gmap nat (option uuid)) c :
  c ∈ callers ∨ ch !! c = Some (claim_subquery d) →
  foldl (λ m c, <[c := claim_subquery d]> m) ch callers !! c
  = Some (claim_subquery d).
Proof.
  revert ch. induction callers as [|c' callers IH]; intros ch Hc; simpl.
  - destruct Hc as [Hc|Hc]; [by apply elem_of_nil in Hc|done].
  - apply IH. destruct Hc as [Hc|Hc].
    + apply elem_of_cons in Hc as [->|Hc]; [right|by left].
      apply lookup_insert_eq.
    + right. destruct (decide (c' = c)) as [->|Hne].
      * apply lookup_insert_eq.
      * by rewrite lookup_insert_ne.
Qed.

Lemma updates_run q (now : nat → timestamp) callers s :
  NoDup callers →
  returning (q_id q) (queries (store s)) = [(q_id q, q_search_term q)] →
  (∀ c, c ∈ callers → chosen s !! c = Some (Some (q_id q))) →
  let s' := foldl claim_step_run s ((λ c, Update c (now c)) <$> callers) in
  (∀ c, c ∈ callers →
     answered s' !! c = Some (Json_next (q_id q) (q_search_term q) 5))
  ∧ ∀ c, c ∉ callers → answered s' !! c = answered s !! c.
Proof.
  revert s. induction callers as [|c callers IH]; intros s Hnd Hret Hch.
  - simpl. split; [by intros c ?%elem_of_nil|done].
  - apply NoDup_cons in Hnd as [Hc Hnd]. rewrite fmap_cons. simpl.
    rewrite (Hch c) by apply list_elem_of_here. simpl. rewrite Hret.
    set (s1 := {| store := _ |}).
    destruct (IH s1 Hnd) as [Hin Hout].
    { subst s1. simpl. by rewrite returning_claim_row. }
    { intros c' Hc'. subst s1. simpl. rewrite lookup_delete_ne.
      - apply Hch. by apply list_elem_of_further.
      - by intros ->. }
    split.
    + intros c' [->|Hc']%elem_of_cons; [|by apply Hin].
      rewrite Hout by done. subst s1. simpl. apply lookup_insert_eq.
    + intros c' [Hne Hc']%not_elem_of_cons. rewrite Hout by done.
      subst s1. simpl. by rewrite lookup_insert_ne.
Qed.

(** Whatever the number of callers: when all of them evaluate the subquery
    before the first update, every one of them is handed the query the
    subquery selects. *)
Lemma all_at_once_all_answered d q callers now c :
  primary_key d → select_next d = Some q → NoDup callers → c ∈ callers →
  answered (overlapping d (all_at_once callers now)) !! c
  = Some (Json_next (q_id q) (q_search_term q) 5).
Proof.
  intros Hpk Hsel Hnd Hc. unfold overlapping, all_at_once.
  rewrite foldl_app, subqueries_run.
  apply select_next_Some in Hsel as Hq. destruct Hq as (Hin & _ & _).
  apply (updates_run q now callers); [done|..|done].
  - simpl. by apply returning_primary_key.
  - intros c' Hc'. simpl. rewrite subqueries_chosen by by left.
    unfold claim_subquery. by rewrite Hsel.
Qed.

(** C1: two polls that overlap on a store with exactly one pending query
    are both handed that query. Each evaluates the subquery while the query
    is pending; the second update waits for the first one to commit and
    then claims the row again, for its condition is the id alone. *)
Theorem overlapping_claims_share_row :
  let d := committed Sample.one_pending in
  let s := overlapping d [Subquery 0; Subquery 1;
                          Update 0 2000; Update 1 2001] in
  (∀ q, q ∈ queries d → q_status q = pending →
        q = Sample.row Sample.a_text (JS.lit "foo") pending (Some 0) 1000)
  ∧ answered s !! 0%nat
    = Some (Json_next (Sample.id_of Sample.a_text) (JS.lit "foo") 5)
  ∧ answered s !! 1%nat
    = Some (Json_next (Sample.id_of Sample.a_text) (JS.lit "foo") 5)
  ∧ status_of (store s) (Sample.id_of Sample.a_text) = Some processing.
Proof.
  assert (primary_key (committed Sample.one_pending)) as Hpk
    by (unfold primary_key; by_computation).
  assert (select_next (committed Sample.one_pending)
          = Some (Sample.row Sample.a_text (JS.lit "foo") pending (Some 0)
                    1000)) as Hsel by (vm_compute; reflexivity).
  assert (NoDup [0%nat; 1%nat]) as Hnd by by_computation.
  pose proof (all_at_once_all_answered _ _ [0%nat; 1%nat]
                (λ c, 2000 + Z.of_nat c) 0%nat Hpk Hsel Hnd
                ltac:(apply list_elem_of_here)) as H0.
  pose proof (all_at_once_all_answered _ _ [0%nat; 1%nat]
                (λ c, 2000 + Z.of_nat c) 1%nat Hpk Hsel Hnd
                ltac:(apply list_elem_of_further, list_elem_of_here)) as H1.
  cbv zeta. split_and!.
  - intros q Hin _. by apply list_elem_of_singleton in Hin.
  - exact H0.
  - exact H1.
  - vm_compute. reflexivity.
Qed.

(** ** The order of claims on integer priorities *)

(** While every pending query has an integer priority, the claims follow
    the order of the specification as it words it. *)
Lemma claim_order_on_integers E sched n w :
  quiescent w → primary_key (committed w) →
  (∀ q, q ∈ queries (committed w) → q_status q = pending →
        is_Some (q_priority q)) →
  highest_priority_first (fst (get_next E sched w)) (committed w)
  ∧ descending_priority (polls E sched n w) (committed w).
Proof.
  intros Hq Hpk Hint.
  destruct (claim_order E sched w Hq Hpk) as [Hfirst Hpolls]. split.
  - intros q t m Hin Hans q' p' Hin' Hp' Hprio'.
    destruct Hfirst as (q0 & Hin0 & Hp0 & Hans0 & Hbest); [by exists q'|].
    rewrite Hans0 in Hans. injection Hans as Hid _ _.
    rewrite (primary_key_inj _ q0 q Hpk Hin0 Hin Hid) in *.
    destruct (Hint q Hin Hp0) as [p Hp].
    destruct (Hbest q' Hin' Hp') as [Hle Htie].
    rewrite Hprio', Hp in Hle, Htie. exists p. split_and!; [done..|].
    intros ->. by apply Htie.
  - intros i j qi qj ti tj mi mj Hij Hini Hinj Hi Hj.
    assert (∀ k q t m, q ∈ queries (committed w) →
              polls E sched n w !! k = Some (Done (Json_next (q_id q) t m)) →
              is_Some (q_priority q)) as Hhanded.
    { intros k q t m Hin Hk.
      destruct (polls_answers E sched n w k _ Hq Hpk Hk)
        as [[=]|(q0 & Hin0 & Hp0 & [= Hid _ _])].
      rewrite <-(primary_key_inj _ q q0 Hpk Hin Hin0 Hid) in Hp0.
      by apply Hint. }
    destruct (Hhanded i qi ti mi Hini Hi) as [pi Hpi].
    destruct (Hhanded j qj tj mj Hinj Hj) as [pj Hpj].
    destruct (Hpolls n i j qi qj ti tj mi mj Hij Hini Hinj Hi Hj)
      as (Hle & Htie & _).
    rewrite Hpi, Hpj in Hle, Htie. simpl in Hle.
    exists pi, pj. split_and!; [done..|].
    destruct (decide (pj = pi)) as [->|Hne]; [right|left; lia].
    split; [done|]. by apply Htie.
Qed.

(** C3: an enqueue request with [priority: null] stores a query without a
    priority, since the default [priority = 0] of the handler applies to a
    missing priority only, and [ORDER BY priority DESC] puts NULL first:
    the next poll hands out that query although a query of priority 5 is
    pending, so the claim is not of the highest priority. *)
Theorem null_priority_claimed_first :
  let ow := post_queries Reference.pg Sample.one_session Sample.project_text
              Edge.no_priority Edge.urgent in
  fst ow = Done (Json_inserted 1)
  ∧ (λ q, (q_search_term q, q_status q, q_priority q))
      <$> queries (committed (snd ow))
    = [(JS.lit "foo", pending, Some 5); (JS.lit "bar", pending, None)]
  ∧ fst (get_next Reference.pg Sample.one_session (snd ow))
    = Done (Json_next 4096%N (JS.lit "bar") 5)
  ∧ ¬ highest_priority_first
        (fst (get_next Reference.pg Sample.one_session (snd ow)))
        (committed (snd ow)).
Proof.
  cbv zeta. split_and!; [vm_compute; reflexivity..|].
  intros Hclaim.
  set (w1 := snd (post_queries _ _ _ _ _)) in *.
  assert (queries (committed w1)
          = [Sample.row Sample.a_text (JS.lit "foo") pending (Some 5) 1000;
             {| q_id := 4096%N;
                q_project_id := Some (Sample.id_of Sample.project_text);
                q_search_term := JS.lit "bar"; q_status := pending;
                q_priority := None; q_created_at := 2000;
                q_processed_at := None |}]) as Hqs
    by (vm_compute; reflexivity).
  destruct (Hclaim {| q_id := 4096%N;
                      q_project_id := Some (Sample.id_of Sample.project_text);
                      q_search_term := JS.lit "bar"; q_status := pending;
                      q_priority := None; q_created_at := 2000;
                      q_processed_at := None |} (JS.lit "bar") 5)
    with (q' := Sample.row Sample.a_text (JS.lit "foo") pending (Some 5) 1000)
         (p' := 5) as (p & [=] & _).
  - rewrite Hqs. apply list_elem_of_further, list_elem_of_here.
  - vm_compute. reflexivity.
  - rewrite Hqs. apply list_elem_of_here.
  - reflexivity.
  - reflexivity.
Qed.

(** ** The rows of a submission *)

Lemma exec_stored E now fresh d s ws rows :
  child_insert s = true → exec E now fresh d s = Rows ws rows →
  ∃ x, ws = [x] ∧ stored E s = Some x.
Proof.
  destruct s as [| | | |a pn pos ti url dom de ty|a b|a b| |]; try done;
    intros _; unfold exec, stored.
  - destruct (result_row _ _ _ _ _ _ _ _ _) as [r|]; [|done].
    destruct (references_query _ _); [|done]. intros [= <- _]. by eexists.
  - destruct (column (uuid_in E) a) as [qid|], (column (text_in E) b) as [sg|];
      try done.
    destruct (references_query _ _); [|done]. intros [= <- _]. by eexists.
  - destruct (column (uuid_in E) a) as [qid|], (column (text_in E) b) as [sg|];
      try done.
    destruct (references_query _ _); [|done]. intros [= <- _]. by eexists.
Qed.

Lemma stored_submission_write E s x :
  stored E s = Some x → submission_write x = true.
Proof.
  destruct s as [| | | |a pn pos ti url dom de ty|a b|a b| |]; try done;
    unfold stored.
  - destruct (result_row _ _ _ _ _ _ _ _ _); [|done]. by intros [= <-].
  - destruct (column (uuid_in E) a), (column (text_in E) b); try done.
    by intros [= <-].
  - destruct (column (uuid_in E) a), (column (text_in E) b); try done.
    by intros [= <-].
Qed.

Lemma stored_rows_unique E l log1 log2 :
  Forall2 (λ s x, stored E s = Some x) l log1 →
  Forall2 (λ s x, stored E s = Some x) l log2 → log1 = log2.
Proof.
  intros H1. revert log2.
  induction H1 as [|s x l log1 Hs _ IH]; intros log2 H2.
  - by apply Forall2_nil_inv_l in H2.
  - apply Forall2_cons_inv_l in H2 as (y & log2' & Hy & H2 & ->).
    rewrite Hs in Hy. injection Hy as <-. f_equal. by apply IH.
Qed.

Lemma written_without_status log u (b : bool) :
  written_results (log ++ if b then [W_status u completed] else [])
  = written_results log
  ∧ written_suggestions (log ++ if b then [W_status u completed] else [])
    = written_suggestions log
  ∧ written_related (log ++ if b then [W_status u completed] else [])
    = written_related log.
Proof.
  unfold written_results, written_suggestions, written_related.
  rewrite !bind_app. destruct b; simpl; by rewrite !app_nil_r.
Qed.

Section Rows.
Variable E : engine.
Variable sched : nat → choice.
Variable c : nat.
Hypothesis same_session : ∀ n, on_session (sched n) = c.

Lemma stores_ret {A} (a : A) : stores_rows E c [] (ret a).
Proof.
  intros w log Hb. exists []. rewrite app_nil_r. by split_and!.
Qed.

Lemma stores_throw {A} l e : stores_rows E c l (@throw A e).
Proof. by intros w log Hb. Qed.

Lemma stores_bind {A B} l1 l2 (m : M A) (k : A → M B) :
  stores_rows E c l1 m → (∀ a, stores_rows E c l2 (k a)) →
  stores_rows E c (l1 ++ l2) (bind m k).
Proof.
  intros Hm Hk w log Hb. unfold bind. specialize (Hm w log Hb).
  destruct (m w) as [[a|e|] w']; simpl in *; [|done..].
  destruct Hm as (log1 & Hb1 & Hc1 & Hl1).
  specialize (Hk a w' _ Hb1). destruct (fst (k a w')); [|done..].
  destruct Hk as (log2 & Hb2 & Hc2 & Hl2).
  exists (log1 ++ log2). rewrite app_assoc. split_and!; [done| |].
  - by rewrite Hc2.
  - by apply Forall2_app.
Qed.

Lemma stores_get {A} l o k (f : JS.value → M A) :
  stores_rows E c l (f (read o k)) → stores_rows E c l (bind (get o k) f).
Proof.
  unfold get, read, bind. destruct (JS.prop o k); [done|].
  intros _. apply stores_throw.
Qed.

Lemma stores_for_each {A} (L : A → list statement) (body : A → M unit) l :
  (∀ x, stores_rows E c (L x) (body x)) →
  stores_rows E c (l ≫= L) (for_each body l).
Proof.
  intros Hbody. induction l as [|x l IH]; [apply stores_ret|].
  by apply stores_bind.
Qed.

Lemma stores_for_of L v body :
  (∀ x, stores_rows E c (L x) (body x)) →
  stores_rows E c (default [] (JS.iterate v) ≫= L) (for_of v body).
Proof.
  intros Hbody. unfold for_of. destruct (JS.iterate v); simpl.
  - by apply stores_for_each.
  - apply stores_throw.
Qed.

Lemma stores_query s :
  child_insert s = true →
  stores_rows E c [s] (bind (pool_query E sched s) (λ _, ret ())).
Proof.
  intros Hs w log [start Hb]. unfold bind.
  assert (pool_query E sched s w
          = run_statement E (sched (length (trace w))) s
              (issued w (on_session (sched (length (trace w)))) s))
    as -> by (unfold pool_query; by destruct s).
  rewrite (run_statement_in_block E c _ _ _ start log) by done.
  simpl.
  destruct (exec E start _ _ s) as [ws rows|e] eqn:Hex; simpl; [|done].
  apply exec_stored in Hex as (x & -> & Hx); [|done].
  exists [x]. split_and!; [|done|by constructor].
  exists start. simpl. rewrite Hb. apply insert_singleton_eq.
Qed.

Lemma stores_submission_inserts body :
  stores_rows E c (inserts_of_submission body)
    (submission_inserts E sched body).
Proof.
  unfold inserts_of_submission, submission_inserts.
  apply stores_bind; [|intros _; apply stores_bind; [|intros _]].
  - unfold insert_results. apply stores_for_of. intros page.
    apply stores_get. unfold result_inserts.
    destruct (JS.truthy _ && JS.isArray _); [|apply stores_ret].
    apply stores_for_of. intros result.
    repeat apply stores_get. by apply stores_query.
  - unfold insert_suggestions.
    destruct (JS.truthy _ && JS.isArray _); [|apply stores_ret].
    apply stores_for_of. intros suggestion. by apply stores_query.
  - unfold insert_related.
    destruct (JS.truthy _ && JS.isArray _); [|apply stores_ret].
    apply stores_for_of. intros related. by apply stores_query.
Qed.

(** The rows a submission has stored when it answers with success. *)
Lemma post_results_rows body w :
  quiescent w →
  fst (post_results E sched body w) = Done Json_success →
  ∃ log,
    Forall2 (λ s x, stored E s = Some x) (inserts_of_submission body) log
    ∧ quiescent (snd (post_results E sched body w))
    ∧ ids (committed (snd (post_results E sched body w)))
      = ids (committed w)
    ∧ results (committed (snd (post_results E sched body w)))
      = results (committed w) ++ written_results log
    ∧ suggestions (committed (snd (post_results E sched body w)))
      = suggestions (committed w) ++ written_suggestions log
    ∧ related_searches (committed (snd (post_results E sched body w)))
      = related_searches (committed w) ++ written_related log.
Proof.
  intros Hq.
  destruct (JS.truthy (JS.field body "query_id")) eqn:Hid; cycle 1.
  { unfold post_results. by rewrite Hid. }
  destruct (JS.truthy (JS.field body "pages")) eqn:Hpages; cycle 1.
  { unfold post_results. by rewrite Hid, Hpages. }
  pose proof (truthy_not_null _ Hid) as Hnull.
  destruct (post_results E sched body w) as [o w'] eqn:Hpr. simpl.
  intros ->. rewrite post_results_block in Hpr by done.
  unfold try_catch, bind in Hpr.
  destruct (begin_quiescent E sched c same_session w Hq)
    as (w0 & HB & Hc0 & Hb0).
  rewrite HB, submission_block_inserts in Hpr. unfold bind in Hpr.
  pose proof (stores_submission_inserts body w0 [] Hb0) as Hpost.
  destruct (submission_inserts E sched body w0) as [[[]|e|] w1];
    simpl in Hpost; cycle 1.
  { by destruct (rollback_done E sched w1) as (v' & HR & _);
      rewrite HR in Hpr. }
  { done. }
  destruct Hpost as (log & Hb1 & Hc1 & Hlog).
  assert (Forall (λ x, submission_write x = true) log) as Hsw.
  { clear -Hlog. induction Hlog as [|s x l log Hs _ IH]; constructor;
      [by eapply stored_submission_write|done]. }
  pose proof (update_status_in_block E sched c same_session
                (JS.field body "query_id") w1 log Hb1 Hnull) as Hupd.
  destruct (uuid_in E (JS.field body "query_id")) as [u|].
  - destruct Hupd as (w2 & HU & Hc2 & Hb2). rewrite HU in Hpr.
    destruct (commit_in_block E sched c same_session w2 _ Hb2)
      as (w3 & HC & Hc3 & Hq3).
    rewrite HC in Hpr. injection Hpr as <-.
    exists log. split; [done|]. split; [done|].
    rewrite Hc3, Hc2, Hc1, Hc0.
    destruct (children_apply_writes (committed w)
                (log ++ if bool_decide
                             (u ∈ ids (apply_writes (committed w) log))
                        then [W_status u completed] else []))
      as (Hr & Hs & Ht).
    destruct (written_without_status log u
                (bool_decide (u ∈ ids (apply_writes (committed w) log))))
      as (Hwr & Hws & Hwt).
    rewrite Hr, Hs, Ht, Hwr, Hws, Hwt. split; [|done].
    apply ids_apply_writes, Forall_app. split; [done|].
    case_bool_decide; by repeat constructor.
  - destruct Hupd as (e & w2 & HU). rewrite HU in Hpr.
    by destruct (rollback_done E sched w2) as (v' & HR & _);
      rewrite HR in Hpr.
Qed.

End Rows.

(** C8: when one session serves the calls of each submission, a
    submission that is accepted stores one row for every result of every
    page, every suggestion and every related search of its body, each
    with the values of its insert. A second submission of the same body
    is accepted again and appends the same rows a second time: afterwards
    each child table holds the rows it had, then the rows of the first
    submission, then the same rows again. Whatever the body of a later
    submission is, the rows stored so far stay, and its own rows come
    after them. *)
Theorem resubmission_appends E sched c body w :
  (∀ n, on_session (sched n) = c) → quiescent w →
  let ow1 := post_results E sched body w in
  let ow2 := post_results E sched body (snd ow1) in
  fst ow1 = Done Json_success →
  (fst ow2 = Done Json_success
   ∧ ∃ log,
       Forall2 (λ s x, stored E s = Some x) (inserts_of_submission body) log
       ∧ results (committed (snd ow1))
         = results (committed w) ++ written_results log
       ∧ results (committed (snd ow2))
         = results (committed w) ++ written_results log
             ++ written_results log
       ∧ suggestions (committed (snd ow1))
         = suggestions (committed w) ++ written_suggestions log
       ∧ suggestions (committed (snd ow2))
         = suggestions (committed w) ++ written_suggestions log
             ++ written_suggestions log
       ∧ related_searches (committed (snd ow1))
         = related_searches (committed w) ++ written_related log
       ∧ related_searches (committed (snd ow2))
         = related_searches (committed w) ++ written_related log
             ++ written_related log)
  ∧ ∀ body',
      ∃ rs ss ts,
        results (committed (snd (post_results E sched body' (snd ow1))))
        = results (committed (snd ow1)) ++ rs
        ∧ suggestions (committed (snd (post_results E sched body' (snd ow1))))
          = suggestions (committed (snd ow1)) ++ ss
        ∧ related_searches
            (committed (snd (post_results E sched body' (snd ow1))))
          = related_searches (committed (snd ow1)) ++ ts.
Proof.
  intros Hsame Hq. cbv zeta. intros Hok.
  destruct (post_results_rows E sched c Hsame body w Hq Hok)
    as (log & Hlog & Hq1 & Hids & Hr1 & Hs1 & Ht1).
  split; [|intros body'; by eapply post_results_keeps_children].
  destruct (post_results_pair E sched c Hsame body w _ Hq Hq1
              (eq_sym Hids)) as (Heq & _).
  assert (fst (post_results E sched body
                 (snd (post_results E sched body w))) = Done Json_success)
    as Hok2 by congruence.
  split; [done|].
  destruct (post_results_rows E sched c Hsame body _ Hq1 Hok2)
    as (log2 & Hlog2 & _ & _ & Hr2 & Hs2 & Ht2).
  rewrite (stored_rows_unique E _ _ _ Hlog2 Hlog) in Hr2, Hs2, Ht2.
  exists log. rewrite Hr2, Hs2, Ht2, Hr1, Hs1, Ht1.
  by rewrite <-!app_assoc.
Qed.

(** * Further worked examples *)

Section Further_examples.
Import Sample Edge.
Local Abbreviation pg := Reference.pg.

Lemma api_key_acceptance_witness :
  key ≠ []
  ∧ route_next pg one_session (Some key) (Some key) one_pending
    = get_next pg one_session one_pending
  ∧ route_next pg one_session None (Some key) one_pending
    = (Done (Status401 "Invalid API key"), one_pending).
Proof.
  assert (key ≠ []) as Hkey by discriminate.
  split; [exact Hkey|]. split.
  - exact (proj1 (proj1 (api_key_acceptance pg one_session (Some key)
                           submission one_pending) key Hkey eq_refl)).
  - exact (proj1 (proj2 (api_key_acceptance pg one_session None
                           submission one_pending) (or_introl eq_refl)
                    (Some key))).
Defined.

Lemma submission_rejected_iff_falsy_witness :
  JS.truthy (JS.field empty_id "query_id") = false
  ∧ fst (post_results pg one_session empty_id one_pending)
    = Done (Status400 "Missing required fields: query_id, pages")
  ∧ snd (post_results pg one_session empty_id one_pending) = one_pending.
Proof.
  split; [reflexivity|].
  destruct (submission_rejected_iff_falsy pg one_session empty_id
              one_pending) as [Hiff Hsame].
  pose proof (proj2 Hiff (or_introl eq_refl)) as Hr.
  split; [exact Hr|exact (Hsame Hr)].
Defined.

Lemma submission_statements_witness :
  JS.truthy (JS.field submission "query_id") = true
  ∧ JS.truthy (JS.field submission "pages") = true
  ∧ ∃ mid,
      Forall (submission_insert (JS.field submission "query_id")) mid
      ∧ issued_since one_processing
          (snd (post_results pg one_session submission one_processing))
        = BEGIN :: mid ++ [COMMIT].
Proof.
  split; [reflexivity|]. split; [reflexivity|].
  destruct (submission_statements pg one_session submission one_processing
              eq_refl eq_refl) as (mid & Hall & Hmid).
  exists mid. split; [exact Hall|].
  assert (fst (post_results pg one_session submission one_processing)
          = Done Json_success) as Hok by (vm_compute; reflexivity).
  rewrite Hok in Hmid. exact Hmid.
Defined.

Lemma enqueue_rejected_iff_no_array_witness :
  (∀ v l, JS.field no_array "queries" ≠ JS.VArr (v :: l))
  ∧ fst (post_queries pg one_session project_text no_array no_queries)
    = Done (Status400 "Queries array is required")
  ∧ snd (post_queries pg one_session project_text no_array no_queries)
    = no_queries.
Proof.
  assert (∀ v l, JS.field no_array "queries" ≠ JS.VArr (v :: l)) as Hno
    by discriminate.
  split; [exact Hno|].
  destruct (enqueue_rejected_iff_no_array pg one_session project_text
              no_array no_queries) as [Hiff Hsame].
  pose proof (proj2 Hiff Hno) as Hr.
  split; [exact Hr|exact (Hsame Hr)].
Defined.

Lemma enqueue_stores_rows_witness :
  quiescent three_pending
  ∧ JS.field enqueue "queries" = JS.VArr entries
  ∧ entries ≠ []
  ∧ ∃ rows,
      committed (snd (post_queries pg one_session project_text enqueue
                        three_pending))
      = with_queries (committed three_pending)
          (queries (committed three_pending) ++ rows)
      ∧ ∀ j r, rows !! j = Some r →
          ∃ s, kept entries !! j = Some s
               ∧ enqueued_row pg one_session project_text (JS.VNum 10)
                   (projects (committed three_pending))
                   (length (trace three_pending) + j) s r.
Proof.
  assert (entries ≠ []) as Hne by discriminate.
  split; [reflexivity|]. split; [reflexivity|]. split; [exact Hne|].
  exact (enqueue_stores_rows pg one_session project_text enqueue entries
           three_pending eq_refl eq_refl Hne).
Defined.

Lemma enqueue_failure_keeps_rows_witness :
  quiescent no_queries
  ∧ JS.field nul_enqueue "queries" = JS.VArr nul_entries
  ∧ nul_entries ≠ []
  ∧ fst (post_queries pg one_session project_text nul_enqueue no_queries)
    = Done (Status500 "Failed to add queries" (DbError invalid_input))
  ∧ ∃ k rows,
      (k < length (kept nul_entries))%nat
      ∧ issued_since no_queries
          (snd (post_queries pg one_session project_text nul_enqueue
                  no_queries))
        = insert_of project_text (JS.VNum 0)
            <$> take (S k) (kept nul_entries)
      ∧ queries (committed (snd (post_queries pg one_session project_text
                                   nul_enqueue no_queries)))
        = queries (committed no_queries) ++ rows
      ∧ Forall2 (λ r s, text_in pg (JS.VStr s) = Some (q_search_term r)
                        ∧ q_status r = pending)
          rows (take k (kept nul_entries)).
Proof.
  assert (nul_entries ≠ []) as Hne by discriminate.
  assert (fst (post_queries pg one_session project_text nul_enqueue
                 no_queries)
          = Done (Status500 "Failed to add queries" (DbError invalid_input)))
    as Hfail by (vm_compute; reflexivity).
  split; [reflexivity|]. split; [reflexivity|]. split; [exact Hne|].
  split; [exact Hfail|].
  exact (enqueue_failure_keeps_rows pg one_session project_text nul_enqueue
           nul_entries no_queries invalid_input eq_refl eq_refl Hne Hfail).
Defined.

Lemma enqueue_unknown_project_witness :
  quiescent three_pending
  ∧ (∀ u, uuid_in pg (JS.VStr c_text) = Some u →
          u ∉ p_id <$> projects (committed three_pending))
  ∧ committed (snd (post_queries pg one_session c_text enqueue
                      three_pending))
    = committed three_pending.
Proof.
  assert (∀ u, uuid_in pg (JS.VStr c_text) = Some u →
               u ∉ p_id <$> projects (committed three_pending)) as Hno.
  { intros u Hu. vm_compute in Hu. injection Hu as <-. by_computation. }
  split; [reflexivity|]. split; [exact Hno|].
  exact (proj1 (enqueue_unknown_project pg one_session c_text enqueue
                  three_pending eq_refl Hno)).
Defined.

Lemma successful_submission_completes_witness :
  (∀ n, on_session (one_session n) = 0%nat)
  ∧ quiescent one_processing
  ∧ fst (post_results pg one_session submission one_processing)
    = Done Json_success
  ∧ status_of
      (committed (snd (post_results pg one_session submission
                         one_processing)))
      (id_of a_text)
    = Some completed.
Proof.
  assert (fst (post_results pg one_session submission one_processing)
          = Done Json_success) as Hok by (vm_compute; reflexivity).
  split; [exact one_session_same|]. split; [reflexivity|].
  split; [exact Hok|].
  destruct (successful_submission_completes pg one_session 0%nat
              one_session_same submission one_processing eq_refl Hok)
    as (u & Hu & Hin & _).
  vm_compute in Hu. injection Hu as <-.
  apply Hin. by_computation.
Defined.

Lemma claim_moves_stats_witness :
  quiescent three_pending
  ∧ primary_key (committed three_pending)
  ∧ fst (get_next pg one_session three_pending)
    = Done (Json_next (id_of b_text) (JS.lit "bar") 5)
  ∧ ∃ q, q ∈ queries (committed three_pending) ∧ q_id q = id_of b_text.
Proof.
  assert (fst (get_next pg one_session three_pending)
          = Done (Json_next (id_of b_text) (JS.lit "bar") 5)) as Hnext
    by (vm_compute; reflexivity).
  split; [reflexivity|]. split; [exact three_pending_primary_key|].
  split; [exact Hnext|].
  destruct (claim_moves_stats pg one_session three_pending _ _ _ eq_refl
              three_pending_primary_key Hnext) as (q & Hin & Hid & _).
  exists q. split; [exact Hin|exact Hid].
Defined.

Lemma enqueue_adds_to_stats_witness :
  quiescent three_pending
  ∧ JS.field enqueue "queries" = JS.VArr entries
  ∧ entries ≠ []
  ∧ ∃ k, ∀ n,
      fst (post_queries pg one_session project_text enqueue three_pending)
      = Done (Json_inserted n) → n = k.
Proof.
  assert (entries ≠ []) as Hne by discriminate.
  split; [reflexivity|]. split; [reflexivity|]. split; [exact Hne|].
  destruct (enqueue_adds_to_stats pg one_session project_text enqueue
              entries three_pending eq_refl eq_refl Hne) as (k & Hk & _).
  exists k. exact Hk.
Defined.

Lemma polls_one_pending_witness :
  quiescent one_pending ∧ primary_key (committed one_pending)
  ∧ polls pg one_session 3 one_pending
    = [Done (Json_next (id_of a_text) (JS.lit "foo") 5);
       Done Json_null; Done Json_null].
Proof.
  split; [reflexivity|]. split; [exact one_pending_primary_key|].
  apply (polls_one_pending pg one_session 2 one_pending
           (row a_text (JS.lit "foo") pending (Some 0) 1000)
           eq_refl one_pending_primary_key).
  - apply list_elem_of_singleton. reflexivity.
  - reflexivity.
  - intros q' Hin _. apply list_elem_of_singleton in Hin. exact Hin.
Defined.

Lemma post_results_all_or_nothing_witness :
  (∀ n, on_session (one_session n) = 0%nat)
  ∧ quiescent one_processing
  ∧ fst (post_results pg one_session bad_submission one_processing)
    = Done (Status500 "Failed to save results" (DbError invalid_input))
  ∧ committed (snd (post_results pg one_session bad_submission
                      one_processing))
    = committed one_processing.
Proof.
  assert (fst (post_results pg one_session bad_submission one_processing)
          = Done (Status500 "Failed to save results"
                    (DbError invalid_input))) as Hfail
    by (vm_compute; reflexivity).
  split; [exact one_session_same|]. split; [reflexivity|].
  split; [exact Hfail|].
  exact (proj1 (post_results_all_or_nothing pg one_session 0%nat
                  bad_submission one_processing _ _ one_session_same
                  eq_refl Hfail)).
Defined.

Lemma run_invariants_witness :
  (∀ n, on_session (one_session n) = 0%nat)
  ∧ quiescent one_pending ∧ primary_key (committed one_pending)
  ∧ ∀ k wk,
      worlds pg one_session (Some key)
        [GET_next (Some key); POST_results (Some key) submission;
         POST_queries project_text enqueue] one_pending !! k = Some wk →
      quiescent wk ∧ primary_key (committed wk)
      ∧ ∀ id, id ∈ ids (committed one_pending) → id ∈ ids (committed wk).
Proof.
  split; [exact one_session_same|]. split; [reflexivity|].
  split; [exact one_pending_primary_key|].
  exact (run_invariants pg one_session (Some key) 0%nat
           [GET_next (Some key); POST_results (Some key) submission;
            POST_queries project_text enqueue] one_pending
           one_session_same eq_refl one_pending_primary_key).
Defined.

Lemma submission_issues_every_row_witness :
  fst (post_results pg one_session submission one_processing)
  = Done Json_success
  ∧ issued_since one_processing
      (snd (post_results pg one_session submission one_processing))
    = BEGIN :: statements_of_submission submission ++ [COMMIT].
Proof.
  assert (fst (post_results pg one_session submission one_processing)
          = Done Json_success) as Hok by (vm_compute; reflexivity).
  split; [exact Hok|].
  exact (proj1 (submission_issues_every_row pg one_session submission
                  one_processing) Hok).
Defined.

Lemma resubmission_appends_witness :
  (∀ n, on_session (one_session n) = 0%nat) ∧ quiescent one_processing
  ∧ fst (post_results pg one_session submission one_processing)
    = Done Json_success
  ∧ fst (post_results pg one_session submission
           (snd (post_results pg one_session submission one_processing)))
    = Done Json_success
  ∧ ∃ log,
      length log = 4%nat
      ∧ length (written_results log) = 2%nat
      ∧ results (committed
                   (snd (post_results pg one_session submission
                           (snd (post_results pg one_session submission
                                   one_processing)))))
        = results (committed one_processing) ++ written_results log
            ++ written_results log.
Proof.
  assert (fst (post_results pg one_session submission one_processing)
          = Done Json_success) as Hok by (vm_compute; reflexivity).
  split; [exact one_session_same|]. split; [reflexivity|].
  split; [exact Hok|].
  destruct (resubmission_appends pg one_session 0%nat submission
              one_processing one_session_same eq_refl Hok)
    as [(Hok2 & log & Hlog & _ & Hr2 & _) _].
  split; [exact Hok2|]. exists log.
  assert (inserts_of_submission submission
          = [INSERT_result (JS.VStr a_text) (JS.VNum 1) (JS.VNum 1)
               (JS.VStr (JS.lit "A title"))
               (JS.VStr (JS.lit "https://example.org/"))
               (JS.VStr (JS.lit "example.org"))
               (JS.VStr (JS.lit "A description"))
               (JS.VStr (JS.lit "organic"));
             INSERT_result (JS.VStr a_text) (JS.VNum 1) (JS.VNum 2)
               (JS.VStr (JS.lit "A title"))
               (JS.VStr (JS.lit "https://example.org/"))
               (JS.VStr (JS.lit "example.com"))
               (JS.VStr (JS.lit "A description"))
               (JS.VStr (JS.lit "organic"));
             INSERT_suggestion (JS.VStr a_text) (JS.VStr (JS.lit "foo bar"));
             INSERT_related (JS.VStr a_text) (JS.VStr (JS.lit "foo baz"))])
    as Hins by (vm_compute; reflexivity).
  rewrite Hins in Hlog.
  apply Forall2_cons_inv_l in Hlog as (x1 & l1 & H1 & Hlog & ->).
  apply Forall2_cons_inv_l in Hlog as (x2 & l2 & H2 & Hlog & ->).
  apply Forall2_cons_inv_l in Hlog as (x3 & l3 & H3 & Hlog & ->).
  apply Forall2_cons_inv_l in Hlog as (x4 & l4 & H4 & Hlog & ->).
  apply Forall2_nil_inv_l in Hlog as ->.
  vm_compute in H1, H2, H3, H4.
  injection H1 as <-. injection H2 as <-. injection H3 as <-.
  injection H4 as <-.
  split; [reflexivity|]. split; [reflexivity|]. exact Hr2.
Defined.

(** A stored query without a priority is handed out before the older one
    of priority 5. *)
Example null_priority_first :
  fst (get_next pg one_session null_priority)
  = Done (Json_next (id_of b_text) (JS.lit "bar") 5).
Proof. vm_compute. reflexivity. Qed.

(** Queries of equal priority are handed out oldest first. *)
Example equal_priority_oldest_first :
  polls pg one_session 2 equal_priority
  = [Done (Json_next (id_of a_text) (JS.lit "foo") 5);
     Done (Json_next (id_of b_text) (JS.lit "bar") 5)].
Proof. vm_compute. reflexivity. Qed.

End Further_examples.
